(** * Spotify playlist analyzer: the analysis pipeline of [server.js]

    A shallow embedding of the route [GET /api/playlist/:id/analyze] and of
    the helper [ensureAccessToken], followed by the properties of the
    pipeline: paging, batching, aggregation, ranking, duration formatting
    and error reporting.

    Conventions of the embedding.
    - A JavaScript value that may be [null] or [undefined] is an [option];
      [None] stands for [null].
    - Integer-valued numbers (durations, popularity, counters, time stamps)
      are [Z]: below 2^53 the binary64 arithmetic of the source is exact on
      them.  The audio-feature values are binary64 numbers, [float].
    - A plain object used as a dictionary is the list of its own properties
      in creation order ([Js.obj]); enumeration follows the language: keys
      that are array indices first, in ascending numeric order, then the
      other keys in creation order.  The keys are taken not to be names of
      properties inherited from [Object.prototype] ([constructor],
      [toString], ...): these are not part of the model.
    - [await axios.get(...)] is a call to the provider ([Upstream]) that is
      recorded in the request log of the [World]; a response outside 2xx
      is thrown as an error carrying the response body.
    - Loops run on fuel; running out of it is the outcome [OutOfFuel],
      which is neither a result nor an error of the program. *)

From Stdlib Require Import ZArith NArith String Ascii List Lia Sorting.Sorted.
From Stdlib Require Import Decimal DecimalString DecimalN DecimalZ DecimalPos.
From Stdlib Require Import PrimFloat FloatOps SpecFloat.
From stdpp Require Import base list strings.

(** ** The fragment of the JavaScript runtime the route relies on *)

Module Js.

(** Truthiness of a value that is a string, [null] or [undefined]. *)
Definition truthy (v : option string) : bool :=
  match v with
  | Some s => negb (String.eqb s "")
  | None => false
  end.

(** [v || d] on such values. *)
Definition or_else (v d : option string) : option string :=
  if truthy v then v else d.

(** [n || d] on a number that may be absent: [0] is falsy. *)
Definition num_or (v : option Z) (d : Z) : Z :=
  match v with
  | Some n => if (n =? 0)%Z then d else n
  | None => d
  end.

(** [String(n)] for an integer. *)
Definition string_of_Z (n : Z) : string := NilZero.string_of_int (Z.to_int n).

(** The string a nullable string converts to, as a property key or in
    a template literal. *)
Definition interpolate (v : option string) : string :=
  match v with
  | Some s => s
  | None => "null"
  end.

(** [Array.prototype.join]: [null] and [undefined] elements print as the
    empty string. *)
Definition join (sep : string) (l : list (option string)) : string :=
  String.concat sep (map (fun v => match v with Some s => s | None => "" end) l).

(** [Array.prototype.slice(i, j)]. *)
Definition slice {A} (i j : nat) (l : list A) : list A := take (j - i) (drop i l).

(** [Array.prototype.sort(cmp)]: the sort is stable (ES2019), so with a
    consistent comparator its result is the one of insertion sort. *)
Fixpoint insert_sorted {A} (cmp : A -> A -> Z) (x : A) (l : list A) : list A :=
  match l with
  | [] => [x]
  | y :: l' => if (cmp x y <=? 0)%Z then x :: y :: l' else y :: insert_sorted cmp x l'
  end.

Fixpoint sort {A} (cmp : A -> A -> Z) (l : list A) : list A :=
  match l with
  | [] => []
  | x :: l' => insert_sorted cmp x (sort cmp l')
  end.

(** [new Set(l)] spread back into an array: first occurrences, in order. *)
Fixpoint set_of {A} `{EqDecision A} (seen l : list A) : list A :=
  match l with
  | [] => []
  | x :: l' => if decide (x ∈ seen) then set_of seen l' else x :: set_of (x :: seen) l'
  end.

(** *** Plain objects as ordered dictionaries *)

Definition obj (V : Type) := list (string * V).

Fixpoint obj_get {V} (k : string) (o : obj V) : option V :=
  match o with
  | [] => None
  | (k', v) :: o' => if String.eqb k k' then Some v else obj_get k o'
  end.

(** [o[k] = v]: an existing property keeps its place. *)
Fixpoint obj_set {V} (k : string) (v : V) (o : obj V) : obj V :=
  match o with
  | [] => [(k, v)]
  | (k', v') :: o' => if String.eqb k k' then (k, v) :: o' else (k', v') :: obj_set k v o'
  end.

(** A key is an array index when it is the canonical decimal form of an
    integer between 0 and 2^32 - 2. *)
Definition array_index (k : string) : option N :=
  match NilZero.uint_of_string k with
  | Some d =>
      let n := N.of_uint d in
      if String.eqb (NilZero.string_of_uint (N.to_uint n)) k && (n <=? 4294967294)%N
      then Some n else None
  | None => None
  end.

Definition is_index (k : string) : bool :=
  match array_index k with Some _ => true | None => false end.

Definition index_of (k : string) : Z :=
  match array_index k with Some n => Z.of_N n | None => 0%Z end.

(** [Object.entries(o)]: own property order. *)
Definition entries {V} (o : obj V) : list (string * V) :=
  sort (fun a b => (index_of (fst a) - index_of (fst b))%Z)
       (List.filter (fun e => is_index (fst e)) o)
  ++ List.filter (fun e => negb (is_index (fst e))) o.

Definition values {V} (o : obj V) : list V := map snd (entries o).

(** *** Numbers *)

(** The binary64 number nearest to an integer. *)
Definition float_of_Z (n : Z) : float := SF2Prim (binary_normalize prec emax n 0 false).

(** [+(x).toFixed(3)].  [toFixed] takes the integer [n] for which
    [n / 1000 - |x|] is closest to zero (the larger one on a tie), prints
    it with three decimals and the sign of [x]; the unary plus reads the
    text back as the nearest number.  Below 2^53 the integer [n] is a
    number and the quotient [n / 1000] is rounded as the text is; from
    there on the spacing of the numbers exceeds 0.001 and the text reads
    back as [x], as it does for the exponent notation printed from 1e21
    on and for [NaN] and the infinities. *)
Definition toFixed3 (x : float) : float :=
  match Prim2SF x with
  | S754_zero _ => PrimFloat.zero
  | S754_finite s m e =>
      let den := (2 ^ Z.max (- e) 0)%Z in
      let n := ((2000 * Z.pos m * 2 ^ Z.max e 0 + den) / (2 * den))%Z in
      if (2 ^ 53 <=? n)%Z then x
      else
        let r := PrimFloat.div (float_of_Z n) (float_of_Z 1000) in
        if s then PrimFloat.opp r else r
  | _ => x
  end.

End Js.

(** ** Data exchanged with the provider *)

(** An artist as credited on a track. *)
Record ArtistRef := {
  ar_id : option string;
  ar_name : option string
}.

Record Track := {
  t_id : option string;
  t_name : option string;
  t_duration_ms : option Z;
  t_popularity : option Z;
  t_artists : option (list (option ArtistRef))
}.

(** An entry of a page of playlist tracks: the wrapper and its track. *)
Record Item := { i_track : option Track }.

Record Page := {
  p_items : list Item;
  p_next : option string
}.

Inductive FeatureName :=
| danceability | energy | valence | tempo
| acousticness | instrumentalness | liveness | speechiness.

(** [Object.keys(featuresAccumulator)]. *)
Definition feature_names : list FeatureName :=
  [danceability; energy; valence; tempo;
   acousticness; instrumentalness; liveness; speechiness].

Record AudioFeatures := {
  af_id : option string;
  af_value : FeatureName -> option float
}.

(** An artist record as resolved by the provider. *)
Record Artist := {
  a_id : option string;
  a_genres : option (list string)
}.

Record Owner := {
  o_display_name : option string;
  o_id : option string
}.

Record Image := { img_url : option string }.

Record Playlist := {
  pl_id : option string;
  pl_name : option string;
  pl_owner : option Owner;
  pl_images : option (list Image)
}.

Record TokenData := {
  td_access_token : string;
  td_expires_in : option Z
}.

Record AudioFeaturesBody := { b_audio_features : option (list (option AudioFeatures)) }.
Record ArtistsBody := { b_artists : option (list (option Artist)) }.

(** ** Errors, outcomes and the world *)

(** A thrown error: its [message] and, for a failed request,
    [response.data]. *)
Record JsError := {
  message : string;
  response_data : option string
}.

(** [new Error(msg)]. *)
Definition Error (msg : string) : JsError :=
  {| message := msg; response_data := None |}.

(** What [t.artists.map] and [a.id] throw on a missing receiver. *)
Definition TypeError (property : string) : JsError :=
  Error ("Cannot read properties of null (reading '" ++ property ++ "')").

Inductive Outcome (A : Type) :=
| Returned (a : A)
| Thrown (e : JsError)
| OutOfFuel.
Arguments Returned {A} a.
Arguments Thrown {A} e.
Arguments OutOfFuel {A}.

(** A response of the provider: 2xx with its payload, or another status
    with its body. *)
Inductive HttpResp (A : Type) :=
| Ok (data : A)
| Fail (status : Z) (body : option string).
Arguments Ok {A} data.
Arguments Fail {A} status body.

(** The error axios throws for a response outside 2xx. *)
Definition axios_error (status : Z) (body : option string) : JsError :=
  {| message := "Request failed with status code " ++ Js.string_of_Z status;
     response_data := body |}.

(** The requests the route can issue; the batch requests keep the chunk
    of identifiers they were built from. *)
Inductive Request :=
| PostToken (refresh_token : option string)
| GetPlaylist (url authorization : string)
| GetTracks (url authorization : string)
| GetAudioFeatures (chunk : list (option string)) (authorization : string)
| GetArtists (chunk : list (option string)) (authorization : string).

Definition audio_features_url (batch : string) : string :=
  "https://api.spotify.com/v1/audio-features?ids=" ++ batch.

Definition artists_url (batch : string) : string :=
  "https://api.spotify.com/v1/artists?ids=" ++ batch.

(** The provider and the clock, as seen from one invocation. *)
Record Upstream := {
  date_now : nat -> Z;
  post_token : option string -> HttpResp TokenData;
  get_playlist : string -> string -> HttpResp Playlist;
  get_tracks : string -> string -> HttpResp Page;
  get_audio_features : string -> string -> HttpResp AudioFeaturesBody;
  get_artists : string -> string -> HttpResp ArtistsBody
}.

(** The failure, if any, with which the provider answers a request. *)
Definition failure_of {A} (r : HttpResp A) : option (Z * option string) :=
  match r with
  | Ok _ => None
  | Fail status body => Some (status, body)
  end.

Definition request_failure (up : Upstream) (rq : Request) : option (Z * option string) :=
  match rq with
  | PostToken rt => failure_of (post_token up rt)
  | GetPlaylist url auth => failure_of (get_playlist up url auth)
  | GetTracks url auth => failure_of (get_tracks up url auth)
  | GetAudioFeatures chunk auth =>
      failure_of (get_audio_features up (audio_features_url (Js.join "," chunk)) auth)
  | GetArtists chunk auth =>
      failure_of (get_artists up (artists_url (Js.join "," chunk)) auth)
  end.

Record Session := {
  access_token : option string;
  refresh_token : option string;
  expires_in : option Z
}.

(** The state an invocation reads and writes: the session of the request,
    the number of clock reads so far, the requests issued so far. *)
Record World := {
  session : option Session;
  ticks : nat;
  log : list Request
}.

Definition M (A : Type) : Type := World -> Outcome A * World.

Definition ret {A} (a : A) : M A := fun w => (Returned a, w).

Definition bind {A B} (c : M A) (k : A -> M B) : M B :=
  fun w =>
    match c w with
    | (Returned a, w') => k a w'
    | (Thrown e, w') => (Thrown e, w')
    | (OutOfFuel, w') => (OutOfFuel, w')
    end.

Notation "'let!' x ':=' c 'in' k" := (bind c (fun x => k))
  (at level 10, x name, c at level 100, k at level 200).

Definition throw {A} (e : JsError) : M A := fun w => (Thrown e, w).
Definition out_of_fuel {A} : M A := fun w => (OutOfFuel, w).

Definition lift {A} (o : Outcome A) : M A := fun w => (o, w).

Definition get_session : M (option Session) := fun w => (Returned (session w), w).

Definition set_session (s : Session) : M unit :=
  fun w => (Returned tt, {| session := Some s; ticks := ticks w; log := log w |}).

(** [Date.now()]. *)
Definition Date_now (up : Upstream) : M Z :=
  fun w => (Returned (date_now up (ticks w)),
            {| session := session w; ticks := S (ticks w); log := log w |}).

(** [await axios.get(...)] and [await axios.post(...)]: the request is
    issued, then its answer is returned or thrown. *)
Definition axios {A} (rq : Request) (resp : HttpResp A) : M A :=
  fun w =>
    let w' := {| session := session w; ticks := ticks w; log := log w ++ [rq] |} in
    match resp with
    | Ok data => (Returned data, w')
    | Fail status body => (Thrown (axios_error status body), w')
    end.

(** Sequencing of computations that can only throw. *)
Definition and_then {A B} (o : Outcome A) (k : A -> Outcome B) : Outcome B :=
  match o with
  | Returned a => k a
  | Thrown e => Thrown e
  | OutOfFuel => OutOfFuel
  end.

(** ** [ensureAccessToken] *)

Definition ensureAccessToken (up : Upstream) : M string :=
  let! s := get_session in
  match s with
  | None => throw (Error "not_authenticated")
  | Some sess =>
      if negb (Js.truthy (access_token sess)) then throw (Error "not_authenticated")
      else
        let expiresAt := Js.num_or (expires_in sess) 0 in
        let! now := Date_now up in
        if (now <? expiresAt - 5000)%Z then ret (Js.interpolate (access_token sess))
        else
          let! resp := axios (PostToken (refresh_token sess))
                           (post_token up (refresh_token sess)) in
          let! now' := Date_now up in
          let! saved := set_session
                    {| access_token := Some (td_access_token resp);
                       refresh_token := refresh_token sess;
                       expires_in :=
                         Some (now' + Js.num_or (td_expires_in resp) 3600 * 1000)%Z |} in
          ret (td_access_token resp)
  end.

(** ** The stages of the route *)

Definition bearer (token : string) : string := "Bearer " ++ token.

Definition playlist_url (playlistId : string) : string :=
  "https://api.spotify.com/v1/playlists/" ++ playlistId.

Definition first_page_url (playlistId : string) : string :=
  "https://api.spotify.com/v1/playlists/" ++ playlistId ++ "/tracks?limit=100".

(** 2) The pagination loop [while (next) { ... }]; the items of a page
    whose track is [null] are not pushed. *)
Fixpoint tracks_loop (fuel : nat) (up : Upstream) (auth : string)
    (next : option string) (tracks : list Track) : M (list Track) :=
  if Js.truthy next then
    match fuel with
    | O => out_of_fuel
    | S fuel' =>
        let! tResp := axios (GetTracks (Js.interpolate next) auth)
                          (get_tracks up (Js.interpolate next) auth) in
        tracks_loop fuel' up auth (p_next tResp) (tracks ++ omap i_track (p_items tResp))
    end
  else ret tracks.

(** [tracks.map(t => t.id).filter(Boolean)] *)
Definition trackIds (tracks : list Track) : list (option string) :=
  List.filter Js.truthy (map t_id tracks).

(** [t.artists.forEach(a => artistIds.push(a.id))] *)
Fixpoint push_artist_ids (artists : list (option ArtistRef))
    (artistIds : list (option string)) : Outcome (list (option string)) :=
  match artists with
  | [] => Returned artistIds
  | None :: _ => Thrown (TypeError "id")
  | Some a :: artists' => push_artist_ids artists' (artistIds ++ [ar_id a])
  end.

(** [tracks.forEach(t => { if (t && t.artists) ... })] *)
Fixpoint collect_artist_ids (tracks : list Track)
    (artistIds : list (option string)) : Outcome (list (option string)) :=
  match tracks with
  | [] => Returned artistIds
  | t :: tracks' =>
      match t_artists t with
      | Some artists =>
          and_then (push_artist_ids artists artistIds) (collect_artist_ids tracks')
      | None => collect_artist_ids tracks' artistIds
      end
  end.

(** [audioFeatures[af.id] = af], under the guard [af && af.id]. *)
Definition store_features (audioFeatures : Js.obj AudioFeatures)
    (af : option AudioFeatures) : Js.obj AudioFeatures :=
  match af with
  | Some af =>
      if Js.truthy (af_id af) then Js.obj_set (Js.interpolate (af_id af)) af audioFeatures
      else audioFeatures
  | None => audioFeatures
  end.

(** 3) The audio-features loop
    [for (let i = 0; i < trackIds.length; i += 100)], with its guard
    [if (!batch) continue;]. *)
Fixpoint audio_features_loop (fuel : nat) (up : Upstream) (auth : string)
    (trackIds : list (option string)) (i : nat)
    (audioFeatures : Js.obj AudioFeatures) : M (Js.obj AudioFeatures) :=
  if (i <? length trackIds)%nat then
    match fuel with
    | O => out_of_fuel
    | S fuel' =>
        let chunk := Js.slice i (i + 100) trackIds in
        let batch := Js.join "," chunk in
        if String.eqb batch "" then
          audio_features_loop fuel' up auth trackIds (i + 100) audioFeatures
        else
          let! fResp := axios (GetAudioFeatures chunk auth)
                            (get_audio_features up (audio_features_url batch) auth) in
          audio_features_loop fuel' up auth trackIds (i + 100)
            (fold_left store_features (default [] (b_audio_features fResp)) audioFeatures)
    end
  else ret audioFeatures.

(** [[...new Set(artistIds)].filter(Boolean)] *)
Definition uniqueArtistIds (artistIds : list (option string)) : list (option string) :=
  List.filter Js.truthy (Js.set_of [] artistIds).

(** [(aResp.data.artists || []).forEach(a => { artistsMap[a.id] = a; })] *)
Fixpoint store_artists (artists : list (option Artist))
    (artistsMap : Js.obj Artist) : Outcome (Js.obj Artist) :=
  match artists with
  | [] => Returned artistsMap
  | None :: _ => Thrown (TypeError "id")
  | Some a :: artists' =>
      store_artists artists' (Js.obj_set (Js.interpolate (a_id a)) a artistsMap)
  end.

(** 4) The artists loop
    [for (let i = 0; i < uniqueArtistIds.length; i += 50)], with the same
    guard. *)
Fixpoint artists_loop (fuel : nat) (up : Upstream) (auth : string)
    (uniqueArtistIds : list (option string)) (i : nat)
    (artistsMap : Js.obj Artist) : M (Js.obj Artist) :=
  if (i <? length uniqueArtistIds)%nat then
    match fuel with
    | O => out_of_fuel
    | S fuel' =>
        let chunk := Js.slice i (i + 50) uniqueArtistIds in
        let batch := Js.join "," chunk in
        if String.eqb batch "" then
          artists_loop fuel' up auth uniqueArtistIds (i + 50) artistsMap
        else
          let! aResp := axios (GetArtists chunk auth)
                            (get_artists up (artists_url batch) auth) in
          let! artistsMap' := lift (store_artists (default [] (b_artists aResp)) artistsMap) in
          artists_loop fuel' up auth uniqueArtistIds (i + 50) artistsMap'
    end
  else ret artistsMap.

(** ** 5) The statistics *)

(** An entry of [trackPopularity]. *)
Record TrackEntry := {
  te_id : option string;
  te_name : option string;
  te_artists : string;
  te_popularity : Z
}.

(** The variables the aggregation pass updates. *)
Record Stats := {
  totalDurationMs : Z;
  artistCount : Js.obj Z;
  trackPopularity : list TrackEntry;
  featuresAccumulator : FeatureName -> float;
  featuresCount : Z
}.

Definition initial_stats : Stats :=
  {| totalDurationMs := 0;
     artistCount := [];
     trackPopularity := [];
     featuresAccumulator := fun _ => PrimFloat.zero;
     featuresCount := 0 |}.

(** [t.artists.map(a => a.name)] on an array that is there. *)
Fixpoint artist_names (artists : list (option ArtistRef)) : Outcome (list (option string)) :=
  match artists with
  | [] => Returned []
  | None :: _ => Thrown (TypeError "name")
  | Some a :: artists' =>
      and_then (artist_names artists') (fun names => Returned (ar_name a :: names))
  end.

(** [t.artists.map(a => a.name).join(', ')]: there is no guard on
    [t.artists]. *)
Definition joined_artist_names (t : Track) : Outcome string :=
  match t_artists t with
  | None => Thrown (TypeError "map")
  | Some artists => and_then (artist_names artists) (fun names => Returned (Js.join ", " names))
  end.

(** The counting idiom [counts[key] = (counts[key] || 0) + 1]. *)
Definition increment (counts : Js.obj Z) (key : string) : Js.obj Z :=
  Js.obj_set key (Js.num_or (Js.obj_get key counts) 0 + 1)%Z counts.

(** The body of [(t.artists || []).forEach(a => { ... })]. *)
Definition count_artist (artistCount : Js.obj Z) (a : option ArtistRef) : Js.obj Z :=
  match a with
  | None => artistCount
  | Some a =>
      if negb (Js.truthy (ar_id a)) then artistCount
      else increment artistCount (Js.interpolate (Js.or_else (ar_name a) (ar_id a)))
  end.

(** [featuresAccumulator[k] += af[k]] for the fields of [af] that are
    neither [undefined] nor [null]. *)
Definition add_features (acc : FeatureName -> float) (af : AudioFeatures)
    : FeatureName -> float :=
  fun k =>
    match af_value af k with
    | Some v => PrimFloat.add (acc k) v
    | None => acc k
    end.

(** [{ id: t.id, name: t.name, artists: ..., popularity: t.popularity || 0 }] *)
Definition track_entry (t : Track) (names : string) : TrackEntry :=
  {| te_id := t_id t;
     te_name := t_name t;
     te_artists := names;
     te_popularity := Js.num_or (t_popularity t) 0 |}.

(** The body of [tracks.forEach(t => { ... })]. *)
Definition visit_track (audioFeatures : Js.obj AudioFeatures) (st : Stats) (t : Track)
    : Outcome Stats :=
  let duration := (totalDurationMs st + Js.num_or (t_duration_ms t) 0)%Z in
  and_then (joined_artist_names t) (fun names =>
    let entry := track_entry t names in
    let counts := fold_left count_artist (default [] (t_artists t)) (artistCount st) in
    match Js.obj_get (Js.interpolate (t_id t)) audioFeatures with
    | Some af =>
        Returned {| totalDurationMs := duration;
                    artistCount := counts;
                    trackPopularity := trackPopularity st ++ [entry];
                    featuresAccumulator := add_features (featuresAccumulator st) af;
                    featuresCount := featuresCount st + 1 |}
    | None =>
        Returned {| totalDurationMs := duration;
                    artistCount := counts;
                    trackPopularity := trackPopularity st ++ [entry];
                    featuresAccumulator := featuresAccumulator st;
                    featuresCount := featuresCount st |}
    end).

Fixpoint visit_tracks (audioFeatures : Js.obj AudioFeatures) (tracks : list Track)
    (st : Stats) : Outcome Stats :=
  match tracks with
  | [] => Returned st
  | t :: tracks' => and_then (visit_track audioFeatures st t) (visit_tracks audioFeatures tracks')
  end.

(** [avgFeatures]: left empty unless [featuresCount > 0]. *)
Definition avgFeatures (st : Stats) : list (FeatureName * float) :=
  if (0 <? featuresCount st)%Z then
    map (fun k => (k, Js.toFixed3 (PrimFloat.div (featuresAccumulator st k)
                                                 (Js.float_of_Z (featuresCount st)))))
        feature_names
  else [].

Record ArtistRank := { name : string; count : Z }.
Record GenreRank := { genre : string; genre_count : Z }.

(** The comparator [(a, b) => b[1] - a[1]]. *)
Definition by_count_desc (a b : string * Z) : Z := (snd b - snd a)%Z.

(** The comparator [(a, b) => b.popularity - a.popularity]. *)
Definition by_popularity_desc (a b : TrackEntry) : Z := (te_popularity b - te_popularity a)%Z.

(** [([name, count]) => ({ name, count })] *)
Definition artist_rank (e : string * Z) : ArtistRank := {| name := fst e; count := snd e |}.

(** [([g, c]) => ({ genre: g, count: c })] *)
Definition genre_rank (e : string * Z) : GenreRank := {| genre := fst e; genre_count := snd e |}.

Definition topArtists (artistCount : Js.obj Z) : list ArtistRank :=
  map artist_rank (Js.slice 0 10 (Js.sort by_count_desc (Js.entries artistCount))).

Definition topTracks (trackPopularity : list TrackEntry) : list TrackEntry :=
  Js.slice 0 10 (Js.sort by_popularity_desc trackPopularity).

(** [(a.genres || []).forEach(g => { genreCount[g] = (genreCount[g] || 0) + 1; })] *)
Definition count_genres (genreCount : Js.obj Z) (a : Artist) : Js.obj Z :=
  fold_left increment (default [] (a_genres a)) genreCount.

Definition genreCount (artistsMap : Js.obj Artist) : Js.obj Z :=
  fold_left count_genres (Js.values artistsMap) [].

Definition topGenres (artistsMap : Js.obj Artist) : list GenreRank :=
  map genre_rank (Js.slice 0 10 (Js.sort by_count_desc (Js.entries (genreCount artistsMap)))).

Definition formatDuration (ms : Z) : string :=
  let s := (ms / 1000)%Z in
  let h := (s / 3600)%Z in
  let m := (Z.rem s 3600 / 60)%Z in
  let sec := Z.rem s 60 in
  ((if (0 <? h)%Z then Js.string_of_Z h ++ "h " else "")
   ++ Js.string_of_Z m ++ "m " ++ Js.string_of_Z sec ++ "s")%string.

(** ** The response *)

Record PlaylistSummary := {
  summary_id : option string;
  summary_name : option string;
  owner : option string;
  total_tracks : Z;
  duration_ms : Z;
  duration_human : string;
  image : option string
}.

Record Analysis := {
  avg_features : list (FeatureName * float);
  features_count : Z;
  top_artists : list ArtistRank;
  top_tracks : list TrackEntry;
  top_genres : list GenreRank
}.

Record AnalysisResult := {
  playlist : PlaylistSummary;
  analysis : Analysis
}.

(** [playlist.owner?.display_name || playlist.owner?.id] *)
Definition owner_label (pl : Playlist) : option string :=
  match pl_owner pl with
  | Some o => Js.or_else (o_display_name o) (o_id o)
  | None => None
  end.

(** [playlist.images?.[0]?.url || null] *)
Definition cover_image (pl : Playlist) : option string :=
  match pl_images pl with
  | Some (img :: _) => Js.or_else (img_url img) None
  | _ => None
  end.

(** Steps 5 and 6 of the route: from the fetched data to [result]. *)
Definition aggregate (pl : Playlist) (tracks : list Track)
    (audioFeatures : Js.obj AudioFeatures) (artistsMap : Js.obj Artist)
    : Outcome AnalysisResult :=
  let totalTracks := Z.of_nat (length tracks) in
  and_then (visit_tracks audioFeatures tracks initial_stats) (fun st =>
    Returned
      {| playlist :=
           {| summary_id := pl_id pl;
              summary_name := pl_name pl;
              owner := owner_label pl;
              total_tracks := totalTracks;
              duration_ms := totalDurationMs st;
              duration_human := formatDuration (totalDurationMs st);
              image := cover_image pl |};
         analysis :=
           {| avg_features := avgFeatures st;
              features_count := featuresCount st;
              top_artists := topArtists (artistCount st);
              top_tracks := topTracks (trackPopularity st);
              top_genres := topGenres artistsMap |} |}).

(** ** The route [GET /api/playlist/:id/analyze] *)

(** The body of the [try] block, from the token on. *)
Definition analyze_with_token (fuel : nat) (up : Upstream) (playlistId token : string)
    : M AnalysisResult :=
  let auth := bearer token in
  let! pl := axios (GetPlaylist (playlist_url playlistId) auth)
                   (get_playlist up (playlist_url playlistId) auth) in
  let! tracks := tracks_loop fuel up auth (Some (first_page_url playlistId)) [] in
  let! artistIds := lift (collect_artist_ids tracks []) in
  let! audioFeatures := audio_features_loop fuel up auth (trackIds tracks) 0 [] in
  let! artistsMap := artists_loop fuel up auth (uniqueArtistIds artistIds) 0 [] in
  lift (aggregate pl tracks audioFeatures artistsMap).

(** The body of the [try] block. *)
Definition analyze (fuel : nat) (up : Upstream) (playlistId : string) : M AnalysisResult :=
  let! token := ensureAccessToken up in
  analyze_with_token fuel up playlistId token.

(** What the route sends. *)
Inductive Body :=
| ResultBody (result : AnalysisResult)
| ErrorBody (error : string) (detail : option string).

Record Reply := {
  status : Z;
  body : Body
}.

(** The [catch] block. *)
Definition on_error (err : JsError) : Reply :=
  if String.eqb (message err) "not_authenticated" then
    {| status := 401; body := ErrorBody "not_authenticated" None |}
  else
    {| status := 500;
       body := ErrorBody "analysis_failed"
                 (Some (Js.interpolate (Js.or_else (response_data err) (Some (message err))))) |}.

(** The route: the reply, when the handler runs to its end. *)
Definition analyze_route (fuel : nat) (up : Upstream) (playlistId : string) (w : World)
    : option Reply * World :=
  match analyze fuel up playlistId w with
  | (Returned result, w') => (Some {| status := 200; body := ResultBody result |}, w')
  | (Thrown err, w') => (Some (on_error err), w')
  | (OutOfFuel, w') => (None, w')
  end.

(** The error tag of a reply. *)
Definition error_tag (r : Reply) : option string :=
  match body r with
  | ErrorBody error _ => Some error
  | ResultBody _ => None
  end.

(** ** Vocabulary of the properties *)

(** Non-increasing order of a ranking key. *)
Definition non_increasing {A} (key : A -> Z) (l : list A) : Prop :=
  StronglySorted (fun a b => (key b <= key a)%Z) l.

(** [top] ranks [src]: at most ten entries, in non-increasing order of the
    key, the entries of one key in the order they have in [src]. *)
Definition ranking_of {A} (key : A -> Z) (src top : list A) : Prop :=
  length top <= 10
  /\ non_increasing key top
  /\ forall c, filter (fun a => key a = c) top `prefix_of` filter (fun a => key a = c) src.

(** The number of times [x] occurs in [l]. *)
Definition occurrences (x : string) (l : list string) : nat :=
  length (filter (fun y => y = x) l).

(** The counters reached from [counts] by counting the keys of a list. *)
Definition tally (keys : list string) (counts : Js.obj Z) : Js.obj Z :=
  fold_left increment keys counts.

(** The name under which a credit is counted, when it is counted. *)
Definition artist_key (a : option ArtistRef) : option string :=
  match a with
  | Some a =>
      if Js.truthy (ar_id a) then Some (Js.interpolate (Js.or_else (ar_name a) (ar_id a)))
      else None
  | None => None
  end.

(** The counted credits of a track list, in playlist order. *)
Definition credited_names (tracks : list Track) : list string :=
  flat_map (fun t => omap artist_key (default [] (t_artists t))) tracks.

(** The feature records of the tracks that have one, in playlist order. *)
Definition feature_records (audioFeatures : Js.obj AudioFeatures) (tracks : list Track)
    : list AudioFeatures :=
  omap (fun t => Js.obj_get (Js.interpolate (t_id t)) audioFeatures) tracks.

(** The values of one field that are present in a list of records. *)
Definition present_values (k : FeatureName) (records : list AudioFeatures) : list float :=
  omap (fun af => af_value af k) records.

(** Their sum, added up in order from zero. *)
Definition float_sum (values : list float) : float :=
  fold_left PrimFloat.add values PrimFloat.zero.

(** The entry of a track whose artist names can be joined. *)
Definition entry_of (t : Track) : TrackEntry :=
  track_entry t (match joined_artist_names t with Returned names => names | _ => "" end).

(** The tracks a sequence of pages carries. *)
Definition retrieved (pages : list Page) : list Track :=
  flat_map (fun p => omap i_track (p_items p)) pages.

(** The pages the provider serves from a cursor on, up to the page
    without a cursor. *)
Inductive PageWalk (up : Upstream) (auth : string) : option string -> list Page -> Prop :=
| walk_end next :
    Js.truthy next = false -> PageWalk up auth next []
| walk_page next page pages :
    Js.truthy next = true ->
    get_tracks up (Js.interpolate next) auth = Ok page ->
    PageWalk up auth (p_next page) pages ->
    PageWalk up auth next (page :: pages).

(** The comparator that puts array indices in ascending order. *)
Definition by_index (a b : string) : Z := (Js.index_of a - Js.index_of b)%Z.

(** The order in which the keys of an object are enumerated, from the
    order in which they were created. *)
Definition enumeration (keys : list string) : list string :=
  Js.sort by_index (List.filter Js.is_index keys)
  ++ List.filter (fun k => negb (Js.is_index k)) keys.

(** The counters of a list of keys, in enumeration order. *)
Definition counted (keys : list string) : list (string * Z) :=
  map (fun k => (k, Z.of_nat (occurrences k keys))) (enumeration (Js.set_of [] keys)).

(** The counters of a list of keys, in first-seen order. *)
Definition first_seen (keys : list string) : list (string * Z) :=
  map (fun k => (k, Z.of_nat (occurrences k keys))) (Js.set_of [] keys).

(** A track whose [artists] array is there and has no [null] entry. *)
Definition well_formed_track (t : Track) : Prop :=
  exists artists, t_artists t = Some artists /\ Forall is_Some artists.

(** The genre labels of the resolved artists, in the order the records
    are visited. *)
Definition genre_labels (artistsMap : Js.obj Artist) : list string :=
  flat_map (fun a => default [] (a_genres a)) (Js.values artistsMap).

(** ** Reading a duration back

    The inverse of [formatDuration], for the round trip: an optional
    hour component [<h>h ], then [<m>m <s>s], each number in decimal. *)

Definition digit (c : ascii) (d : uint) : option uint :=
  match c with
  | "0" => Some (D0 d) | "1" => Some (D1 d) | "2" => Some (D2 d) | "3" => Some (D3 d)
  | "4" => Some (D4 d) | "5" => Some (D5 d) | "6" => Some (D6 d) | "7" => Some (D7 d)
  | "8" => Some (D8 d) | "9" => Some (D9 d)
  | _ => None
  end%char.

(** The longest prefix of digits, and what follows it. *)
Fixpoint read_digits (s : string) : uint * string :=
  match s with
  | EmptyString => (Nil, EmptyString)
  | String c s' =>
      let (d, rest) := read_digits s' in
      match digit c d with
      | Some d' => (d', rest)
      | None => (Nil, s)
      end
  end.

(** A string that does not go on with a digit. *)
Definition ends_number (s : string) : Prop :=
  match s with
  | EmptyString => True
  | String c _ => forall d, digit c d = None
  end.

Definition read_number (s : string) : option (Z * string) :=
  match read_digits s with
  | (Nil, _) => None
  | (d, rest) => Some (Z.of_uint d, rest)
  end.

(** The hours, minutes and seconds a duration string shows. *)
Definition parse_duration (s : string) : option (Z * Z * Z) :=
  let minutes_seconds (h : Z) (s : string) :=
    match read_number s with
    | Some (m, String "m" (String " " s')) =>
        match read_number s' with
        | Some (sec, String "s" EmptyString) => Some (h, m, sec)
        | _ => None
        end
    | _ => None
    end in
  match read_number s with
  | Some (h, String "h" (String " " s')) => minutes_seconds h s'
  | _ => minutes_seconds 0%Z s
  end.

(** ** Sample data *)

Module Sample.

Local Open Scope Z_scope.

Definition credit (i n : string) : option ArtistRef :=
  Some {| ar_id := Some i; ar_name := Some n |}.

Definition track (i : option string) (d p : Z) (artists : list (option ArtistRef)) : Track :=
  {| t_id := i; t_name := Some "song"; t_duration_ms := Some d;
     t_popularity := Some p; t_artists := Some artists |}.

Definition half : float :=
  Eval vm_compute in PrimFloat.div (Js.float_of_Z 1) (Js.float_of_Z 2).
Definition quarter : float :=
  Eval vm_compute in PrimFloat.div (Js.float_of_Z 1) (Js.float_of_Z 4).

(** A record with every field set to [x]. *)
Definition features (i : string) (x : float) : AudioFeatures :=
  {| af_id := Some i; af_value := fun _ => Some x |}.

(** A record without [tempo]. *)
Definition features_no_tempo (i : string) (x : float) : AudioFeatures :=
  {| af_id := Some i;
     af_value := fun k => match k with tempo => None | _ => Some x end |}.

(** Two tracks of one artist, a third of another, and a local track
    without identifier. *)
Definition tracks : list Track :=
  [ track (Some "t1") 61000 5 [credit "A" "Ann"];
    track (Some "t2") 3600000 7 [credit "A" "Ann"];
    track (Some "t3") 1500 7 [credit "B" "Bob"];
    track None 0 0 [] ].

(** The first page holds a placeholder for a removed track. *)
Definition page1 : Page :=
  {| p_items := [ {| i_track := nth_error tracks 0 |}; {| i_track := None |};
                  {| i_track := nth_error tracks 1 |} ];
     p_next := Some "page2" |}.

Definition page2 : Page :=
  {| p_items := [ {| i_track := nth_error tracks 2 |}; {| i_track := nth_error tracks 3 |} ];
     p_next := None |}.

Definition ann : Artist := {| a_id := Some "A"; a_genres := Some ["pop"; "indie"] |}.
Definition bob : Artist := {| a_id := Some "B"; a_genres := Some ["pop"] |}.

Definition playlist : Playlist :=
  {| pl_id := Some "p"; pl_name := Some "Mix";
     pl_owner := Some {| o_display_name := None; o_id := Some "u1" |};
     pl_images := Some [] |}.

(** The artist records under their identifiers. *)
Definition artistsMap : Js.obj Artist := [("A", ann); ("B", bob)]%string.

(** The feature records under their identifiers. *)
Definition audioFeatures : Js.obj AudioFeatures :=
  [("t1", features "t1" half); ("t3", features_no_tempo "t3" quarter)]%string.

(** A provider that answers every request; the second track has no
    feature record, the third record has no [tempo]. *)
Definition upstream : Upstream :=
  {| date_now := fun _ => 1000;
     post_token := fun _ => Ok {| td_access_token := "fresh"; td_expires_in := None |};
     get_playlist := fun _ _ => Ok playlist;
     get_tracks := fun url _ => if String.eqb url "page2" then Ok page2 else Ok page1;
     get_audio_features := fun _ _ =>
       Ok {| b_audio_features :=
               Some [Some (features "t1" half); None; Some (features_no_tempo "t3" quarter)] |};
     get_artists := fun _ _ => Ok {| b_artists := Some [Some ann; Some bob] |} |}.

(** The same provider, serving the first three tracks on one page. *)
Definition three_tracks : Page :=
  {| p_items := [ {| i_track := nth_error tracks 0 |}; {| i_track := nth_error tracks 1 |};
                  {| i_track := nth_error tracks 2 |} ];
     p_next := None |}.

Definition three_tracks_upstream : Upstream :=
  {| date_now := date_now upstream;
     post_token := post_token upstream;
     get_playlist := get_playlist upstream;
     get_tracks := fun _ _ => Ok three_tracks;
     get_audio_features := get_audio_features upstream;
     get_artists := get_artists upstream |}.

(** An authenticated session whose token has not expired. *)
Definition world : World :=
  {| session := Some {| access_token := Some "tok"; refresh_token := Some "r";
                        expires_in := Some 100000 |};
     ticks := 0; log := [] |}.

(** The same provider, out of service for the track pages. *)
Definition failing_upstream : Upstream :=
  {| date_now := date_now upstream;
     post_token := post_token upstream;
     get_playlist := get_playlist upstream;
     get_tracks := fun _ _ => Fail 503 (Some "service unavailable");
     get_audio_features := get_audio_features upstream;
     get_artists := get_artists upstream |}.

(** Two tracks whose artists, named [Beck] and [311], are credited once
    each. *)
Definition tied_tracks : list Track :=
  [ track (Some "t1") 1000 1 [credit "A" "Beck"];
    track (Some "t2") 1000 1 [credit "B" "311"] ].

(** A track without [artists]. *)
Definition bare_track : Track :=
  {| t_id := Some "t9"; t_name := Some "song"; t_duration_ms := Some 1000;
     t_popularity := Some 1; t_artists := None |}.

(** A provider whose only page holds that track. *)
Definition bare_upstream : Upstream :=
  {| date_now := date_now upstream;
     post_token := post_token upstream;
     get_playlist := get_playlist upstream;
     get_tracks := fun _ _ =>
       Ok {| p_items := [ {| i_track := Some bare_track |} ]; p_next := None |};
     get_audio_features := get_audio_features upstream;
     get_artists := get_artists upstream |}.

End Sample.

(** ** The claims that the code does not meet, as they are stated *)

Module Stated.

(** The number of track entries that credit the artist of a record. *)
Definition credits (tracks : list Track) (a : Artist) : nat :=
  length (filter (fun r : option ArtistRef => r ≫= ar_id = a_id a)
                 (flat_map (fun t => default [] (t_artists t)) tracks)).

(** The count of a genre if every label counted once per credit. *)
Definition per_credit_count (tracks : list Track) (artistsMap : Js.obj Artist)
    (g : string) : Z :=
  Z.of_nat (sum_list_with
              (fun a => credits tracks a * occurrences g (default [] (a_genres a)))
              (Js.values artistsMap)).

(** Genre counting per track-artist occurrence. *)
Definition genres_counted_per_credit (tracks : list Track) (artistsMap : Js.obj Artist)
    (top : list GenreRank) : Prop :=
  forall e, e ∈ top -> genre_count e = per_credit_count tracks artistsMap (genre e).

(** A failed request is reported under the tag [upstream_fetch_failed]. *)
Definition failure_tagged_upstream_fetch_failed (fuel : nat) (up : Upstream)
    (playlistId : string) (w : World) : Prop :=
  forall rq, rq ∈ log (snd (analyze_route fuel up playlistId w)) ->
    request_failure up rq <> None ->
    exists reply, fst (analyze_route fuel up playlistId w) = Some reply
                  /\ error_tag reply = Some "upstream_fetch_failed".

(** Tied artists are ranked in first-seen order. *)
Definition artists_tied_in_first_seen_order (tracks : list Track)
    (top : list ArtistRank) : Prop :=
  ranking_of count (map artist_rank (first_seen (credited_names tracks))) top.

End Stated.

(** ** Vocabulary of the request log *)

(** Requests that the provider answers with success. *)
Definition clean (up : Upstream) (rqs : list Request) : Prop :=
  Forall (fun rq => request_failure up rq = None) rqs.

(** The requests [rqs] end with a request that fails, and [e] is the error
    thrown for it. *)
Definition failed_request (up : Upstream) (rqs : list Request) (e : JsError) : Prop :=
  exists rqs0 rq st b,
    rqs = rqs0 ++ [rq] /\ clean up rqs0
    /\ request_failure up rq = Some (st, b) /\ e = axios_error st b.

(** A run from [w] only appends to the log; the requests it issues succeed
    up to the last one, and when the last one fails the run throws the
    error of this request; it throws nothing else than the errors [L]. *)
Definition run_ok (up : Upstream) (L : JsError -> Prop) {A} (w : World)
    (res : Outcome A * World) : Prop :=
  exists rqs,
    log (snd res) = log w ++ rqs
    /\ match fst res with
       | Thrown e => (clean up rqs /\ L e) \/ failed_request up rqs e
       | _ => clean up rqs
       end.

Definition disciplined (up : Upstream) (L : JsError -> Prop) {A} (c : M A) : Prop :=
  forall w, run_ok up L w (c w).

(** The errors of the program itself. *)
Definition is_TypeError (e : JsError) : Prop := exists property, e = TypeError property.

Definition is_local_error (e : JsError) : Prop :=
  e = Error "not_authenticated" \/ is_TypeError e.

(** The contiguous chunks of at most [size] elements of a list. *)
Fixpoint chunks_of {A} (fuel size : nat) (l : list A) : list (list A) :=
  match fuel with
  | O => []
  | S fuel' =>
      match l with
      | [] => []
      | _ => take size l :: chunks_of fuel' size (drop size l)
      end
  end.

Definition chunks {A} (size : nat) (l : list A) : list (list A) :=
  chunks_of (length l) size l.

(** The common shape of the two batch loops
    [for (let i = 0; i < ids.length; i += size)]. *)
Fixpoint batch_loop {S} (size fuel : nat) (step : list (option string) -> S -> M S)
    (ids : list (option string)) (i : nat) (acc : S) : M S :=
  if (i <? length ids)%nat then
    match fuel with
    | O => out_of_fuel
    | S fuel' =>
        let chunk := Js.slice i (i + size) ids in
        if String.eqb (Js.join "," chunk) "" then batch_loop size fuel' step ids (i + size) acc
        else
          let! acc' := step chunk acc in
          batch_loop size fuel' step ids (i + size) acc'
    end
  else ret acc.

(** The bodies of the two loops. *)
Definition audio_features_step (up : Upstream) (auth : string)
    (chunk : list (option string)) (audioFeatures : Js.obj AudioFeatures)
    : M (Js.obj AudioFeatures) :=
  let! fResp := axios (GetAudioFeatures chunk auth)
                      (get_audio_features up (audio_features_url (Js.join "," chunk)) auth) in
  ret (fold_left store_features (default [] (b_audio_features fResp)) audioFeatures).

Definition artists_step (up : Upstream) (auth : string)
    (chunk : list (option string)) (artistsMap : Js.obj Artist) : M (Js.obj Artist) :=
  let! aResp := axios (GetArtists chunk auth)
                      (get_artists up (artists_url (Js.join "," chunk)) auth) in
  lift (store_artists (default [] (b_artists aResp)) artistsMap).

(** The requests of a walk through the pages. *)
Fixpoint page_requests (auth : string) (next : option string) (pages : list Page)
    : list Request :=
  match pages with
  | [] => []
  | page :: pages' =>
      GetTracks (Js.interpolate next) auth :: page_requests auth (p_next page) pages'
  end.

(** The artist entries of a track list, and their identifiers. *)
Definition artist_credits (tracks : list Track) : list (option ArtistRef) :=
  flat_map (fun t => default [] (t_artists t)) tracks.

Definition credit_ids (tracks : list Track) : list (option string) :=
  map (fun a => a ≫= ar_id) (artist_credits tracks).

(** A provider that answers the batch requests, and resolves every
    artist it lists. *)
Record Cooperative (up : Upstream) (auth : string) : Prop := {
  audio_features_served : forall url, exists b, get_audio_features up url auth = Ok b;
  artists_served :
    forall url, exists b, get_artists up url auth = Ok b
                          /\ Forall is_Some (default [] (b_artists b))
}.

(** ** The other routes of [server.js]

    The requests of these routes to their own endpoints are answered by
    [Endpoints] and are not recorded in the log, which stays the log of
    the token refresh and of the analysis.  The payloads the routes pass
    through are kept as JSON text. *)

(** The answer to the exchange of an authorization code. *)
Record Grant := {
  g_access_token : option string;
  g_refresh_token : option string;
  g_expires_in : option Z
}.

Record Endpoints := {
  post_code : string -> HttpResp Grant;
  get_me : string -> HttpResp string;
  get_my_playlists : string -> HttpResp string
}.

Inductive Payload :=
| Data (json : string)
| Failure (error : string).

(** [res.json(...)], with the status set before it, and [res.redirect(...)]. *)
Inductive Answer :=
| Json (status : Z) (payload : Payload)
| Redirect (location : string).

(** A request of these routes: its answer is returned or thrown. *)
Definition call {A} (resp : HttpResp A) : M A :=
  fun w =>
    match resp with
    | Ok data => (Returned data, w)
    | Fail status body => (Thrown (axios_error status body), w)
    end.

(** [try { ... } catch (err) { ... }]: what the block did before it threw
    stays done. *)
Definition catch {A} (c : M A) (handler : JsError -> M A) : M A :=
  fun w =>
    match c w with
    | (Thrown err, w') => handler err w'
    | res => res
    end.

(** [GET /api/me] *)
Definition me_route (up : Upstream) (ep : Endpoints) : M Answer :=
  catch
    (let! token := ensureAccessToken up in
     let! u := call (get_me ep (bearer token)) in
     ret (Json 200 (Data u)))
    (fun _ => ret (Json 401 (Failure "not_authenticated"))).

(** [GET /api/playlists] *)
Definition playlists_route (up : Upstream) (ep : Endpoints) : M Answer :=
  catch
    (let! token := ensureAccessToken up in
     let! resp := call (get_my_playlists ep (bearer token)) in
     ret (Json 200 (Data resp)))
    (fun _ => ret (Json 500 (Failure "fetch_failed"))).

(** [GET /callback]; [code] is [req.query.code].  The session middleware
    hands the route a session object in every case, which the three
    assignments fill; without [expires_in] in the answer the stored expiry
    is [NaN], which is falsy as [null] is. *)
Definition callback_route (up : Upstream) (ep : Endpoints) (code : option string) : M Answer :=
  if negb (Js.truthy code) then ret (Redirect "/?error=no_code")
  else
    catch
      (let! tokenResp := call (post_code ep (Js.interpolate code)) in
       let! now := Date_now up in
       let! saved := set_session
                       {| access_token := g_access_token tokenResp;
                          refresh_token := g_refresh_token tokenResp;
                          expires_in :=
                            option_map (fun e => (now + e * 1000)%Z)
                                       (g_expires_in tokenResp) |} in
       ret (Redirect "/"))
      (fun _ => ret (Redirect "/?error=token_failed")).

(** [GET /logout]: [req.session = null]. *)
Definition logout_route : M Answer :=
  fun w => (Returned (Redirect "/"),
            {| session := None; ticks := ticks w; log := log w |}).

(** ** [escapeHtml] of [app.js] *)

(** [s.replaceAll(c, r)] for a pattern of one character and a replacement
    without [$]. *)
Fixpoint replaceAll (c : ascii) (r : string) (s : string) : string :=
  match s with
  | EmptyString => EmptyString
  | String x s' =>
      if Ascii.eqb x c then (r ++ replaceAll c r s')%string
      else String x (replaceAll c r s')
  end.

Definition escapeHtml (s : option string) : string :=
  if negb (Js.truthy s) then ""%string
  else replaceAll ">" "&gt;" (replaceAll "<" "&lt;" (replaceAll "&" "&amp;" (Js.interpolate s))).

(** ** More vocabulary *)

(** The stage a request belongs to. *)
Definition stage_of (rq : Request) : nat :=
  match rq with
  | PostToken _ => 0
  | GetPlaylist _ _ => 1
  | GetTracks _ _ => 2
  | GetAudioFeatures _ _ => 3
  | GetArtists _ _ => 4
  end.

(** The [Authorization] header of the requests to the API. *)
Definition authorization_of (rq : Request) : option string :=
  match rq with
  | PostToken _ => None
  | GetPlaylist _ auth | GetTracks _ auth | GetAudioFeatures _ auth | GetArtists _ auth =>
      Some auth
  end.

(** The requests a computation issues from a world. *)
Definition issued {A} (c : M A) (w : World) : list Request :=
  drop (length (log w)) (log (snd (c w))).

(** The session holds a token that the clock of the next read does not
    put within five seconds of its expiry. *)
Definition token_fresh (up : Upstream) (w : World) (token : string) : Prop :=
  exists sess,
    session w = Some sess
    /\ access_token sess = Some token /\ token <> ""%string
    /\ (date_now up (ticks w) < Js.num_or (expires_in sess) 0 - 5000)%Z.

(** The session holds a token that has to be refreshed. *)
Definition token_stale (up : Upstream) (w : World) (sess : Session) : Prop :=
  session w = Some sess
  /\ Js.truthy (access_token sess) = true
  /\ (Js.num_or (expires_in sess) 0 - 5000 <= date_now up (ticks w))%Z.

(** There is no session, or no token in it. *)
Definition no_token (w : World) : Prop :=
  match session w with
  | Some sess => Js.truthy (access_token sess) = false
  | None => True
  end.

(** The character occurs in the string. *)
Fixpoint occurs (c : ascii) (s : string) : Prop :=
  match s with
  | EmptyString => False
  | String x s' => x = c \/ occurs c s'
  end.

(** Reading escaped text back: the three entities stand for their
    characters. *)
Fixpoint unescapeHtml (s : string) : string :=
  match s with
  | String "&" (String "a" (String "m" (String "p" (String ";" s')))) =>
      String "&" (unescapeHtml s')
  | String "&" (String "l" (String "t" (String ";" s'))) => String "<" (unescapeHtml s')
  | String "&" (String "g" (String "t" (String ";" s'))) => String ">" (unescapeHtml s')
  | String x s' => String x (unescapeHtml s')
  | EmptyString => EmptyString
  end.

(** What the three replacements make of one character. *)
Definition escape_char (x : ascii) : string :=
  if Ascii.eqb x "&" then "&amp;"
  else if Ascii.eqb x "<" then "&lt;"
  else if Ascii.eqb x ">" then "&gt;"
  else String x EmptyString.

(** The number of characters of a string that are rewritten. *)
Fixpoint markup_count (s : string) : nat :=
  match s with
  | EmptyString => 0
  | String x s' =>
      (if Ascii.eqb x "&" || Ascii.eqb x "<" || Ascii.eqb x ">" then 1 else 0)
      + markup_count s'
  end.

(** The replies of the analysis, by kind: the result, sent when every
    request was answered with success; [not_authenticated], sent before
    any request; [analysis_failed] with a detail. *)
Inductive ReplyKind (up : Upstream) (issued : list Request) : Reply -> Prop :=
| reply_result result :
    clean up issued ->
    ReplyKind up issued {| status := 200; body := ResultBody result |}
| reply_not_authenticated :
    issued = [] ->
    ReplyKind up issued {| status := 401; body := ErrorBody "not_authenticated" None |}
| reply_failed detail :
    ReplyKind up issued
      {| status := 500; body := ErrorBody "analysis_failed" (Some detail) |}.

(** A computation that leaves the session and the clock as they are. *)
Definition frames {A} (c : M A) : Prop :=
  forall w, session (snd (c w)) = session w /\ ticks (snd (c w)) = ticks w.

(** A computation that only appends requests of the stages [lo] to [hi]
    that satisfy [Q], in the order of the stages. *)
Definition staged (lo hi : nat) (Q : Request -> Prop) {A} (c : M A) : Prop :=
  forall w, exists rqs,
    log (snd (c w)) = log w ++ rqs
    /\ Forall (fun rq => lo <= stage_of rq <= hi /\ Q rq) rqs
    /\ StronglySorted le (map stage_of rqs).

(** The run of [c] from [w] returns a value. *)
Definition returns {A} (c : M A) (w : World) : Prop := exists a, fst (c w) = Returned a.

(** The identifiers a request asks feature records or artist records
    for. *)
Definition features_asked (rq : Request) : list (option string) :=
  match rq with
  | GetAudioFeatures chunk _ => chunk
  | _ => []
  end.

Definition artists_asked (rq : Request) : list (option string) :=
  match rq with
  | GetArtists chunk _ => chunk
  | _ => []
  end.

(** The requests of a run that returns: the playlist, the pages, the
    audio-feature batches of the track identifiers, the artist batches of
    the distinct artist identifiers. *)
Definition full_trace (playlistId token : string) (pages : list Page) : list Request :=
  GetPlaylist (playlist_url playlistId) (bearer token)
  :: page_requests (bearer token) (Some (first_page_url playlistId)) pages
  ++ map (fun c => GetAudioFeatures c (bearer token)) (chunks 100 (trackIds (retrieved pages)))
  ++ map (fun c => GetArtists c (bearer token))
         (chunks 50 (uniqueArtistIds (credit_ids (retrieved pages)))).

(** A track list in which no [artists] array holds a [null] entry. *)
Definition no_null_credit (tracks : list Track) : Prop :=
  Forall (fun t => Forall is_Some (default [] (t_artists t))) tracks.

(** *** Keys of a plain object

    The names of the properties every plain object inherits from
    [Object.prototype].  The counting idiom [increment] treats a key as
    absent until it is counted; for these names the object answers with
    the inherited property instead, so that the properties of the
    counters are stated for the other keys. *)
Definition inherited_names : list string :=
  [ "constructor"; "__defineGetter__"; "__defineSetter__"; "hasOwnProperty";
    "__lookupGetter__"; "__lookupSetter__"; "isPrototypeOf"; "propertyIsEnumerable";
    "toString"; "valueOf"; "__proto__"; "toLocaleString" ]%string.

Definition is_inherited (k : string) : bool := existsb (String.eqb k) inherited_names.

(** No key of the list is an inherited name. *)
Definition own_keys (keys : list string) : Prop :=
  Forall (fun k => is_inherited k = false) keys.

(** *** The track behind an entry of the ranking *)

(** [t.popularity || 0] *)
Definition popularity_of (t : Track) : Z := default 0%Z (t_popularity t).

(** The entry [e] shows the track [t]: its identifier, its name, its
    popularity, and the names of its artists joined by a comma and a
    space. *)
Definition shows_track (e : TrackEntry) (t : Track) : Prop :=
  te_id e = t_id t
  /\ te_name e = t_name t
  /\ te_popularity e = popularity_of t
  /\ te_artists e
     = Js.join ", " (map (fun a : option ArtistRef => a ≫= ar_name) (default [] (t_artists t))).

(** *** Rounding to three decimals

    A finite number with mantissa [m] and exponent [e] has the magnitude
    [m * 2^e], the fraction [num / den] below. *)
Definition magnitude (m : positive) (e : Z) : Z * Z :=
  (Z.pos m * 2 ^ Z.max e 0, 2 ^ Z.max (- e) 0)%Z.

(** [n] is the integer nearest to [1000 * num / den], the larger one when
    two are as near: [-1/2 <= 1000 * num / den - n < 1/2]. *)
Definition nearest_thousandth (num den n : Z) : Prop :=
  (- den <= 2000 * num - 2 * n * den < den)%Z.

(** [r] is [x] rounded to three decimals: the number nearest to
    [n / 1000], with the sign of [x], for the integer [n] nearest to a
    thousand times the magnitude of [x].  From 2^53 thousandths on, where
    the numbers are more than a thousandth apart, and for [NaN] and the
    infinities, [r] is [x]; the two zeros give zero. *)
Definition rounded_to_3_decimals (x r : float) : Prop :=
  match Prim2SF x with
  | S754_zero _ => r = PrimFloat.zero
  | S754_finite s m e =>
      exists n,
        nearest_thousandth (fst (magnitude m e)) (snd (magnitude m e)) n
        /\ ((n < 2 ^ 53)%Z ->
            r = let q := PrimFloat.div (Js.float_of_Z n) (Js.float_of_Z 1000) in
                if s then PrimFloat.opp q else q)
        /\ ((2 ^ 53 <= n)%Z -> r = x)
  | _ => r = x
  end.

(** [top] keeps the highest of [src]: ten entries, or all of them when
    there are fewer, and no entry left out has a key above the key of an
    entry kept. *)
Definition keeps_highest {A} (key : A -> Z) (src top : list A) : Prop :=
  length top = min 10 (length src)
  /\ exists rest,
       top ++ rest ≡ₚ src
       /\ Forall (fun a => Forall (fun e => (key a <= key e)%Z) top) rest.

(** The records of a response that are stored under the key [k]: those
    that are there and carry [k] as a truthy identifier. *)
Definition stored_under (k : string) (records : list (option AudioFeatures))
    : list AudioFeatures :=
  filter (fun af => Js.truthy (af_id af) = true /\ af_id af = Some k) (omap id records).

(** ** More sample data *)

Module Fixture.

Local Open Scope Z_scope.

(** A session whose token expired long ago. *)
Definition stale_world : World :=
  {| session := Some {| access_token := Some "old"; refresh_token := Some "r";
                        expires_in := Some 500 |};
     ticks := 0; log := [] |}.

(** A world without a session. *)
Definition anonymous_world : World := {| session := None; ticks := 0; log := [] |}.

(** The provider of the sample, refusing to refresh tokens. *)
Definition no_refresh_upstream : Upstream :=
  {| date_now := date_now Sample.upstream;
     post_token := fun _ => Fail 400 (Some "invalid_grant");
     get_playlist := get_playlist Sample.upstream;
     get_tracks := get_tracks Sample.upstream;
     get_audio_features := get_audio_features Sample.upstream;
     get_artists := get_artists Sample.upstream |}.

(** Endpoints that answer every request. *)
Definition endpoints : Endpoints :=
  {| post_code := fun _ =>
       Ok {| g_access_token := Some "tok"; g_refresh_token := Some "r";
             g_expires_in := Some 3600 |};
     get_me := fun _ => Ok "{ user }"%string;
     get_my_playlists := fun _ => Ok "{ playlists }"%string |}.

(** Endpoints that are out of service. *)
Definition failing_endpoints : Endpoints :=
  {| post_code := fun _ => Fail 400 None;
     get_me := fun _ => Fail 503 None;
     get_my_playlists := fun _ => Fail 503 None |}.

(** A provider whose pages all point to a next page. *)
Definition cyclic_upstream : Upstream :=
  {| date_now := date_now Sample.upstream;
     post_token := post_token Sample.upstream;
     get_playlist := get_playlist Sample.upstream;
     get_tracks := fun _ _ => Ok Sample.page1;
     get_audio_features := get_audio_features Sample.upstream;
     get_artists := get_artists Sample.upstream |}.

(** A page whose second track credits a [null] artist. *)
Definition null_credit_page : Page :=
  {| p_items :=
       [ {| i_track := Some (Sample.track (Some "t1") 1000 1 [Sample.credit "A" "Ann"]) |};
         {| i_track := Some (Sample.track (Some "t2") 1000 1 [None]) |} ];
     p_next := None |}.

Definition null_credit_upstream : Upstream :=
  {| date_now := date_now Sample.upstream;
     post_token := post_token Sample.upstream;
     get_playlist := get_playlist Sample.upstream;
     get_tracks := fun _ _ => Ok null_credit_page;
     get_audio_features := get_audio_features Sample.upstream;
     get_artists := get_artists Sample.upstream |}.

(** A provider that lists a [null] among the artists it resolves. *)
Definition null_artist_upstream : Upstream :=
  {| date_now := date_now Sample.upstream;
     post_token := post_token Sample.upstream;
     get_playlist := get_playlist Sample.upstream;
     get_tracks := get_tracks Sample.upstream;
     get_audio_features := get_audio_features Sample.upstream;
     get_artists := fun _ _ => Ok {| b_artists := Some [Some Sample.ann; None] |} |}.

(** Feature records for the first three sample tracks whose fields add
    up to one. *)
Definition thirds : Js.obj AudioFeatures :=
  [("t1", Sample.features "t1" Sample.half); ("t2", Sample.features "t2" Sample.quarter);
   ("t3", Sample.features "t3" Sample.quarter)]%string.

(** One third, and the number written 0.333. *)
Definition one_third : float :=
  Eval vm_compute in PrimFloat.div (Js.float_of_Z 1) (Js.float_of_Z 3).
Definition point_333 : float :=
  Eval vm_compute in PrimFloat.div (Js.float_of_Z 333) (Js.float_of_Z 1000).

End Fixture.

(** * Properties of the runtime fragment *)

(** ** Sorting with a comparator that compares keys *)

Section Sorting.
Context {A : Type} (key : A -> Z) (cmp : A -> A -> Z).
Hypothesis cmp_key : forall a b, cmp a b = (key b - key a)%Z.

Lemma insert_sorted_perm x l : Js.insert_sorted cmp x l ≡ₚ x :: l.
Proof.
  induction l as [|y l IH]; simpl; [done|].
  destruct (cmp x y <=? 0)%Z; [done|].
  rewrite IH. apply Permutation_swap.
Qed.

Lemma sort_perm l : Js.sort cmp l ≡ₚ l.
Proof.
  induction l as [|x l IH]; simpl; [done|].
  by rewrite insert_sorted_perm, IH.
Qed.

Lemma sort_length l : length (Js.sort cmp l) = length l.
Proof. by rewrite sort_perm. Qed.

Lemma insert_sorted_desc x l :
  non_increasing key l -> non_increasing key (Js.insert_sorted cmp x l).
Proof.
  unfold non_increasing.
  induction 1 as [|y l Hl IH Hy]; simpl.
  - repeat constructor.
  - destruct (Z.leb_spec (cmp x y) 0) as [Hle|Hgt]; rewrite cmp_key in *.
    + constructor; [by constructor|].
      constructor; [lia|].
      eapply Forall_impl; [exact Hy|]. simpl; intros; lia.
    + constructor; [exact IH|].
      rewrite insert_sorted_perm. constructor; [lia|exact Hy].
Qed.

Lemma sort_desc l : non_increasing key (Js.sort cmp l).
Proof.
  induction l as [|x l IH]; simpl; [constructor|].
  by apply insert_sorted_desc.
Qed.

(** Stability: the entries of one key keep their order. *)
Lemma insert_sorted_filter c x l :
  filter (fun a => key a = c) (Js.insert_sorted cmp x l)
  = filter (fun a => key a = c) (x :: l).
Proof.
  induction l as [|y l IH]; simpl; [done|].
  destruct (Z.leb_spec (cmp x y) 0) as [Hle|Hgt]; [done|].
  rewrite cmp_key in Hgt.
  rewrite (filter_cons _ y), IH, !filter_cons.
  repeat case_decide; try done; lia.
Qed.

Lemma sort_filter c l :
  filter (fun a => key a = c) (Js.sort cmp l) = filter (fun a => key a = c) l.
Proof.
  induction l as [|x l IH]; simpl; [done|].
  rewrite insert_sorted_filter, !filter_cons, IH. done.
Qed.

(** A sorted list is left as it is. *)
Lemma sort_sorted l : non_increasing key l -> Js.sort cmp l = l.
Proof.
  unfold non_increasing.
  induction 1 as [|x l Hl IH Hx]; simpl; [done|].
  rewrite IH. destruct l as [|y l]; simpl; [done|].
  inversion Hx as [|? ? Hxy _]; subst. simpl in Hxy.
  destruct (Z.leb_spec (cmp x y) 0) as [Hle|Hgt]; [done|].
  rewrite cmp_key in Hgt. lia.
Qed.
End Sorting.

(** ** Keeping the first ten of a ranking *)

Lemma slice_0 {A} n (l : list A) : Js.slice 0 n l = take n l.
Proof. unfold Js.slice. by rewrite Nat.sub_0_r. Qed.

Lemma filter_take_prefix {A} (P : A -> Prop) `{!forall a, Decision (P a)} n (l : list A) :
  filter P (take n l) `prefix_of` filter P l.
Proof.
  exists (filter P (drop n l)). by rewrite <- filter_app, take_drop.
Qed.

Lemma StronglySorted_take {A} (R : A -> A -> Prop) n (l : list A) :
  StronglySorted R l -> StronglySorted R (take n l).
Proof.
  intros H. revert n. induction H as [|x l Hl IH Hx]; intros [|n]; simpl; try constructor.
  - apply IH.
  - apply Forall_take. exact Hx.
Qed.

(** ** Objects as ordered dictionaries *)

Lemma num_or_0 v : Js.num_or v 0 = default 0%Z v.
Proof. destruct v as [n|]; simpl; [|done]. by destruct (Z.eqb_spec n 0). Qed.

Section Objects.
Context {V : Type}.
Implicit Types (o : Js.obj V) (k : string) (v : V).

Lemma obj_get_set_eq k v o : Js.obj_get k (Js.obj_set k v o) = Some v.
Proof.
  induction o as [|[k' v'] o IH]; simpl.
  - by rewrite String.eqb_refl.
  - destruct (String.eqb_spec k k'); simpl.
    + by rewrite String.eqb_refl.
    + by destruct (String.eqb_spec k k').
Qed.

Lemma obj_get_set_ne k k' v o : k <> k' -> Js.obj_get k' (Js.obj_set k v o) = Js.obj_get k' o.
Proof.
  intros Hne. induction o as [|[k0 v0] o IH]; simpl.
  - by destruct (String.eqb_spec k' k).
  - destruct (String.eqb_spec k k0) as [->|]; simpl.
    + by destruct (String.eqb_spec k' k0).
    + by rewrite IH.
Qed.

Lemma obj_get_None k o : Js.obj_get k o = None <-> k ∉ map fst o.
Proof.
  induction o as [|[k' v'] o IH]; simpl.
  - split; [intros _; apply not_elem_of_nil|done].
  - rewrite not_elem_of_cons. destruct (String.eqb_spec k k'); split; try done.
    + intros [? _]; done.
    + intros ?. split; [done|]. by apply IH.
    + intros [_ ?]. by apply IH.
Qed.

(** Writing a property that exists keeps the keys; a new one goes last. *)
Lemma obj_set_keys k v o :
  map fst (Js.obj_set k v o) = if decide (k ∈ map fst o) then map fst o else map fst o ++ [k].
Proof.
  induction o as [|[k' v'] o IH].
  - case_decide as Hin; [by apply elem_of_nil in Hin|done].
  - cbn [Js.obj_set map fst]. destruct (String.eqb_spec k k') as [->|Hne]; cbn [map fst].
    + by rewrite decide_True by apply list_elem_of_here.
    + rewrite IH. destruct (decide (k ∈ map fst o)) as [Hin|Hin].
      * by rewrite decide_True by (by apply list_elem_of_further).
      * rewrite decide_False; [done|]. rewrite elem_of_cons. intros [?|?]; done.
Qed.
End Objects.

(** ** Counting *)

Lemma set_of_ext {A} `{EqDecision A} (s1 s2 l : list A) :
  (forall x, x ∈ s1 <-> x ∈ s2) -> Js.set_of s1 l = Js.set_of s2 l.
Proof.
  revert s1 s2. induction l as [|x l IH]; intros s1 s2 Hs; simpl; [done|].
  destruct (decide (x ∈ s1)) as [H1|H1].
  - rewrite decide_True by (by apply Hs). by apply IH.
  - rewrite decide_False by (by rewrite <- Hs). f_equal. apply IH.
    intros y. rewrite !elem_of_cons. by rewrite Hs.
Qed.

Lemma increment_keys counts key :
  map fst (increment counts key)
  = if decide (key ∈ map fst counts) then map fst counts else map fst counts ++ [key].
Proof. apply obj_set_keys. Qed.

Lemma increment_get counts key k :
  default 0%Z (Js.obj_get k (increment counts key))
  = (default 0%Z (Js.obj_get k counts) + if decide (key = k) then 1 else 0)%Z.
Proof.
  unfold increment. destruct (decide (key = k)) as [->|Hne].
  - by rewrite obj_get_set_eq, num_or_0.
  - rewrite obj_get_set_ne by done. lia.
Qed.

Lemma occurrences_cons x y l :
  occurrences x (y :: l) = ((if decide (y = x) then 1 else 0) + occurrences x l)%nat.
Proof. unfold occurrences. rewrite filter_cons. by destruct (decide (y = x)). Qed.

Lemma occurrences_app x l1 l2 :
  occurrences x (l1 ++ l2) = (occurrences x l1 + occurrences x l2)%nat.
Proof. unfold occurrences. by rewrite filter_app, length_app. Qed.

(** The keys of the counters: those there were, then the new ones as
    first seen. *)
Lemma tally_keys keys counts :
  map fst (tally keys counts) = map fst counts ++ Js.set_of (map fst counts) keys.
Proof.
  unfold tally. revert counts. induction keys as [|k keys IH]; intros counts; simpl.
  - by rewrite app_nil_r.
  - rewrite IH, increment_keys. destruct (decide (k ∈ map fst counts)) as [Hin|Hin]; [done|].
    rewrite <- app_assoc. simpl. do 2 f_equal. apply set_of_ext.
    intros x. rewrite elem_of_app, !elem_of_cons, elem_of_nil. tauto.
Qed.

(** Each counter grows by the occurrences of its key. *)
Lemma tally_get keys counts k :
  default 0%Z (Js.obj_get k (tally keys counts))
  = (default 0%Z (Js.obj_get k counts) + Z.of_nat (occurrences k keys))%Z.
Proof.
  unfold tally. revert counts. induction keys as [|k' keys IH]; intros counts; simpl.
  - unfold occurrences. simpl. lia.
  - rewrite IH, increment_get, occurrences_cons. destruct (decide (k' = k)); lia.
Qed.

Lemma tally_app keys1 keys2 counts :
  tally (keys1 ++ keys2) counts = tally keys2 (tally keys1 counts).
Proof. unfold tally. apply fold_left_app. Qed.

Lemma set_of_spec {A} `{EqDecision A} (seen l : list A) :
  NoDup (Js.set_of seen l)
  /\ forall x, x ∈ Js.set_of seen l <-> x ∈ l /\ x ∉ seen.
Proof.
  revert seen. induction l as [|y l IH]; intros seen; simpl.
  - split; [constructor|]. intros x. rewrite elem_of_nil. tauto.
  - destruct (decide (y ∈ seen)) as [Hin|Hin].
    + destruct (IH seen) as [Hnd Hel]. split; [done|].
      intros x. rewrite Hel, elem_of_cons. split; [tauto|].
      intros [[->|?] ?]; tauto.
    + destruct (IH (y :: seen)) as [Hnd Hel]. split.
      * constructor; [|done]. rewrite Hel, elem_of_cons. tauto.
      * intros x. rewrite !elem_of_cons, Hel, elem_of_cons.
        destruct (decide (x = y)) as [->|]; tauto.
Qed.

Lemma tally_NoDup keys : NoDup (map fst (tally keys [])).
Proof. rewrite tally_keys. simpl. apply set_of_spec. Qed.

Section Extensionality.
Context {V : Type}.
Implicit Types (o : Js.obj V).

Lemma obj_get_head k v o : Js.obj_get k ((k, v) :: o) = Some v.
Proof. simpl. by rewrite String.eqb_refl. Qed.

Lemma obj_get_tail k k' v o : k <> k' -> Js.obj_get k ((k', v) :: o) = Js.obj_get k o.
Proof. intros. simpl. by destruct (String.eqb_spec k k'). Qed.

(** Objects with the same keys in the same order and the same values
    are the same object. *)
Lemma obj_ext o1 o2 :
  map fst o1 = map fst o2 ->
  NoDup (map fst o1) ->
  (forall k, k ∈ map fst o1 -> Js.obj_get k o1 = Js.obj_get k o2) ->
  o1 = o2.
Proof.
  revert o2. induction o1 as [|[k v] o1 IH]; intros [|[k' v'] o2] Hk Hnd Hget;
    try discriminate; [done|].
  simpl in Hk. injection Hk as <- Hk. inversion Hnd as [|? ? Hk1 Hnd1]; subst.
  f_equal.
  - specialize (Hget k (list_elem_of_here _ _)). rewrite !obj_get_head in Hget. congruence.
  - apply IH; [done..|]. intros k0 Hin.
    specialize (Hget k0 (list_elem_of_further _ _ _ Hin)).
    rewrite !obj_get_tail in Hget; [done|intros ->..]; done.
Qed.

Lemma obj_get_map (f : string -> V) k l :
  k ∈ l -> Js.obj_get k (map (fun x => (x, f x)) l) = Some (f k).
Proof.
  induction l as [|y l IH]; [by intros ?%elem_of_nil|].
  intros Hin. simpl. destruct (String.eqb_spec k y) as [->|Hne]; [done|].
  apply IH. by apply elem_of_cons in Hin as [?|?].
Qed.

Lemma obj_get_is_Some k o : k ∈ map fst o -> is_Some (Js.obj_get k o).
Proof.
  intros Hin. destruct (Js.obj_get k o) eqn:E; [by eexists|].
  by apply obj_get_None in E.
Qed.
End Extensionality.

(** The counters of a list of keys: one per key, in first-seen order,
    holding the number of its occurrences. *)
Lemma tally_first_seen keys :
  tally keys [] = map (fun k => (k, Z.of_nat (occurrences k keys))) (Js.set_of [] keys).
Proof.
  apply obj_ext.
  - rewrite tally_keys, map_map. simpl. by rewrite map_id.
  - apply tally_NoDup.
  - intros k Hin. pose proof (tally_get keys [] k) as Hget.
    destruct (obj_get_is_Some _ _ Hin) as [v Hv]. rewrite Hv in *. simpl in Hget.
    rewrite obj_get_map; [by rewrite Hget|].
    by rewrite tally_keys in Hin.
Qed.

(** ** Enumeration *)

Lemma List_filter_map {A B} (f : A -> B) (p : B -> bool) (l : list A) :
  List.filter p (map f l) = map f (List.filter (fun a => p (f a)) l).
Proof.
  induction l as [|a l IH]; simpl; [done|]. rewrite IH. by destruct (p (f a)).
Qed.

Lemma sort_map {A B} (f : A -> B) (cmpA : A -> A -> Z) (cmpB : B -> B -> Z) (l : list A) :
  (forall a b, cmpB (f a) (f b) = cmpA a b) ->
  Js.sort cmpB (map f l) = map f (Js.sort cmpA l).
Proof.
  intros Hcmp. induction l as [|a l IH]; simpl; [done|]. rewrite IH.
  generalize (Js.sort cmpA l) as s. induction s as [|b s IHs]; simpl; [done|].
  rewrite Hcmp. destruct (cmpA a b <=? 0)%Z; simpl; [done|]. by rewrite IHs.
Qed.

(** The entries of an object come in the enumeration order of its keys. *)
Lemma entries_map {V} (f : string -> V) (keys : list string) :
  Js.entries (map (fun k => (k, f k)) keys) = map (fun k => (k, f k)) (enumeration keys).
Proof.
  unfold Js.entries, enumeration. rewrite map_app, !List_filter_map. simpl. f_equal.
  by apply sort_map.
Qed.

Lemma entries_tally keys : Js.entries (tally keys []) = counted keys.
Proof. by rewrite tally_first_seen, entries_map. Qed.

(** Without array indices among the keys the enumeration is the order of
    creation. *)
Lemma enumeration_no_index keys :
  Forall (fun k => Js.is_index k = false) keys -> enumeration keys = keys.
Proof.
  intros H. unfold enumeration.
  assert (List.filter Js.is_index keys = [] /\
          List.filter (fun k => negb (Js.is_index k)) keys = keys) as [-> ->]; [|done].
  induction H as [|k keys Hk _ [IH1 IH2]]; simpl; [done|]. rewrite Hk. simpl.
  split; [done|]. by rewrite IH2.
Qed.

(** * Properties of the aggregation pass *)

Lemma and_then_Returned {A B} (o : Outcome A) (k : A -> Outcome B) b :
  and_then o k = Returned b <-> exists a, o = Returned a /\ k a = Returned b.
Proof.
  destruct o; simpl; split; try done.
  - eauto.
  - by intros (? & [= ->] & ?).
  - intros (? & ? & _); done.
  - intros (? & ? & _); done.
Qed.

Lemma count_artist_tally artists counts :
  fold_left count_artist artists counts = tally (omap artist_key artists) counts.
Proof.
  unfold tally. revert counts. induction artists as [|[a|] artists IH]; intros counts; simpl.
  - done.
  - rewrite IH. by destruct (Js.truthy (ar_id a)).
  - apply IH.
Qed.

(** The names of a track can be joined exactly when its [artists] array
    is there and has no [null] entry. *)
Lemma artist_names_Returned artists :
  Forall is_Some artists -> artist_names artists = Returned (map (fun a => a ≫= ar_name) artists).
Proof.
  induction 1 as [|a artists [a' ->] _ IH]; simpl; [done|]. by rewrite IH.
Qed.

Lemma artist_names_Thrown artists :
  ~ Forall is_Some artists -> artist_names artists = Thrown (TypeError "name").
Proof.
  induction artists as [|[a|] artists IH]; intros Hn; simpl.
  - destruct Hn. constructor.
  - rewrite IH; [done|]. intros H. apply Hn. constructor; [by eexists|done].
  - done.
Qed.

Lemma joined_artist_names_cases t :
  (exists artists, t_artists t = Some artists /\ Forall is_Some artists
     /\ joined_artist_names t = Returned (Js.join ", " (map (fun a => a ≫= ar_name) artists)))
  \/ (t_artists t = None /\ joined_artist_names t = Thrown (TypeError "map"))
  \/ (exists artists, t_artists t = Some artists /\ ~ Forall is_Some artists
     /\ joined_artist_names t = Thrown (TypeError "name")).
Proof.
  unfold joined_artist_names. destruct (t_artists t) as [artists|]; [|by right; left].
  destruct (decide (Forall is_Some artists)) as [H|H].
  - left. exists artists. by rewrite artist_names_Returned.
  - right; right. exists artists. by rewrite artist_names_Thrown.
Qed.

(** What one track adds to the statistics. *)
Lemma visit_track_Returned audioFeatures st t st' :
  visit_track audioFeatures st t = Returned st' ->
  (exists names, joined_artist_names t = Returned names)
  /\ totalDurationMs st' = (totalDurationMs st + Js.num_or (t_duration_ms t) 0)%Z
  /\ artistCount st' = tally (credited_names [t]) (artistCount st)
  /\ trackPopularity st' = trackPopularity st ++ [entry_of t]
  /\ featuresCount st'
     = (featuresCount st + Z.of_nat (length (feature_records audioFeatures [t])))%Z
  /\ forall k, featuresAccumulator st' k
       = fold_left PrimFloat.add (present_values k (feature_records audioFeatures [t]))
                   (featuresAccumulator st k).
Proof.
  unfold visit_track. intros (names & Hn & H)%and_then_Returned.
  split; [by eexists|].
  unfold credited_names, feature_records, present_values, entry_of. simpl.
  rewrite Hn, app_nil_r, count_artist_tally in *.
  destruct (Js.obj_get _ audioFeatures) as [af|]; injection H as <-; simpl;
    repeat split; try lia.
  intros k. unfold add_features. by destruct (af_value af k).
Qed.

Lemma feature_records_cons audioFeatures t tracks :
  feature_records audioFeatures (t :: tracks)
  = feature_records audioFeatures [t] ++ feature_records audioFeatures tracks.
Proof. unfold feature_records. simpl. by destruct (Js.obj_get _ _). Qed.

Lemma present_values_app k r1 r2 :
  present_values k (r1 ++ r2) = present_values k r1 ++ present_values k r2.
Proof. apply omap_app. Qed.

(** What the whole pass computes, when it runs to its end. *)
Lemma visit_tracks_Returned audioFeatures tracks st st' :
  visit_tracks audioFeatures tracks st = Returned st' ->
  Forall (fun t => exists names, joined_artist_names t = Returned names) tracks
  /\ totalDurationMs st'
     = (totalDurationMs st + foldr Z.add 0 (map (fun t => Js.num_or (t_duration_ms t) 0) tracks))%Z
  /\ artistCount st' = tally (credited_names tracks) (artistCount st)
  /\ trackPopularity st' = trackPopularity st ++ map entry_of tracks
  /\ featuresCount st'
     = (featuresCount st + Z.of_nat (length (feature_records audioFeatures tracks)))%Z
  /\ forall k, featuresAccumulator st' k
       = fold_left PrimFloat.add (present_values k (feature_records audioFeatures tracks))
                   (featuresAccumulator st k).
Proof.
  revert st. induction tracks as [|t tracks IH]; intros st; cbn [visit_tracks].
  - intros [= <-]. simpl. rewrite app_nil_r. repeat split; [constructor|lia|lia].
  - intros (st1 & H1 & H2)%and_then_Returned.
    apply visit_track_Returned in H1 as (Hn & Hd & Ha & Hp & Hc & Hf).
    apply IH in H2 as (Hn' & Hd' & Ha' & Hp' & Hc' & Hf').
    rewrite feature_records_cons, length_app.
    repeat split.
    + by constructor.
    + simpl. lia.
    + rewrite Ha', Ha. change (credited_names (t :: tracks))
        with (omap artist_key (default [] (t_artists t)) ++ credited_names tracks).
      rewrite tally_app. unfold credited_names. simpl. by rewrite app_nil_r.
    + by rewrite Hp', Hp, <- app_assoc.
    + lia.
    + intros k. by rewrite Hf', Hf, present_values_app, fold_left_app.
Qed.

(** The pass runs to its end when the names of every track can be joined. *)
Lemma visit_tracks_total audioFeatures tracks st :
  Forall (fun t => exists names, joined_artist_names t = Returned names) tracks ->
  exists st', visit_tracks audioFeatures tracks st = Returned st'.
Proof.
  intros H. revert st. induction H as [|t tracks [names Hn] _ IH]; intros st; simpl.
  - by eexists.
  - unfold visit_track. rewrite Hn. simpl.
    destruct (Js.obj_get _ audioFeatures); simpl; apply IH.
Qed.

(** Otherwise a [TypeError] ends it. *)
Lemma visit_tracks_cases audioFeatures tracks st :
  (exists st', visit_tracks audioFeatures tracks st = Returned st')
  \/ (exists property, (property = "map" \/ property = "name")
        /\ visit_tracks audioFeatures tracks st = Thrown (TypeError property)).
Proof.
  revert st. induction tracks as [|t tracks IH]; intros st; simpl.
  - left. by eexists.
  - unfold visit_track.
    destruct (joined_artist_names_cases t)
      as [(? & _ & _ & ->)|[[_ ->]|(? & _ & _ & ->)]]; simpl.
    + destruct (Js.obj_get _ audioFeatures); apply IH.
    + right. exists "map". auto.
    + right. exists "name". auto.
Qed.

(** ** Rankings *)

Lemma ranking_top {A} (key : A -> Z) (cmp : A -> A -> Z) (l : list A) :
  (forall a b, cmp a b = (key b - key a)%Z) ->
  ranking_of key l (Js.slice 0 10 (Js.sort cmp l)).
Proof.
  intros Hcmp. rewrite slice_0. repeat split.
  - rewrite length_take. lia.
  - apply StronglySorted_take. by apply sort_desc.
  - intros c. rewrite <- (sort_filter key cmp Hcmp c l). apply filter_take_prefix.
Qed.

Lemma ranking_top_map {A B} (f : A -> B) (keyA : A -> Z) (keyB : B -> Z)
    (cmp : A -> A -> Z) (l : list A) :
  (forall a b, cmp a b = (keyA b - keyA a)%Z) ->
  (forall a, keyB (f a) = keyA a) ->
  ranking_of keyB (map f l) (map f (Js.slice 0 10 (Js.sort cmp l))).
Proof.
  intros Hcmp Hkey. rewrite slice_0, <- firstn_map, <- slice_0.
  rewrite <- (sort_map f cmp (fun a b => (keyB b - keyB a)%Z)).
  - by apply ranking_top.
  - intros a b. by rewrite !Hkey.
Qed.

Lemma genreCount_tally artistsMap : genreCount artistsMap = tally (genre_labels artistsMap) [].
Proof.
  unfold genreCount, genre_labels, tally. generalize (@nil (string * Z)).
  induction (Js.values artistsMap) as [|a l IH]; intros counts; simpl; [done|].
  by rewrite fold_left_app, IH.
Qed.

(** ** The result of the aggregation *)

Lemma well_formed_track_names t :
  well_formed_track t <-> exists names, joined_artist_names t = Returned names.
Proof.
  destruct (joined_artist_names_cases t)
    as [(a & Ha & Hf & ->)|[[Ha ->]|(a & Ha & Hf & ->)]]; split.
  - eauto.
  - intros _. by exists a.
  - intros (? & ? & _). congruence.
  - intros [? ?]; done.
  - intros (a' & Ha' & Hf'). congruence.
  - intros [? ?]; done.
Qed.

(** The aggregation returns on well-formed tracks, and its result is
    made of the closed forms of the statistics. *)
Lemma aggregate_Returned pl tracks audioFeatures artistsMap :
  Forall well_formed_track tracks ->
  exists st,
    visit_tracks audioFeatures tracks initial_stats = Returned st
    /\ artistCount st = tally (credited_names tracks) []
    /\ trackPopularity st = map entry_of tracks
    /\ featuresCount st = Z.of_nat (length (feature_records audioFeatures tracks))
    /\ (forall k, featuresAccumulator st k
          = float_sum (present_values k (feature_records audioFeatures tracks)))
    /\ aggregate pl tracks audioFeatures artistsMap
       = Returned
           {| playlist :=
                {| summary_id := pl_id pl;
                   summary_name := pl_name pl;
                   owner := owner_label pl;
                   total_tracks := Z.of_nat (length tracks);
                   duration_ms := totalDurationMs st;
                   duration_human := formatDuration (totalDurationMs st);
                   image := cover_image pl |};
              analysis :=
                {| avg_features := avgFeatures st;
                   features_count := featuresCount st;
                   top_artists := topArtists (artistCount st);
                   top_tracks := topTracks (trackPopularity st);
                   top_genres := topGenres artistsMap |} |}.
Proof.
  intros Hwf.
  destruct (visit_tracks_total audioFeatures tracks initial_stats) as [st Hst].
  { eapply Forall_impl; [exact Hwf|]. intros t. by apply well_formed_track_names. }
  exists st. split; [done|].
  destruct (visit_tracks_Returned _ _ _ _ Hst) as (_ & _ & Ha & Hp & Hc & Hf).
  repeat split; try done.
  unfold aggregate. by rewrite Hst.
Qed.

Lemma sample_well_formed : Forall well_formed_track Sample.tracks.
Proof. repeat constructor; eexists; (split; [reflexivity|]); repeat constructor; by eexists. Qed.

(** ** Average features *)

(** The mean of one field over a list of records: the values that are
    present, summed, over the number of records. *)
Lemma aggregate_avg_features pl tracks audioFeatures artistsMap :
  Forall well_formed_track tracks ->
  exists r,
    aggregate pl tracks audioFeatures artistsMap = Returned r
    /\ features_count (analysis r)
       = Z.of_nat (length (feature_records audioFeatures tracks))
    /\ avg_features (analysis r)
       = if (0 <? Z.of_nat (length (feature_records audioFeatures tracks)))%Z then
           map (fun k =>
                  (k, Js.toFixed3
                        (PrimFloat.div
                           (float_sum (present_values k (feature_records audioFeatures tracks)))
                           (Js.float_of_Z
                              (Z.of_nat (length (feature_records audioFeatures tracks)))))))
               feature_names
         else [].
Proof.
  intros Hwf.
  destruct (aggregate_Returned pl tracks audioFeatures artistsMap Hwf)
    as (st & _ & _ & _ & Hc & Hf & ->).
  eexists. split; [done|]. cbn [analysis features_count avg_features].
  unfold avgFeatures. rewrite Hc. split; [done|].
  destruct (0 <? _)%Z; [|done]. apply map_ext. intros k. by rewrite Hf.
Qed.

(** [+(x).toFixed(3)] rounds to three decimals. *)
Lemma toFixed3_rounds x : rounded_to_3_decimals x (Js.toFixed3 x).
Proof.
  unfold rounded_to_3_decimals, Js.toFixed3, magnitude.
  destruct (Prim2SF x) as [s|s| |s m e]; try done. cbn [fst snd].
  set (num := (Z.pos m * 2 ^ Z.max e 0)%Z). set (den := (2 ^ Z.max (- e) 0)%Z).
  replace (2000 * Z.pos m * 2 ^ Z.max e 0)%Z with (2000 * num)%Z by (unfold num; ring).
  assert (0 < den)%Z as Hden by (apply Z.pow_pos_nonneg; lia).
  exists ((2000 * num + den) / (2 * den))%Z. split; [|split].
  - unfold nearest_thousandth.
    pose proof (Z.div_mod (2000 * num + den) (2 * den) ltac:(lia)) as Hdm.
    pose proof (Z.mod_pos_bound (2000 * num + den) (2 * den) ltac:(lia)) as Hb.
    set (n := ((2000 * num + den) / (2 * den))%Z) in *. nia.
  - intros Hn. destruct (Z.leb_spec (2 ^ 53) ((2000 * num + den) / (2 * den))); [lia|done].
  - intros Hn. destruct (Z.leb_spec (2 ^ 53) ((2000 * num + den) / (2 * den))); [done|lia].
Qed.





(** ** Top artists, top tracks, top genres *)

Lemma counted_no_index keys :
  Forall (fun k => Js.is_index k = false) keys -> counted keys = first_seen keys.
Proof.
  intros H. unfold counted, first_seen. rewrite enumeration_no_index; [done|].
  apply Forall_forall. intros k Hk. apply (set_of_spec [] keys) in Hk as [Hk _].
  by apply (proj1 (Forall_forall _ _) H).
Qed.

(** The entry of a well-formed track shows the track. *)
Lemma entry_of_shows t : well_formed_track t -> shows_track (entry_of t) t.
Proof.
  intros (artists & Ha & Hsome). unfold shows_track, entry_of, track_entry, popularity_of.
  cbn [te_id te_name te_popularity te_artists]. rewrite num_or_0.
  repeat (split; [done|]).
  destruct (joined_artist_names_cases t)
    as [(artists' & Ha' & _ & ->)|[[Hnone _]|(artists' & Ha' & Hn & _)]].
  - by rewrite Ha'.
  - by rewrite Ha in Hnone.
  - rewrite Ha in Ha'. injection Ha' as <-. done.
Qed.

Lemma entries_show tracks :
  Forall well_formed_track tracks -> Forall2 shows_track (map entry_of tracks) tracks.
Proof.
  induction 1 as [|t tracks Ht _ IH]; simpl; constructor; [by apply entry_of_shows|done].
Qed.

(** Sorting the entries by their popularity sorts the tracks by theirs. *)
Lemma topTracks_tracks tracks :
  topTracks (map entry_of tracks)
  = map entry_of
        (Js.slice 0 10 (Js.sort (fun a b => (popularity_of b - popularity_of a)%Z) tracks)).
Proof.
  unfold topTracks. rewrite !slice_0.
  rewrite (sort_map entry_of (fun a b => (popularity_of b - popularity_of a)%Z)).
  - by rewrite fmap_take.
  - intros a b. unfold by_popularity_desc, entry_of, track_entry, popularity_of.
    cbn [te_popularity]. by rewrite !num_or_0.
Qed.

Lemma top_of_well_formed (cmp : Track -> Track -> Z) tracks :
  Forall well_formed_track tracks ->
  Forall well_formed_track (Js.slice 0 10 (Js.sort cmp tracks)).
Proof.
  intros Hwf. rewrite slice_0. apply Forall_take.
  apply Forall_forall. intros t Ht. apply (proj1 (Forall_forall _ _) Hwf).
  by rewrite <- (sort_perm cmp tracks).
Qed.

(** C7, amended. Each of [top_artists], [top_tracks] and [top_genres] has
    at most ten entries in non-increasing order of its key: the number
    of credits of the name, the popularity of the track, with zero for a
    track that has none, the number of artist records that carry the
    genre.  Tied tracks keep their playlist order.  Tied artists and
    tied genres keep the order in which the counters are enumerated: the
    names that are array indices first, in ascending numeric order, then
    the other names as first seen; this is the first-seen order when no
    name is an array index.  The counters are those of a plain object:
    this is stated for names and genres that are not names of
    properties inherited from [Object.prototype]. *)
Theorem rankings_sorted_and_stable pl tracks audioFeatures artistsMap :
  Forall well_formed_track tracks ->
  own_keys (credited_names tracks) ->
  own_keys (genre_labels artistsMap) ->
  exists r,
    aggregate pl tracks audioFeatures artistsMap = Returned r
    /\ ranking_of count (map artist_rank (counted (credited_names tracks)))
                  (top_artists (analysis r))
    /\ (exists ts,
          ranking_of popularity_of tracks ts
          /\ Forall2 shows_track (top_tracks (analysis r)) ts)
    /\ ranking_of genre_count (map genre_rank (counted (genre_labels artistsMap)))
                  (top_genres (analysis r))
    /\ (Forall (fun k => Js.is_index k = false) (credited_names tracks) ->
        counted (credited_names tracks) = first_seen (credited_names tracks))
    /\ (Forall (fun k => Js.is_index k = false) (genre_labels artistsMap) ->
        counted (genre_labels artistsMap) = first_seen (genre_labels artistsMap)).
Proof.
  intros Hwf _ _.
  destruct (aggregate_Returned pl tracks audioFeatures artistsMap Hwf)
    as (st & _ & Ha & Hp & _ & _ & ->).
  eexists. split; [done|]. cbn [analysis top_artists top_tracks top_genres].
  rewrite Ha, Hp. unfold topArtists, topGenres.
  rewrite genreCount_tally, !entries_tally, topTracks_tracks.
  split; [|split; [|split; [|split]]].
  - by apply (ranking_top_map artist_rank snd count by_count_desc).
  - eexists. split; [by apply ranking_top|]. by apply entries_show, top_of_well_formed.
  - by apply (ranking_top_map genre_rank snd genre_count by_count_desc).
  - apply counted_no_index.
  - apply counted_no_index.
Qed.

Lemma rankings_sorted_and_stable_witness :
  exists r,
    aggregate Sample.playlist Sample.tracks Sample.audioFeatures Sample.artistsMap = Returned r
    /\ ranking_of count [ {| name := "Ann"; count := 2 |}; {| name := "Bob"; count := 1 |} ]
                  (top_artists (analysis r))
    /\ (exists ts,
          ranking_of popularity_of Sample.tracks ts
          /\ Forall2 shows_track (top_tracks (analysis r)) ts)
    /\ ranking_of genre_count
                  [ {| genre := "pop"; genre_count := 2 |};
                    {| genre := "indie"; genre_count := 1 |} ]
                  (top_genres (analysis r)).
Proof.
  destruct (rankings_sorted_and_stable Sample.playlist Sample.tracks
              Sample.audioFeatures Sample.artistsMap)
    as (r & Hr & Ha & Ht & Hg & _).
  - exact sample_well_formed.
  - repeat constructor.
  - repeat constructor.
  - exists r. split; [exact Hr|]. split; [exact Ha|]. split; [exact Ht|exact Hg].
Defined.

(** C7 as stated fails: with the artists [Beck] and [311] credited once
    each, in this order, [311] is ranked before [Beck]. *)
Lemma tied_artists_not_in_first_seen_order :
  exists r,
    aggregate Sample.playlist Sample.tied_tracks [] [] = Returned r
    /\ top_artists (analysis r)
       = [ {| name := "311"; count := 1 |}; {| name := "Beck"; count := 1 |} ]
    /\ ~ Stated.artists_tied_in_first_seen_order Sample.tied_tracks (top_artists (analysis r)).
Proof.
  eexists. split; [reflexivity|]. split; [reflexivity|].
  intros (_ & _ & Hties). specialize (Hties 1%Z).
  destruct Hties as [k Hk]. vm_compute in Hk. discriminate.
Qed.

(** ** Genre counts *)

Lemma occurrences_flat_map {A} (f : A -> list string) g (l : list A) :
  occurrences g (flat_map f l) = sum_list_with (fun a => occurrences g (f a)) l.
Proof.
  induction l as [|a l IH]; simpl; [done|]. by rewrite occurrences_app, IH.
Qed.




(** * Properties of the request discipline *)

Lemma clean_app up rqs1 rqs2 : clean up (rqs1 ++ rqs2) <-> clean up rqs1 /\ clean up rqs2.
Proof. apply Forall_app. Qed.

Lemma failed_request_app up rqs1 rqs2 e :
  clean up rqs1 -> failed_request up rqs2 e -> failed_request up (rqs1 ++ rqs2) e.
Proof.
  intros H1 (rqs0 & rq & st & b & -> & H0 & Hf & ->).
  exists (rqs1 ++ rqs0), rq, st, b. rewrite app_assoc. repeat split; try done.
  by apply clean_app.
Qed.

Section Discipline.
Context (up : Upstream) (L : JsError -> Prop).

Lemma run_ok_silent {A} (w : World) (o : Outcome A) (w' : World) :
  log w' = log w ->
  match o with Thrown e => L e | _ => True end ->
  run_ok up L w (o, w').
Proof.
  intros Hlog Ho. exists []. rewrite app_nil_r. split; [done|]. simpl.
  destruct o; [constructor|left; split; [constructor|done]|constructor].
Qed.

Lemma disciplined_ret {A} (a : A) : disciplined up L (ret a).
Proof. intros w. by apply run_ok_silent. Qed.

Lemma disciplined_throw {A} e : L e -> disciplined up L (@throw A e).
Proof. intros He w. by apply run_ok_silent. Qed.

Lemma disciplined_out_of_fuel {A} : disciplined up L (@out_of_fuel A).
Proof. intros w. by apply run_ok_silent. Qed.

Lemma disciplined_lift {A} (o : Outcome A) :
  match o with Thrown e => L e | _ => True end -> disciplined up L (lift o).
Proof. intros Ho w. by apply run_ok_silent. Qed.

Lemma disciplined_get_session : disciplined up L get_session.
Proof. intros w. by apply run_ok_silent. Qed.

Lemma disciplined_set_session s : disciplined up L (set_session s).
Proof. intros w. by apply run_ok_silent. Qed.

Lemma disciplined_Date_now : disciplined up L (Date_now up).
Proof. intros w. by apply run_ok_silent. Qed.

(** A request is logged, and thrown when it fails. *)
Lemma disciplined_axios {A} rq (resp : HttpResp A) :
  failure_of resp = request_failure up rq -> disciplined up L (axios rq resp).
Proof.
  intros Hf w. exists [rq]. unfold axios. destruct resp as [data|st b]; simpl in *.
  - split; [done|]. by repeat constructor.
  - split; [done|]. right. exists [], rq, st, b. repeat split; try done. constructor.
Qed.

Lemma disciplined_bind {A B} (c : M A) (k : A -> M B) :
  disciplined up L c -> (forall a, disciplined up L (k a)) -> disciplined up L (bind c k).
Proof.
  intros Hc Hk w. unfold bind. destruct (Hc w) as (rqs1 & Hlog1 & H1).
  destruct (c w) as [[a|e|] w1]; simpl in *.
  - destruct (Hk a w1) as (rqs2 & Hlog2 & H2). exists (rqs1 ++ rqs2).
    rewrite Hlog2, Hlog1, app_assoc. split; [done|].
    destruct (fst (k a w1)).
    + by apply clean_app.
    + destruct H2 as [[H2 He]|H2].
      * left. split; [by apply clean_app|done].
      * right. by apply failed_request_app.
    + by apply clean_app.
  - by exists rqs1.
  - by exists rqs1.
Qed.
End Discipline.

Lemma disciplined_weaken up (L L' : JsError -> Prop) {A} (c : M A) :
  (forall e, L e -> L' e) -> disciplined up L c -> disciplined up L' c.
Proof.
  intros HL Hc w. destruct (Hc w) as (rqs & Hlog & H). exists rqs. split; [done|].
  destruct (fst (c w)); try done. destruct H as [[? ?]|?]; [left|right]; auto.
Qed.

(** A failed request among those issued is the last one, and its error is
    what the run throws. *)
Lemma run_ok_failure up L {A} w (res : Outcome A * World) rq st b :
  run_ok up L w res ->
  rq ∈ drop (length (log w)) (log (snd res)) ->
  request_failure up rq = Some (st, b) ->
  fst res = Thrown (axios_error st b) /\ last (log (snd res)) = Some rq.
Proof.
  intros (rqs & Hlog & H) Hin Hf. rewrite Hlog, drop_app_length in Hin.
  assert (~ clean up rqs) as Hnc.
  { intros Hc. apply (proj1 (Forall_forall _ _) Hc) in Hin. congruence. }
  destruct (fst res) as [a|e|]; try done.
  destruct H as [[? _]|(rqs0 & rq' & st' & b' & -> & H0 & Hf' & ->)]; [done|].
  apply elem_of_app in Hin as [Hin|Hin].
  - apply (proj1 (Forall_forall _ _) H0) in Hin. congruence.
  - apply list_elem_of_singleton in Hin as ->.
    rewrite Hf in Hf'. injection Hf' as <- <-.
    split; [done|]. by rewrite Hlog, app_assoc, last_snoc.
Qed.

(** ** The stages *)

Lemma bind_assoc {A B C} (c : M A) (k : A -> M B) (h : B -> M C) w :
  bind (bind c k) h w = bind c (fun a => bind (k a) h) w.
Proof. unfold bind. by destruct (c w) as [[a|e|] w']. Qed.

Lemma bind_ext {A B} (c : M A) (k k' : A -> M B) w :
  (forall a w', k a w' = k' a w') -> bind c k w = bind c k' w.
Proof. intros H. unfold bind. destruct (c w) as [[a|e|] w']; auto. Qed.

(** The two loops are instances of the batch loop. *)
Lemma audio_features_loop_batch fuel up auth ids i acc w :
  audio_features_loop fuel up auth ids i acc w
  = batch_loop 100 fuel (audio_features_step up auth) ids i acc w.
Proof.
  revert i acc w. induction fuel as [|fuel IH]; intros i acc w; simpl.
  - done.
  - destruct (i <? length ids)%nat; [|done].
    destruct (String.eqb _ ""); [apply IH|].
    unfold audio_features_step. rewrite bind_assoc. apply bind_ext.
    intros fResp w'. apply IH.
Qed.

Lemma artists_loop_batch fuel up auth ids i acc w :
  artists_loop fuel up auth ids i acc w
  = batch_loop 50 fuel (artists_step up auth) ids i acc w.
Proof.
  revert i acc w. induction fuel as [|fuel IH]; intros i acc w; simpl.
  - done.
  - destruct (i <? length ids)%nat; [|done].
    destruct (String.eqb _ ""); [apply IH|].
    unfold artists_step. rewrite bind_assoc. apply bind_ext.
    intros aResp w'. apply bind_ext. intros m w''. apply IH.
Qed.

Lemma disciplined_ext up L {A} (c c' : M A) :
  (forall w, c w = c' w) -> disciplined up L c' -> disciplined up L c.
Proof. intros H Hc w. rewrite H. apply Hc. Qed.

Lemma disciplined_ensureAccessToken up :
  disciplined up (fun e => e = Error "not_authenticated") (ensureAccessToken up).
Proof.
  unfold ensureAccessToken.
  apply disciplined_bind; [apply disciplined_get_session|]. intros [sess|].
  - destruct (negb _); [by apply disciplined_throw|].
    apply disciplined_bind; [apply disciplined_Date_now|]. intros now.
    destruct (now <? _)%Z; [apply disciplined_ret|].
    apply disciplined_bind; [by apply disciplined_axios|]. intros resp.
    apply disciplined_bind; [apply disciplined_Date_now|]. intros now'.
    apply disciplined_bind; [apply disciplined_set_session|]. intros _.
    apply disciplined_ret.
  - by apply disciplined_throw.
Qed.

Lemma disciplined_tracks_loop up L fuel auth next tracks :
  disciplined up L (tracks_loop fuel up auth next tracks).
Proof.
  revert next tracks. induction fuel as [|fuel IH]; intros next tracks; simpl.
  - destruct (Js.truthy next); [apply disciplined_out_of_fuel|apply disciplined_ret].
  - destruct (Js.truthy next); [|apply disciplined_ret].
    apply disciplined_bind; [by apply disciplined_axios|]. intros tResp. apply IH.
Qed.

Lemma disciplined_batch_loop up L {S} size fuel (step : list (option string) -> S -> M S)
    ids i acc :
  (forall chunk acc, disciplined up L (step chunk acc)) ->
  disciplined up L (batch_loop size fuel step ids i acc).
Proof.
  intros Hstep. revert i acc. induction fuel as [|fuel IH]; intros i acc; simpl.
  - destruct (i <? length ids)%nat; [apply disciplined_out_of_fuel|apply disciplined_ret].
  - destruct (i <? length ids)%nat; [|apply disciplined_ret].
    destruct (String.eqb _ ""); [apply IH|].
    apply disciplined_bind; [apply Hstep|]. intros acc'. apply IH.
Qed.

Lemma store_artists_cases artists artistsMap :
  (Forall is_Some artists /\ exists m, store_artists artists artistsMap = Returned m)
  \/ (~ Forall is_Some artists /\ store_artists artists artistsMap = Thrown (TypeError "id")).
Proof.
  revert artistsMap. induction artists as [|[a|] artists IH]; intros artistsMap; simpl.
  - left. split; [constructor|by eexists].
  - destruct (IH (Js.obj_set (Js.interpolate (a_id a)) a artistsMap)) as [[H He]|[H He]].
    + left. split; [|done]. constructor; [by eexists|done].
    + right. split; [|done]. intros Hf. apply H. by inversion Hf.
  - right. split; [|done]. intros Hf. inversion Hf as [|? ? [? ?]]. done.
Qed.

Lemma push_artist_ids_cases artists artistIds :
  (Forall is_Some artists
   /\ push_artist_ids artists artistIds
      = Returned (artistIds ++ map (fun a => a ≫= ar_id) artists))
  \/ (~ Forall is_Some artists
      /\ push_artist_ids artists artistIds = Thrown (TypeError "id")).
Proof.
  revert artistIds. induction artists as [|[a|] artists IH]; intros artistIds; simpl.
  - left. split; [constructor|by rewrite app_nil_r].
  - destruct (IH (artistIds ++ [ar_id a])) as [[H He]|[H He]].
    + left. split; [constructor; [by eexists|done]|]. by rewrite He, <- app_assoc.
    + right. split; [|done]. intros Hf. apply H. by inversion Hf.
  - right. split; [|done]. intros Hf. inversion Hf as [|? ? [? ?]]. done.
Qed.

Lemma collect_artist_ids_cases tracks artistIds :
  (exists ids, collect_artist_ids tracks artistIds = Returned ids)
  \/ collect_artist_ids tracks artistIds = Thrown (TypeError "id").
Proof.
  revert artistIds. induction tracks as [|t tracks IH]; intros artistIds; simpl.
  - left. by eexists.
  - destruct (t_artists t) as [artists|]; [|apply IH].
    destruct (push_artist_ids_cases artists artistIds) as [[_ ->]|[_ ->]]; simpl.
    + apply IH.
    + by right.
Qed.

Lemma aggregate_cases pl tracks audioFeatures artistsMap :
  (exists r, aggregate pl tracks audioFeatures artistsMap = Returned r)
  \/ (exists property, aggregate pl tracks audioFeatures artistsMap = Thrown (TypeError property)).
Proof.
  unfold aggregate.
  destruct (visit_tracks_cases audioFeatures tracks initial_stats)
    as [[st ->]|(p & _ & ->)]; simpl.
  - left. by eexists.
  - right. by exists p.
Qed.

(** From the token on, the route throws nothing of its own but
    [TypeError]s. *)
Lemma disciplined_analyze_with_token up fuel playlistId token :
  disciplined up is_TypeError (analyze_with_token fuel up playlistId token).
Proof.
  unfold analyze_with_token.
  apply disciplined_bind; [by apply disciplined_axios|]. intros pl.
  apply disciplined_bind; [apply disciplined_tracks_loop|]. intros tracks.
  apply disciplined_bind.
  { apply disciplined_lift.
    destruct (collect_artist_ids_cases tracks []) as [[ids ->]| ->]; [done|]. by eexists. }
  intros artistIds. apply disciplined_bind.
  { eapply disciplined_ext; [apply audio_features_loop_batch|].
    apply disciplined_batch_loop. intros chunk acc. unfold audio_features_step.
    apply disciplined_bind; [by apply disciplined_axios|]. intros. apply disciplined_ret. }
  intros audioFeatures. apply disciplined_bind.
  { eapply disciplined_ext; [apply artists_loop_batch|].
    apply disciplined_batch_loop. intros chunk acc. unfold artists_step.
    apply disciplined_bind; [by apply disciplined_axios|]. intros aResp.
    apply disciplined_lift.
    destruct (store_artists_cases (default [] (b_artists aResp)) acc) as [[_ [m ->]]|[_ ->]];
      [done|]. by eexists. }
  intros artistsMap. apply disciplined_lift.
  destruct (aggregate_cases pl tracks audioFeatures artistsMap) as [[r ->]|[p ->]]; [done|].
  by eexists.
Qed.

(** The route obeys the discipline; its own errors are the missing
    authentication and the [TypeError]s. *)
Lemma disciplined_analyze up fuel playlistId :
  disciplined up is_local_error (analyze fuel up playlistId).
Proof.
  unfold analyze. apply disciplined_bind.
  - eapply disciplined_weaken; [|apply disciplined_ensureAccessToken]. by left.
  - intros token. eapply disciplined_weaken; [|apply disciplined_analyze_with_token].
    by right.
Qed.

(** ** Error reporting *)

Lemma on_error_axios st b :
  on_error (axios_error st b)
  = {| status := 500;
       body := ErrorBody "analysis_failed"
                 (Some (if Js.truthy b then Js.interpolate b
                        else message (axios_error st b))) |}.
Proof. unfold on_error, Js.or_else. simpl. by destruct (Js.truthy b). Qed.

Lemma on_error_TypeError property :
  on_error (TypeError property)
  = {| status := 500;
       body := ErrorBody "analysis_failed" (Some (message (TypeError property))) |}.
Proof. reflexivity. Qed.

(** Without a session, or without a token in it, the reply is
    [not_authenticated] and no request is issued. *)
Lemma missing_token_not_authenticated fuel up playlistId w :
  match session w with
  | Some sess => Js.truthy (access_token sess) = false
  | None => True
  end ->
  analyze_route fuel up playlistId w
  = (Some {| status := 401; body := ErrorBody "not_authenticated" None |}, w).
Proof.
  intros H. unfold analyze_route, analyze, ensureAccessToken, bind, get_session.
  destruct (session w) as [sess|]; [|done]. by rewrite H.
Qed.

(** C3, amended. Whenever a request of the invocation is answered with a
    non-success response, the route stops there, the failed request being
    the last one issued, and replies with status 500 and the error
    [analysis_failed], whose detail is the body of the response or, when
    the body is empty, the message naming the status; the route has no
    tag [upstream_fetch_failed]. *)
Theorem upstream_failure_is_analysis_failed fuel up playlistId w rq st b :
  rq ∈ drop (length (log w)) (log (snd (analyze fuel up playlistId w))) ->
  request_failure up rq = Some (st, b) ->
  fst (analyze fuel up playlistId w) = Thrown (axios_error st b)
  /\ last (log (snd (analyze fuel up playlistId w))) = Some rq
  /\ analyze_route fuel up playlistId w
     = (Some {| status := 500;
                body := ErrorBody "analysis_failed"
                          (Some (if Js.truthy b then Js.interpolate b
                                 else ("Request failed with status code "
                                       ++ Js.string_of_Z st)%string)) |},
        snd (analyze fuel up playlistId w)).
Proof.
  intros Hin Hf.
  destruct (run_ok_failure up is_local_error w _ rq st b
              (disciplined_analyze up fuel playlistId w) Hin Hf) as [Hthrown Hlast].
  split; [done|]. split; [done|].
  unfold analyze_route. destruct (analyze fuel up playlistId w) as [o w']. simpl in *.
  subst o. by rewrite on_error_axios.
Qed.

Lemma upstream_failure_is_analysis_failed_witness :
  analyze_route 5 Sample.failing_upstream "p" Sample.world
  = (Some {| status := 500;
             body := ErrorBody "analysis_failed" (Some "service unavailable") |},
     {| session := session Sample.world;
        ticks := 1;
        log := [ GetPlaylist "https://api.spotify.com/v1/playlists/p" "Bearer tok";
                 GetTracks "https://api.spotify.com/v1/playlists/p/tracks?limit=100"
                           "Bearer tok" ] |}).
Proof.
  destruct (upstream_failure_is_analysis_failed 5 Sample.failing_upstream "p" Sample.world
              (GetTracks "https://api.spotify.com/v1/playlists/p/tracks?limit=100" "Bearer tok")
              503 (Some "service unavailable")) as (_ & _ & Hroute).
  - vm_compute. apply list_elem_of_further, list_elem_of_here.
  - reflexivity.
  - rewrite Hroute. reflexivity.
Defined.

(** C3 as stated fails: when the provider is out of service for the track
    pages, the reply carries the tag [analysis_failed]. *)
Lemma failure_not_tagged_upstream_fetch_failed :
  ~ Stated.failure_tagged_upstream_fetch_failed 5 Sample.failing_upstream "p" Sample.world.
Proof.
  intros H.
  destruct (H (GetTracks "https://api.spotify.com/v1/playlists/p/tracks?limit=100"
                         "Bearer tok")) as (reply & Hreply & Htag).
  - vm_compute. apply list_elem_of_further, list_elem_of_here.
  - discriminate.
  - vm_compute in Hreply. injection Hreply as <-. discriminate.
Qed.

(** * Properties of the batch loops *)

(** ** Chunks *)

Section Chunks.
Context {A : Type}.
Implicit Types (l : list A) (size fuel : nat).

Lemma chunks_of_fuel fuel fuel' size l :
  0 < size -> length l <= fuel -> length l <= fuel' ->
  chunks_of fuel size l = chunks_of fuel' size l.
Proof.
  intros Hsize. revert fuel' l. induction fuel as [|fuel IH]; intros fuel' l Hf Hf'.
  - destruct l; [|simpl in Hf; lia]. by destruct fuel'.
  - destruct l as [|x l]; [by destruct fuel'|].
    destruct fuel' as [|fuel']; [simpl in Hf'; lia|].
    cbn [chunks_of]. f_equal. apply IH; rewrite length_drop; simpl in *; lia.
Qed.

Lemma chunks_nil size : chunks size (@nil A) = [].
Proof. done. Qed.

Lemma chunks_cons size l :
  0 < size -> l <> [] -> chunks size l = take size l :: chunks size (drop size l).
Proof.
  intros Hsize Hl. unfold chunks. destruct l as [|x l]; [done|].
  cbn [length chunks_of]. f_equal.
  apply chunks_of_fuel; [done|..]; rewrite length_drop; simpl; lia.
Qed.

Lemma chunks_of_concat fuel size l :
  0 < size -> length l <= fuel -> concat (chunks_of fuel size l) = l.
Proof.
  intros Hsize. revert l. induction fuel as [|fuel IH]; intros l Hf.
  - destruct l; [done|simpl in Hf; lia].
  - destruct l as [|x l]; [done|]. cbn [chunks_of concat].
    rewrite IH; [apply take_drop|]. rewrite length_drop. simpl in *. lia.
Qed.

(** The chunks are contiguous: they make up the list. *)
Lemma chunks_concat size l : 0 < size -> concat (chunks size l) = l.
Proof. intros. by apply chunks_of_concat. Qed.

(** No chunk is empty, none exceeds the batch size. *)
Lemma chunks_bounds size l :
  0 < size -> Forall (fun c => c <> [] /\ length c <= size) (chunks size l).
Proof.
  intros Hsize. unfold chunks. generalize (length l) as fuel. intros fuel. revert l.
  induction fuel as [|fuel IH]; intros l; [constructor|].
  destruct l as [|x l]; [constructor|]. cbn [chunks_of]. constructor; [|apply IH].
  split.
  - destruct size; [lia|done].
  - rewrite length_take. lia.
Qed.

(** The sizes of the chunks depend on the length of the list only. *)
Lemma chunks_of_lengths fuel size l :
  map length (chunks_of fuel size l)
  = map length (chunks_of fuel size (replicate (length l) tt)).
Proof.
  revert l. induction fuel as [|fuel IH]; intros l; [done|].
  destruct l as [|x l]; [done|]. cbn [length replicate chunks_of map].
  change (tt :: replicate (length l) tt) with (replicate (length (x :: l)) tt).
  f_equal.
  - by rewrite !length_take, length_replicate.
  - rewrite IH, drop_replicate, length_drop. done.
Qed.

Lemma chunks_lengths size l n :
  length l = n -> map length (chunks size l) = map length (chunks size (replicate n tt)).
Proof.
  intros <-. unfold chunks. by rewrite chunks_of_lengths, length_replicate.
Qed.
End Chunks.

(** ** The identifiers of the batch requests *)

Lemma List_filter_length {A} (p : A -> bool) (l : list A) : length (List.filter p l) <= length l.
Proof. induction l as [|x l IH]; simpl; [done|]. destruct (p x); simpl; lia. Qed.

Lemma List_filter_Forall {A} (p : A -> bool) (l : list A) :
  Forall (fun x => p x = true) (List.filter p l).
Proof.
  induction l as [|x l IH]; simpl; [constructor|].
  destruct (p x) eqn:E; [by constructor|done].
Qed.

(** ** The requests of a batch loop *)

Lemma join_truthy sep chunk :
  chunk <> [] -> Forall (fun v => Js.truthy v = true) chunk ->
  String.eqb (Js.join sep chunk) "" = false.
Proof.
  intros Hne Ht. destruct chunk as [|v chunk]; [done|].
  inversion Ht as [|? ? Hv _]; subst. destruct v as [s|]; [|done].
  destruct s as [|c s]; [done|]. unfold Js.join. simpl. by destruct (map _ chunk).
Qed.

Section BatchLoop.
Context {S : Type} (size : nat) (step : list (option string) -> S -> M S).
Context (mk : list (option string) -> Request) (ids : list (option string)).
Hypothesis size_pos : 0 < size.
Hypothesis ids_truthy : Forall (fun v => Js.truthy v = true) ids.
Hypothesis step_log :
  forall chunk acc w, log (snd (step chunk acc w)) = log w ++ [mk chunk].
Hypothesis step_ends : forall chunk acc w, fst (step chunk acc w) <> OutOfFuel.

(** With enough fuel the loop issues one request per chunk, in order,
    up to the first step that throws. *)
Lemma batch_loop_requests fuel i acc w :
  length ids - i <= fuel ->
  exists cs,
    log (snd (batch_loop size fuel step ids i acc w)) = log w ++ map mk cs
    /\ cs `prefix_of` chunks size (drop i ids)
    /\ fst (batch_loop size fuel step ids i acc w) <> OutOfFuel
    /\ forall m, fst (batch_loop size fuel step ids i acc w) = Returned m ->
                 cs = chunks size (drop i ids).
Proof using size_pos ids_truthy step_log step_ends.
  revert i acc w. induction fuel as [|fuel IH]; intros i acc w Hfuel;
    cbn [batch_loop]; destruct (Nat.ltb_spec i (length ids)) as [Hlt|Hge]; try lia.
  - exists []. rewrite drop_ge by lia. simpl. by rewrite app_nil_r.
  - assert (drop i ids <> []) as Hne.
    { intros E. apply (f_equal length) in E. rewrite length_drop in E. simpl in E. lia. }
    assert (Js.slice i (i + size) ids = take size (drop i ids)) as Hslice.
    { unfold Js.slice. f_equal. lia. }
    rewrite Hslice, join_truthy, (chunks_cons size (drop i ids)), drop_drop; try done.
    2:{ intros E. apply Hne. destruct (drop i ids); [done|]. destruct size; [lia|done]. }
    2:{ apply Forall_take, Forall_drop, ids_truthy. }
    unfold bind. pose proof (step_log (take size (drop i ids)) acc w) as Hlog.
    pose proof (step_ends (take size (drop i ids)) acc w) as Hend.
    destruct (step (take size (drop i ids)) acc w) as [[acc'|e|] w1]; simpl in *.
    + destruct (IH (i + size) acc' w1) as (cs & Hcs & Hpre & Hnf & Hret); [lia|].
      exists (take size (drop i ids) :: cs). rewrite Hcs, Hlog, <- app_assoc.
      split; [done|]. split; [by apply prefix_cons|]. split; [done|].
      intros m Hm. f_equal. by apply (Hret m).
    + exists [take size (drop i ids)]. split; [done|].
      split; [apply prefix_cons, prefix_nil|]. done.
    + done.
  - exists []. rewrite drop_ge by lia. simpl. by rewrite app_nil_r.
Qed.

(** When every step returns, so does the loop. *)
Lemma batch_loop_returns fuel i acc w :
  (forall chunk acc w, exists m, fst (step chunk acc w) = Returned m) ->
  length ids - i <= fuel ->
  exists m, fst (batch_loop size fuel step ids i acc w) = Returned m.
Proof using size_pos.
  intros Hstep. revert i acc w. induction fuel as [|fuel IH]; intros i acc w Hfuel;
    cbn [batch_loop]; destruct (Nat.ltb_spec i (length ids)) as [Hlt|Hge]; try lia.
  - by eexists.
  - destruct (String.eqb _ ""); [apply IH; lia|].
    unfold bind. destruct (Hstep (Js.slice i (i + size) ids) acc w) as [m Hm].
    destruct (step _ acc w) as [o w1]. simpl in Hm. subst o. apply IH. lia.
  - by eexists.
Qed.
End BatchLoop.

Lemma audio_features_step_log up auth chunk acc w :
  log (snd (audio_features_step up auth chunk acc w)) = log w ++ [GetAudioFeatures chunk auth]
  /\ fst (audio_features_step up auth chunk acc w) <> OutOfFuel.
Proof.
  unfold audio_features_step, bind, axios. by destruct (get_audio_features up _ auth).
Qed.

Lemma artists_step_log up auth chunk acc w :
  log (snd (artists_step up auth chunk acc w)) = log w ++ [GetArtists chunk auth]
  /\ fst (artists_step up auth chunk acc w) <> OutOfFuel.
Proof.
  unfold artists_step, bind, axios, lift. destruct (get_artists up _ auth) as [b|]; [|done].
  by destruct (store_artists_cases (default [] (b_artists b)) acc) as [[_ [m ->]]|[_ ->]].
Qed.

(** What the requests of a batch loop say about its chunks. *)
Lemma batch_loop_chunks {S} size (step : list (option string) -> S -> M S) mk ids fuel acc w :
  0 < size ->
  Forall (fun v => Js.truthy v = true) ids ->
  (forall chunk acc w, log (snd (step chunk acc w)) = log w ++ [mk chunk]
                       /\ fst (step chunk acc w) <> OutOfFuel) ->
  length ids <= fuel ->
  exists cs,
    log (snd (batch_loop size fuel step ids 0 acc w)) = log w ++ map mk cs
    /\ Forall (fun c => c <> [] /\ length c <= size) cs
    /\ concat cs `prefix_of` ids
    /\ (ids = [] -> cs = [])
    /\ fst (batch_loop size fuel step ids 0 acc w) <> OutOfFuel
    /\ forall m, fst (batch_loop size fuel step ids 0 acc w) = Returned m ->
         concat cs = ids
         /\ forall n, length ids = n ->
              map length cs = map length (chunks size (replicate n tt)).
Proof.
  intros Hsize Ht Hstep Hfuel.
  destruct (batch_loop_requests size step mk ids Hsize Ht
              (fun c a w => proj1 (Hstep c a w)) (fun c a w => proj2 (Hstep c a w))
              fuel 0 acc w) as (cs & Hlog & Hpre & Hnf & Hret); [lia|].
  rewrite drop_0 in *. exists cs. split; [done|].
  destruct Hpre as [k Hk]. pose proof (chunks_bounds size ids Hsize) as Hb.
  pose proof (chunks_concat size ids Hsize) as Hc. rewrite Hk in Hb, Hc.
  apply Forall_app in Hb as [Hb _]. rewrite concat_app in Hc.
  split; [done|]. split; [by exists (concat k)|]. split.
  - intros ->. rewrite chunks_nil in Hk. by destruct cs.
  - split; [done|]. intros m Hm. rewrite (Hret m Hm).
    split; [by apply chunks_concat|]. intros n. apply chunks_lengths.
Qed.

(** C5. Each batch loop issues its requests for contiguous chunks of the
    identifiers, none empty and none above the batch size (100 for audio
    features, 50 for artists), in order, and comes to an end.  When the
    provider serves the requests (with artist records that are there,
    for the artists loop) the loop returns, and a loop that returns has
    asked for the whole list, chunk by chunk: 250 identifiers give
    exactly three audio-feature requests of 100, 100 and 50 identifiers
    and five artist requests of 50, and an empty list gives no request.
    The identifiers the route passes to the loops are truthy, as the
    statement requires. *)
Theorem batches_are_contiguous_chunks fuel up auth ids audioFeatures artistsMap w :
  Forall (fun v => Js.truthy v = true) ids ->
  length ids <= fuel ->
  (exists cs,
      log (snd (audio_features_loop fuel up auth ids 0 audioFeatures w))
      = log w ++ map (fun c => GetAudioFeatures c auth) cs
      /\ Forall (fun c => c <> [] /\ length c <= 100) cs
      /\ concat cs `prefix_of` ids
      /\ cs `prefix_of` chunks 100 ids
      /\ (ids = [] -> cs = [])
      /\ fst (audio_features_loop fuel up auth ids 0 audioFeatures w) <> OutOfFuel
      /\ ((forall m, fst (audio_features_loop fuel up auth ids 0 audioFeatures w) = Returned m ->
             cs = chunks 100 ids /\ concat cs = ids
             /\ (length ids = 250 -> map length cs = [100; 100; 50])))
      /\ ((forall url, exists b, get_audio_features up url auth = Ok b) ->
          (exists m, fst (audio_features_loop fuel up auth ids 0 audioFeatures w) = Returned m)
          /\ cs = chunks 100 ids))
  /\ (exists cs,
      log (snd (artists_loop fuel up auth ids 0 artistsMap w))
      = log w ++ map (fun c => GetArtists c auth) cs
      /\ Forall (fun c => c <> [] /\ length c <= 50) cs
      /\ concat cs `prefix_of` ids
      /\ cs `prefix_of` chunks 50 ids
      /\ (ids = [] -> cs = [])
      /\ fst (artists_loop fuel up auth ids 0 artistsMap w) <> OutOfFuel
      /\ (forall m, fst (artists_loop fuel up auth ids 0 artistsMap w) = Returned m ->
            cs = chunks 50 ids /\ concat cs = ids
            /\ (length ids = 250 -> map length cs = [50; 50; 50; 50; 50]))
      /\ ((forall url, exists b, get_artists up url auth = Ok b
                                 /\ Forall is_Some (default [] (b_artists b))) ->
          (exists m, fst (artists_loop fuel up auth ids 0 artistsMap w) = Returned m)
          /\ cs = chunks 50 ids))
  /\ (forall tracks, Forall (fun v => Js.truthy v = true) (trackIds tracks))
  /\ (forall artistIds, Forall (fun v => Js.truthy v = true) (uniqueArtistIds artistIds)).
Proof.
  intros Ht Hfuel. split; [|split; [|split]]; [| |intros; apply List_filter_Forall..].
  - rewrite audio_features_loop_batch.
    destruct (batch_loop_requests 100 (audio_features_step up auth)
                (fun c => GetAudioFeatures c auth) ids ltac:(lia) Ht
                (fun c a w => proj1 (audio_features_step_log up auth c a w))
                (fun c a w => proj2 (audio_features_step_log up auth c a w))
                fuel 0 audioFeatures w) as (cs & Hlog & Hpre & Hnf & Hret); [lia|].
    rewrite drop_0 in *. exists cs. split; [done|].
    pose proof (chunks_bounds 100 ids ltac:(lia)) as Hb.
    pose proof (chunks_concat 100 ids ltac:(lia)) as Hc.
    destruct Hpre as [k Hk]. rewrite Hk in Hb, Hc.
    apply Forall_app in Hb as [Hb _]. rewrite concat_app in Hc.
    split; [done|]. split; [by exists (concat k)|]. split; [by exists k|].
    split. { intros ->. rewrite chunks_nil in Hk. by destruct cs. }
    split; [done|].
    assert (forall m, fst (batch_loop 100 fuel (audio_features_step up auth) ids 0
                             audioFeatures w) = Returned m ->
                      cs = chunks 100 ids /\ concat cs = ids
                      /\ (length ids = 250 -> map length cs = [100; 100; 50])) as Hall.
    { intros m Hm. rewrite (Hret m Hm). split; [done|].
      split; [apply chunks_concat; lia|]. intros H250.
      by rewrite (chunks_lengths 100 ids 250 H250). }
    split; [done|]. intros Hok.
    destruct (batch_loop_returns 100 (audio_features_step up auth) ids ltac:(lia)
                fuel 0 audioFeatures w) as [m Hm]; [|lia|].
    { intros chunk acc w'. unfold audio_features_step, bind, axios.
      destruct (Hok (audio_features_url (Js.join "," chunk))) as [b ->]. by eexists. }
    split; [by exists m|]. by destruct (Hall m Hm).
  - rewrite artists_loop_batch.
    destruct (batch_loop_requests 50 (artists_step up auth)
                (fun c => GetArtists c auth) ids ltac:(lia) Ht
                (fun c a w => proj1 (artists_step_log up auth c a w))
                (fun c a w => proj2 (artists_step_log up auth c a w))
                fuel 0 artistsMap w) as (cs & Hlog & Hpre & Hnf & Hret); [lia|].
    rewrite drop_0 in *. exists cs. split; [done|].
    pose proof (chunks_bounds 50 ids ltac:(lia)) as Hb.
    pose proof (chunks_concat 50 ids ltac:(lia)) as Hc.
    destruct Hpre as [k Hk]. rewrite Hk in Hb, Hc.
    apply Forall_app in Hb as [Hb _]. rewrite concat_app in Hc.
    split; [done|]. split; [by exists (concat k)|]. split; [by exists k|].
    split. { intros ->. rewrite chunks_nil in Hk. by destruct cs. }
    split; [done|].
    assert (forall m, fst (batch_loop 50 fuel (artists_step up auth) ids 0
                             artistsMap w) = Returned m ->
                      cs = chunks 50 ids /\ concat cs = ids
                      /\ (length ids = 250 -> map length cs = [50; 50; 50; 50; 50])) as Hall.
    { intros m Hm. rewrite (Hret m Hm). split; [done|].
      split; [apply chunks_concat; lia|]. intros H250.
      by rewrite (chunks_lengths 50 ids 250 H250). }
    split; [done|]. intros Hok.
    destruct (batch_loop_returns 50 (artists_step up auth) ids ltac:(lia)
                fuel 0 artistsMap w) as [m Hm]; [|lia|].
    { intros chunk acc w'. unfold artists_step, bind, axios, lift.
      destruct (Hok (artists_url (Js.join "," chunk))) as (b & -> & Hsome).
      destruct (store_artists_cases (default [] (b_artists b)) acc) as [[_ [m' ->]]|[Hn _]];
        [by eexists|done]. }
    split; [by exists m|]. by destruct (Hall m Hm).
Qed.

Lemma batches_are_contiguous_chunks_witness :
  map (fun rq => length (features_asked rq))
      (log (snd (audio_features_loop 250 Sample.upstream "Bearer tok"
                   (replicate 250 (Some "t")) 0 [] Sample.world)))
  = [100; 100; 50]
  /\ map (fun rq => length (artists_asked rq))
         (log (snd (artists_loop 250 Sample.upstream "Bearer tok"
                      (replicate 250 (Some "a")) 0 [] Sample.world)))
     = [50; 50; 50; 50; 50]
  /\ (exists m, fst (artists_loop 250 Sample.upstream "Bearer tok"
                       (replicate 250 (Some "a")) 0 [] Sample.world) = Returned m).
Proof.
  split.
  - destruct (batches_are_contiguous_chunks 250 Sample.upstream "Bearer tok"
                (replicate 250 (Some "t")) [] [] Sample.world)
      as [(cs & Hlog & _ & _ & _ & _ & _ & Hret & Hreturns) _].
    + by apply Forall_replicate.
    + by rewrite length_replicate.
    + destruct Hreturns as [[m Hm] _]; [intros url; by eexists|].
      destruct (Hret m Hm) as (_ & _ & Hlen). rewrite Hlog, map_app, map_map. simpl.
      rewrite <- Hlen by apply length_replicate. apply map_ext. done.
  - destruct (batches_are_contiguous_chunks 250 Sample.upstream "Bearer tok"
                (replicate 250 (Some "a")) [] [] Sample.world)
      as [_ [(cs & Hlog & _ & _ & _ & _ & _ & Hret & Hreturns) _]].
    + by apply Forall_replicate.
    + by rewrite length_replicate.
    + destruct Hreturns as [[m Hm] _].
      { intros url. eexists. split; [reflexivity|]. repeat constructor; by eexists. }
      split; [|by exists m].
      destruct (Hret m Hm) as (_ & _ & Hlen). rewrite Hlog, map_app, map_map. simpl.
      rewrite <- Hlen by apply length_replicate. apply map_ext. done.
Defined.

(** * Properties of the pagination loop *)

Lemma world_eta w : {| session := session w; ticks := ticks w; log := log w |} = w.
Proof. by destruct w. Qed.

Lemma retrieved_cons page pages :
  retrieved (page :: pages) = omap i_track (p_items page) ++ retrieved pages.
Proof. done. Qed.

(** Followed with enough fuel, a walk through the pages returns the tracks
    of all pages, in page order, without the placeholders. *)
Lemma tracks_loop_walk up auth fuel next pages tracks w :
  PageWalk up auth next pages ->
  length pages <= fuel ->
  tracks_loop fuel up auth next tracks w
  = (Returned (tracks ++ retrieved pages),
     {| session := session w; ticks := ticks w;
        log := log w ++ page_requests auth next pages |}).
Proof.
  intros Hwalk. revert fuel tracks w.
  induction Hwalk as [next Hnext|next page pages Hnext Hget _ IH]; intros fuel tracks w Hfuel.
  - destruct fuel; simpl; rewrite Hnext; unfold ret; by rewrite !app_nil_r, world_eta.
  - destruct fuel as [|fuel]; [simpl in Hfuel; lia|]. cbn [tracks_loop]. rewrite Hnext.
    unfold bind, axios. rewrite Hget. rewrite IH by (simpl in Hfuel; lia).
    cbn [session ticks log page_requests].
    by rewrite retrieved_cons, <- !app_assoc.
Qed.

(** Conversely the loop returns only at the end of a walk. *)
Lemma tracks_loop_Returned up auth fuel next tracks w tracks' w' :
  tracks_loop fuel up auth next tracks w = (Returned tracks', w') ->
  exists pages,
    PageWalk up auth next pages /\ length pages <= fuel
    /\ tracks' = tracks ++ retrieved pages.
Proof.
  revert next tracks w. induction fuel as [|fuel IH]; intros next tracks w; simpl.
  - destruct (Js.truthy next) eqn:Hnext; [done|]. intros [= <- <-].
    exists []. split; [by constructor|]. split; [done|]. by rewrite app_nil_r.
  - destruct (Js.truthy next) eqn:Hnext.
    + unfold bind, axios. destruct (get_tracks up _ auth) as [page|] eqn:Hget; [|done].
      intros (pages & Hwalk & Hlen & ->)%IH. exists (page :: pages).
      split; [by econstructor|]. split; [simpl; lia|].
      by rewrite retrieved_cons, app_assoc.
    + intros [= <- <-]. exists []. split; [by constructor|].
      split; [simpl; lia|]. by rewrite app_nil_r.
Qed.

Lemma PageWalk_unique up auth next pages pages' :
  PageWalk up auth next pages -> PageWalk up auth next pages' -> pages = pages'.
Proof.
  intros H. revert pages'. induction H as [next Hnext|next page pages Hnext Hget _ IH];
    intros pages' H'; inversion H' as [? Hnext'|? page' pages'' Hnext' Hget' Hwalk']; subst;
    try congruence.
  rewrite Hget in Hget'. injection Hget' as <-. f_equal. by apply IH.
Qed.

Lemma omap_track_length items :
  length (omap i_track items) = length (filter (fun i => is_Some (i_track i)) items).
Proof.
  induction items as [|[[t|]] items IH]; [done|..]; rewrite filter_cons.
  - rewrite decide_True by (by eexists). cbn. by rewrite IH.
  - rewrite decide_False by (by intros [? ?]). done.
Qed.

(** The tracks retrieved are the items whose track is there, whatever
    their identifier. *)
Lemma retrieved_length pages :
  length (retrieved pages)
  = length (filter (fun i => is_Some (i_track i)) (flat_map p_items pages)).
Proof.
  induction pages as [|page pages IH]; [done|].
  rewrite retrieved_cons. cbn [flat_map].
  by rewrite filter_app, !length_app, IH, omap_track_length.
Qed.

(** * The route, stage by stage *)

Lemma bind_Returned {A B} (c : M A) (k : A -> M B) w a w1 :
  c w = (Returned a, w1) -> bind c k w = k a w1.
Proof. intros H. unfold bind. by rewrite H. Qed.

Lemma bind_inv {A B} (c : M A) (k : A -> M B) w b w' :
  bind c k w = (Returned b, w') ->
  exists a w1, c w = (Returned a, w1) /\ k a w1 = (Returned b, w').
Proof.
  unfold bind. destruct (c w) as [[a|e|] w1]; try done. intros H. by exists a, w1.
Qed.

Lemma lift_inv {A} (o : Outcome A) w a w' :
  lift o w = (Returned a, w') -> o = Returned a /\ w' = w.
Proof. unfold lift. by intros [= -> ->]. Qed.

Lemma axios_inv {A} rq (resp : HttpResp A) w a w' :
  axios rq resp w = (Returned a, w') -> resp = Ok a.
Proof. unfold axios. destruct resp; [|done]. by intros [= -> _]. Qed.

(** What a returned analysis went through. *)
Lemma analyze_Returned fuel up playlistId w r w' :
  analyze fuel up playlistId w = (Returned r, w') ->
  exists token w1 pl pages artistIds audioFeatures artistsMap,
    ensureAccessToken up w = (Returned token, w1)
    /\ get_playlist up (playlist_url playlistId) (bearer token) = Ok pl
    /\ PageWalk up (bearer token) (Some (first_page_url playlistId)) pages
    /\ length pages <= fuel
    /\ collect_artist_ids (retrieved pages) [] = Returned artistIds
    /\ aggregate pl (retrieved pages) audioFeatures artistsMap = Returned r.
Proof.
  unfold analyze. intros (token & w1 & Htoken & H)%bind_inv. unfold analyze_with_token in H.
  apply bind_inv in H as (pl & w2 & Hpl%axios_inv & H).
  apply bind_inv in H as (tracks & w3 & Htracks & H).
  apply bind_inv in H as (artistIds & w4 & [Hids ->]%lift_inv & H).
  apply bind_inv in H as (audioFeatures & w5 & _ & H).
  apply bind_inv in H as (artistsMap & w6 & _ & [Hagg ->]%lift_inv).
  apply tracks_loop_Returned in Htracks as (pages & Hwalk & Hlen & ->).
  by exists token, w1, pl, pages, artistIds, audioFeatures, artistsMap.
Qed.

Lemma collect_artist_ids_Returned tracks artistIds :
  Forall well_formed_track tracks ->
  collect_artist_ids tracks artistIds = Returned (artistIds ++ credit_ids tracks).
Proof.
  intros H. revert artistIds.
  induction H as [|t tracks (artists & Ha & Hf) _ IH]; intros artistIds.
  - by rewrite app_nil_r.
  - cbn [collect_artist_ids]. rewrite Ha.
    destruct (push_artist_ids_cases artists artistIds) as [[_ ->]|[Hn _]]; [|done].
    cbn [and_then]. rewrite IH. unfold credit_ids, artist_credits. cbn [flat_map].
    by rewrite Ha, map_app, app_assoc.
Qed.

Lemma set_of_length {A} `{EqDecision A} (seen l : list A) : length (Js.set_of seen l) <= length l.
Proof.
  revert seen. induction l as [|x l IH]; intros seen; simpl; [done|].
  destruct (decide (x ∈ seen)); simpl; [specialize (IH seen)|specialize (IH (x :: seen))]; lia.
Qed.

Lemma trackIds_length tracks : length (trackIds tracks) <= length tracks.
Proof.
  unfold trackIds. etransitivity; [apply List_filter_length|]. by rewrite length_map.
Qed.

Lemma uniqueArtistIds_length ids : length (uniqueArtistIds ids) <= length ids.
Proof.
  unfold uniqueArtistIds. etransitivity; [apply List_filter_length|]. apply set_of_length.
Qed.

(** The route returns what its stages return. *)
Lemma analyze_run fuel up playlistId w token w1 pl pages artistIds audioFeatures wb
    artistsMap w' r :
  ensureAccessToken up w = (Returned token, w1) ->
  get_playlist up (playlist_url playlistId) (bearer token) = Ok pl ->
  PageWalk up (bearer token) (Some (first_page_url playlistId)) pages ->
  length pages <= fuel ->
  collect_artist_ids (retrieved pages) [] = Returned artistIds ->
  audio_features_loop fuel up (bearer token) (trackIds (retrieved pages)) 0 []
    {| session := session w1; ticks := ticks w1;
       log := (log w1 ++ [GetPlaylist (playlist_url playlistId) (bearer token)])
              ++ page_requests (bearer token) (Some (first_page_url playlistId)) pages |}
  = (Returned audioFeatures, wb) ->
  artists_loop fuel up (bearer token) (uniqueArtistIds artistIds) 0 [] wb
  = (Returned artistsMap, w') ->
  aggregate pl (retrieved pages) audioFeatures artistsMap = Returned r ->
  analyze fuel up playlistId w = (Returned r, w').
Proof.
  intros Htoken Hpl Hwalk Hpages Hids Hafl Haml Hagg.
  unfold analyze. rewrite (bind_Returned _ _ _ _ _ Htoken).
  unfold analyze_with_token.
  erewrite bind_Returned; [|unfold axios; by rewrite Hpl].
  erewrite bind_Returned; [|by apply tracks_loop_walk].
  rewrite app_nil_l.
  erewrite bind_Returned; [|unfold lift; by rewrite Hids].
  erewrite bind_Returned; [|exact Hafl].
  erewrite bind_Returned; [|exact Haml].
  unfold lift. by rewrite Hagg.
Qed.

(** A provider that serves audio features lets the loop return. *)
Lemma audio_features_loop_returns fuel up auth ids w :
  (forall url, exists b, get_audio_features up url auth = Ok b) ->
  length ids <= fuel ->
  exists audioFeatures wb,
    audio_features_loop fuel up auth ids 0 [] w = (Returned audioFeatures, wb).
Proof.
  intros Hfeat Hfuel.
  destruct (batch_loop_returns 100 (audio_features_step up auth) ids
              ltac:(lia) fuel 0 [] w) as [audioFeatures Haf].
  { intros chunk acc w0. unfold audio_features_step, bind, axios.
    destruct (Hfeat (audio_features_url (Js.join "," chunk))) as [b ->]. by eexists. }
  { lia. }
  rewrite <- audio_features_loop_batch in Haf.
  destruct (audio_features_loop fuel up auth ids 0 [] w) as [o wb].
  simpl in Haf. subst o. by eexists _, _.
Qed.

(** With a token, a playlist, a walk through the pages, well-formed
    tracks, a cooperative provider and enough fuel, the route returns the
    aggregation of what it fetched. *)
Lemma analyze_returns fuel up playlistId w token w1 pl pages :
  ensureAccessToken up w = (Returned token, w1) ->
  get_playlist up (playlist_url playlistId) (bearer token) = Ok pl ->
  PageWalk up (bearer token) (Some (first_page_url playlistId)) pages ->
  length pages <= fuel ->
  length (retrieved pages) <= fuel ->
  length (artist_credits (retrieved pages)) <= fuel ->
  Forall well_formed_track (retrieved pages) ->
  Cooperative up (bearer token) ->
  exists audioFeatures artistsMap r w',
    aggregate pl (retrieved pages) audioFeatures artistsMap = Returned r
    /\ analyze fuel up playlistId w = (Returned r, w').
Proof.
  intros Htoken Hpl Hwalk Hpages Htracks Hcredits Hwf [Hfeat Hart].
  set (auth := bearer token) in *. set (tracks := retrieved pages) in *.
  destruct (audio_features_loop_returns fuel up auth (trackIds tracks)
              {| session := session w1; ticks := ticks w1;
                 log := (log w1 ++ [GetPlaylist (playlist_url playlistId) auth])
                        ++ page_requests auth (Some (first_page_url playlistId)) pages |})
    as (audioFeatures & wb & Hafl); [done| |].
  { pose proof (trackIds_length tracks). lia. }
  destruct (batch_loop_returns 50 (artists_step up auth)
              (uniqueArtistIds (credit_ids tracks)) ltac:(lia) fuel 0 [] wb)
    as [artistsMap Ham].
  { intros chunk acc w0. unfold artists_step, bind, axios, lift.
    destruct (Hart (artists_url (Js.join "," chunk))) as (b & -> & Hb).
    destruct (store_artists_cases (default [] (b_artists b)) acc) as [[_ [m ->]]|[Hn _]];
      [by eexists|done]. }
  { pose proof (uniqueArtistIds_length (credit_ids tracks)).
    unfold credit_ids in *. rewrite length_map in *. lia. }
  rewrite <- artists_loop_batch in Ham.
  destruct (artists_loop fuel up auth (uniqueArtistIds (credit_ids tracks)) 0 [] wb)
    as [o w'] eqn:Haml.
  simpl in Ham. subst o.
  destruct (aggregate_Returned pl tracks audioFeatures artistsMap Hwf)
    as (st & _ & _ & _ & _ & _ & Hagg).
  eexists audioFeatures, artistsMap, _, w'. split; [exact Hagg|].
  eapply analyze_run; try done.
  by rewrite collect_artist_ids_Returned.
Qed.

(** ** The track count *)

Lemma aggregate_total_tracks pl tracks audioFeatures artistsMap r :
  aggregate pl tracks audioFeatures artistsMap = Returned r ->
  total_tracks (playlist r) = Z.of_nat (length tracks).
Proof.
  unfold aggregate. intros (st & _ & [= <-])%and_then_Returned. done.
Qed.

Lemma sample_walk :
  PageWalk Sample.upstream "Bearer tok" (Some (first_page_url "p"))
           [Sample.page1; Sample.page2].
Proof.
  apply walk_page; [reflexivity..|].
  apply walk_page; [reflexivity..|].
  by apply walk_end.
Qed.

Lemma sample_cooperative : Cooperative Sample.upstream "Bearer tok".
Proof.
  split; intros url; eexists; [reflexivity|].
  split; [reflexivity|]. repeat constructor; by eexists.
Qed.

(** C4. The pagination loop returns the tracks of all pages, skipping the
    items whose track is [null] without an error, and [total_tracks] is
    the number of tracks retrieved this way: the number of items whose
    track is there, whether or not the track has an identifier. *)
Theorem total_tracks_counts_retrieved fuel up playlistId w token w1 pl pages :
  ensureAccessToken up w = (Returned token, w1) ->
  get_playlist up (playlist_url playlistId) (bearer token) = Ok pl ->
  PageWalk up (bearer token) (Some (first_page_url playlistId)) pages ->
  length pages <= fuel ->
  (forall tracks w2,
      fst (tracks_loop fuel up (bearer token) (Some (first_page_url playlistId)) tracks w2)
      = Returned (tracks ++ retrieved pages))
  /\ length (retrieved pages)
     = length (filter (fun i => is_Some (i_track i)) (flat_map p_items pages))
  /\ (forall r w', analyze fuel up playlistId w = (Returned r, w') ->
        total_tracks (playlist r) = Z.of_nat (length (retrieved pages)))
  /\ (length (retrieved pages) <= fuel ->
      length (artist_credits (retrieved pages)) <= fuel ->
      Forall well_formed_track (retrieved pages) ->
      Cooperative up (bearer token) ->
      exists r w', analyze fuel up playlistId w = (Returned r, w')
                   /\ total_tracks (playlist r) = Z.of_nat (length (retrieved pages))).
Proof.
  intros Htoken Hpl Hwalk Hfuel. split; [|split; [|split]].
  - intros tracks w2. by rewrite (tracks_loop_walk _ _ _ _ pages).
  - apply retrieved_length.
  - intros r w' (token' & w1' & pl' & pages' & ids & afs & amap & Htoken' & Hpl' & Hwalk'
                 & _ & _ & Hagg)%analyze_Returned.
    rewrite Htoken in Htoken'. injection Htoken' as <- <-.
    rewrite (PageWalk_unique _ _ _ _ _ Hwalk Hwalk').
    by apply aggregate_total_tracks in Hagg.
  - intros Htracks Hcredits Hwf Hcoop.
    destruct (analyze_returns fuel up playlistId w token w1 pl pages)
      as (afs & amap & r & w' & Hagg & Hrun); try done.
    exists r, w'. split; [done|]. by apply aggregate_total_tracks in Hagg.
Qed.

Lemma total_tracks_counts_retrieved_witness :
  length (filter (fun i => is_Some (i_track i))
                 (flat_map p_items [Sample.page1; Sample.page2])) = 4
  /\ exists r w', analyze 5 Sample.upstream "p" Sample.world = (Returned r, w')
                  /\ total_tracks (playlist r) = 4%Z.
Proof.
  destruct (total_tracks_counts_retrieved 5 Sample.upstream "p" Sample.world "tok"
              {| session := session Sample.world; ticks := 1; log := [] |}
              Sample.playlist [Sample.page1; Sample.page2])
    as (_ & Hlen & _ & Hrun).
  - reflexivity.
  - reflexivity.
  - exact sample_walk.
  - simpl. lia.
  - split; [by rewrite <- Hlen|].
    destruct Hrun as (r & w' & Hr & Ht).
    + simpl. lia.
    + simpl. lia.
    + exact sample_well_formed.
    + exact sample_cooperative.
    + by exists r, w'.
Defined.

(** ** Tracks without artists *)

Lemma collect_artist_ids_length tracks artistIds ids :
  collect_artist_ids tracks artistIds = Returned ids ->
  length ids <= length artistIds + length (artist_credits tracks).
Proof.
  revert artistIds. induction tracks as [|t tracks IH]; intros artistIds; cbn [collect_artist_ids].
  - intros [= <-]. lia.
  - unfold artist_credits. cbn [flat_map]. rewrite length_app.
    destruct (t_artists t) as [artists|]; cbn [default].
    + destruct (push_artist_ids_cases artists artistIds) as [[_ ->]|[_ ->]]; [|done].
      cbn [and_then]. intros H%IH. rewrite length_app, length_map in H.
      unfold artist_credits in H. simpl. lia.
    + intros H%IH. unfold artist_credits in H. simpl. lia.
Qed.

Lemma bind_ends {A B} (c : M A) (k : A -> M B) w :
  fst (c w) <> OutOfFuel ->
  (forall a w1, c w = (Returned a, w1) -> fst (k a w1) <> OutOfFuel) ->
  fst (bind c k w) <> OutOfFuel.
Proof.
  unfold bind. destruct (c w) as [[a|e|] w1]; simpl; [|done..]. intros _ H. by apply H.
Qed.

Lemma batch_loop_ends_audio fuel up auth ids acc w :
  Forall (fun v => Js.truthy v = true) ids -> length ids <= fuel ->
  fst (audio_features_loop fuel up auth ids 0 acc w) <> OutOfFuel.
Proof.
  intros Ht Hf. rewrite audio_features_loop_batch.
  destruct (batch_loop_chunks 100 (audio_features_step up auth)
              (fun c => GetAudioFeatures c auth) ids fuel acc w)
    as (cs & _ & _ & _ & _ & Hnf & _);
    [lia|done|intros; apply audio_features_step_log|done|done].
Qed.

Lemma batch_loop_ends_artists fuel up auth ids acc w :
  Forall (fun v => Js.truthy v = true) ids -> length ids <= fuel ->
  fst (artists_loop fuel up auth ids 0 acc w) <> OutOfFuel.
Proof.
  intros Ht Hf. rewrite artists_loop_batch.
  destruct (batch_loop_chunks 50 (artists_step up auth)
              (fun c => GetArtists c auth) ids fuel acc w)
    as (cs & _ & _ & _ & _ & Hnf & _);
    [lia|done|intros; apply artists_step_log|done|done].
Qed.

(** With enough fuel the route runs to a result or to an error. *)
Lemma analyze_with_token_ends fuel up playlistId token w pages :
  PageWalk up (bearer token) (Some (first_page_url playlistId)) pages ->
  length pages <= fuel ->
  length (retrieved pages) <= fuel ->
  length (artist_credits (retrieved pages)) <= fuel ->
  fst (analyze_with_token fuel up playlistId token w) <> OutOfFuel.
Proof.
  intros Hwalk Hpages Htracks Hcredits. unfold analyze_with_token.
  apply bind_ends. { unfold axios. by destruct (get_playlist up _ _). }
  intros pl w1 _. apply bind_ends. { by rewrite (tracks_loop_walk _ _ _ _ pages). }
  intros tracks w2. rewrite (tracks_loop_walk _ _ _ _ pages) by done.
  intros [= <- _]. try rewrite app_nil_l. apply bind_ends.
  { unfold lift. simpl. by destruct (collect_artist_ids_cases (retrieved pages) [])
      as [[ids ->]| ->]. }
  intros ids w3 [Hids ->]%lift_inv. apply bind_ends.
  { apply batch_loop_ends_audio; [apply List_filter_Forall|].
    pose proof (trackIds_length (retrieved pages)). lia. }
  intros afs w4 _. apply bind_ends.
  { apply batch_loop_ends_artists; [apply List_filter_Forall|].
    pose proof (uniqueArtistIds_length ids).
    apply collect_artist_ids_length in Hids. simpl in Hids. lia. }
  intros amap w5 _. unfold lift. simpl.
  by destruct (aggregate_cases pl (retrieved pages) afs amap) as [[r ->]|[p ->]].
Qed.

Lemma visit_tracks_missing_artists audioFeatures tracks st t :
  t ∈ tracks -> t_artists t = None ->
  exists property, visit_tracks audioFeatures tracks st = Thrown (TypeError property).
Proof.
  intros Hin Ht.
  destruct (visit_tracks_cases audioFeatures tracks st) as [[st' H]|(p & _ & H)];
    [|by exists p].
  apply visit_tracks_Returned in H as [Hf _].
  apply (proj1 (Forall_forall _ _) Hf) in Hin as [names Hn].
  unfold joined_artist_names in Hn. by rewrite Ht in Hn.
Qed.

(** C9. The aggregation pass runs to its end only when every track has
    an [artists] array.  When a retrieved track has none, building its
    entry for the track ranking throws a [TypeError], although the
    artist count next to it takes a missing array for an empty one, and
    the route replies with status 500 and [analysis_failed]. *)
Theorem missing_artists_fails_analysis fuel up playlistId w token w1 pl pages t :
  ensureAccessToken up w = (Returned token, w1) ->
  get_playlist up (playlist_url playlistId) (bearer token) = Ok pl ->
  PageWalk up (bearer token) (Some (first_page_url playlistId)) pages ->
  length pages <= fuel ->
  length (retrieved pages) <= fuel ->
  length (artist_credits (retrieved pages)) <= fuel ->
  t ∈ retrieved pages ->
  t_artists t = None ->
  (forall audioFeatures st st',
      visit_tracks audioFeatures (retrieved pages) st <> Returned st')
  /\ (forall audioFeatures artistsMap, exists property,
        aggregate pl (retrieved pages) audioFeatures artistsMap = Thrown (TypeError property))
  /\ joined_artist_names t = Thrown (TypeError "map")
  /\ (forall counts, fold_left count_artist (default [] (t_artists t)) counts = counts)
  /\ exists detail w',
       analyze_route fuel up playlistId w
       = (Some {| status := 500; body := ErrorBody "analysis_failed" (Some detail) |}, w').
Proof.
  intros Htoken Hpl Hwalk Hpages Htracks Hcredits Hin Ht.
  assert (forall audioFeatures st, exists property,
             visit_tracks audioFeatures (retrieved pages) st = Thrown (TypeError property))
    as Hthrown by (intros; by eapply visit_tracks_missing_artists).
  split; [|split; [|split; [|split]]].
  - intros afs st st' H. destruct (Hthrown afs st) as [p Hp]. congruence.
  - intros afs amap. unfold aggregate. destruct (Hthrown afs initial_stats) as [p ->].
    by exists p.
  - unfold joined_artist_names. by rewrite Ht.
  - intros counts. by rewrite Ht.
  - pose proof (disciplined_analyze_with_token up fuel playlistId token w1) as (rqs & _ & Hrun).
    pose proof (analyze_with_token_ends fuel up playlistId token w1 pages
                  Hwalk Hpages Htracks Hcredits) as Hends.
    unfold analyze_route.
    destruct (analyze fuel up playlistId w) as [o w'] eqn:Hrun'.
    unfold analyze in Hrun'. rewrite (bind_Returned _ _ _ _ _ Htoken) in Hrun'.
    rewrite Hrun' in Hrun, Hends. simpl in Hrun, Hends.
    destruct o as [r|e|]; [|destruct Hrun as [[_ [p ->]]|(_ & _ & st & b & _ & _ & _ & ->)]|done].
    + exfalso. assert (analyze fuel up playlistId w = (Returned r, w')) as Hr.
      { unfold analyze. by rewrite (bind_Returned _ _ _ _ _ Htoken). }
      apply analyze_Returned in Hr
        as (token' & w1' & pl' & pages' & ids & afs & amap & Htoken' & _ & Hwalk' & _ & _ & Hagg).
      rewrite Htoken in Htoken'. injection Htoken' as <- <-.
      rewrite <- (PageWalk_unique _ _ _ _ _ Hwalk Hwalk') in Hagg.
      unfold aggregate in Hagg. destruct (Hthrown afs initial_stats) as [p Hp].
      by rewrite Hp in Hagg.
    + rewrite on_error_TypeError. by eexists _, _.
    + rewrite on_error_axios. by eexists _, _.
Qed.

Lemma missing_artists_fails_analysis_witness :
  joined_artist_names Sample.bare_track = Thrown (TypeError "map")
  /\ exists detail w',
       analyze_route 5 Sample.bare_upstream "p" Sample.world
       = (Some {| status := 500; body := ErrorBody "analysis_failed" (Some detail) |}, w').
Proof.
  destruct (missing_artists_fails_analysis 5 Sample.bare_upstream "p" Sample.world "tok"
              {| session := session Sample.world; ticks := 1; log := [] |}
              Sample.playlist
              [ {| p_items := [ {| i_track := Some Sample.bare_track |} ]; p_next := None |} ]
              Sample.bare_track)
    as (_ & _ & Hnames & _ & Hroute).
  - reflexivity.
  - reflexivity.
  - apply walk_page; [reflexivity..|]. by apply walk_end.
  - simpl. lia.
  - simpl. lia.
  - simpl. lia.
  - apply list_elem_of_here.
  - reflexivity.
  - split; [exact Hnames|exact Hroute].
Defined.

(** ** Two tracks of one artist, a third of another *)

Lemma truthy_Some s : s <> ""%string -> Js.truthy (Some s) = true.
Proof. intros H. simpl. by destruct (String.eqb_spec s ""). Qed.

(** The values of an object with two properties, in either order. *)
Lemma values_two {V} k1 k2 (v1 v2 : V) :
  Js.values [(k1, v1); (k2, v2)] = [v1; v2] \/ Js.values [(k1, v1); (k2, v2)] = [v2; v1].
Proof.
  unfold Js.values, Js.entries. simpl.
  destruct (Js.is_index k1), (Js.is_index k2); simpl; auto.
  destruct (_ <=? 0)%Z; auto.
Qed.

(** Whatever the identifiers of the two artists, [pop] is counted twice
    and [indie] once. *)
Lemma topGenres_two_artists ida idb recA recB :
  a_genres recA = Some ["pop"; "indie"]%string ->
  a_genres recB = Some ["pop"]%string ->
  topGenres [(ida, recA); (idb, recB)]
  = [ {| genre := "pop"; genre_count := 2 |}; {| genre := "indie"; genre_count := 1 |} ].
Proof.
  intros HA HB. unfold topGenres, genreCount.
  destruct (values_two ida idb recA recB) as [-> | ->];
    simpl; unfold count_genres; rewrite HA, HB; reflexivity.
Qed.

(** The artists loop on two identifiers: one request. *)
Lemma artists_loop_two fuel up auth ida idb recA recB w :
  0 < fuel -> ida <> ""%string -> idb <> ""%string -> ida <> idb ->
  get_artists up (artists_url (ida ++ "," ++ idb)) auth
  = Ok {| b_artists := Some [Some recA; Some recB] |} ->
  a_id recA = Some ida -> a_id recB = Some idb ->
  exists w',
    artists_loop fuel up auth [Some ida; Some idb] 0 [] w
    = (Returned [(ida, recA); (idb, recB)], w').
Proof.
  intros Hfuel Ha Hb Hab Hget HA HB. destruct fuel as [|fuel]; [lia|].
  cbn [artists_loop length Nat.ltb Nat.leb].
  change (Js.slice 0 (0 + 50) [Some ida; Some idb]) with [Some ida; Some idb].
  rewrite join_truthy; [|done|repeat constructor; by apply truthy_Some].
  change (Js.join "," [Some ida; Some idb]) with (ida ++ "," ++ idb)%string.
  unfold bind, axios. rewrite Hget. unfold lift. simpl.
  rewrite HA, HB. simpl.
  destruct (String.eqb_spec idb ida) as [->|_]; [done|].
  destruct fuel; simpl; by eexists.
Qed.



(** * Properties of the duration format *)

Local Open Scope string_scope.

Lemma read_digits_end s : ends_number s -> read_digits s = (Nil, s).
Proof.
  destruct s as [|c s]; [done|]. simpl. intros H.
  destruct (read_digits s) as [d rest]. by rewrite H.
Qed.

(** Reading the digits of a printed number gives the number back. *)
Lemma read_digits_print d rest :
  ends_number rest -> read_digits (NilEmpty.string_of_uint d ++ rest) = (d, rest).
Proof.
  intros Hrest. induction d; simpl; [by apply read_digits_end|..]; by rewrite IHd.
Qed.

Lemma string_of_Z_digits z :
  (0 <= z)%Z ->
  exists d, d <> Nil /\ Js.string_of_Z z = NilEmpty.string_of_uint d /\ Z.of_uint d = z.
Proof.
  intros Hz. destruct z as [|p|p]; [| |lia].
  - by exists (D0 Nil).
  - exists (Pos.to_uint p). pose proof (Unsigned.to_uint_nonnil p) as Hnn.
    split; [done|]. split.
    + unfold Js.string_of_Z. simpl. by destruct (Pos.to_uint p).
    + unfold Z.of_uint. by rewrite Unsigned.of_to.
Qed.

Lemma read_number_print z rest :
  (0 <= z)%Z -> ends_number rest ->
  read_number (Js.string_of_Z z ++ rest) = Some (z, rest).
Proof.
  intros Hz Hrest. destruct (string_of_Z_digits z Hz) as (d & Hd & -> & <-).
  unfold read_number. rewrite read_digits_print by done. by destruct d.
Qed.

Lemma append_assoc (a b c : string) : (a ++ b) ++ c = a ++ b ++ c.
Proof. induction a as [|x a IH]; [done|]. change (String x ((a ++ b) ++ c) = String x (a ++ b ++ c)). by f_equal. Qed.

(** C8. For a non-negative number of milliseconds, [formatDuration]
    floors to whole seconds and shows the hours, when there are any, then
    the minutes and the seconds, zero or not; read back, the string gives
    the hours, minutes and seconds that recombine to the same number of
    whole seconds. *)
Theorem formatDuration_round_trip ms :
  (0 <= ms)%Z ->
  let s := (ms / 1000)%Z in
  let h := (s / 3600)%Z in
  let m := (s mod 3600 / 60)%Z in
  let sec := (s mod 60)%Z in
  formatDuration ms
  = (if (0 <? h)%Z then Js.string_of_Z h ++ "h " else "")
    ++ Js.string_of_Z m ++ "m " ++ Js.string_of_Z sec ++ "s"
  /\ (0 <= h)%Z /\ (0 <= m < 60)%Z /\ (0 <= sec < 60)%Z
  /\ parse_duration (formatDuration ms) = Some (h, m, sec)
  /\ (h * 3600 + m * 60 + sec)%Z = (ms / 1000)%Z.
Proof.
  intros Hms s h m sec.
  assert (0 <= s)%Z as Hs by (apply Z.div_pos; lia).
  assert (0 <= h)%Z as Hh by (apply Z.div_pos; lia).
  assert (0 <= s mod 3600 < 3600)%Z as H3600 by (apply Z.mod_pos_bound; lia).
  assert (0 <= m < 60)%Z as Hm.
  { subst m. split; [apply Z.div_pos; lia|]. apply Z.div_lt_upper_bound; lia. }
  assert (0 <= sec < 60)%Z as Hsec by (apply Z.mod_pos_bound; lia).
  assert (formatDuration ms
          = (if (0 <? h)%Z then Js.string_of_Z h ++ "h " else "")
            ++ Js.string_of_Z m ++ "m " ++ Js.string_of_Z sec ++ "s") as Hfmt.
  { unfold formatDuration. fold s. rewrite !Z.rem_mod_nonneg by lia. done. }
  split; [done|]. split; [done|]. split; [done|]. split; [done|]. split.
  - rewrite Hfmt. unfold parse_duration. cbv zeta.
    assert (read_number (Js.string_of_Z m ++ "m " ++ Js.string_of_Z sec ++ "s")
            = Some (m, "m " ++ Js.string_of_Z sec ++ "s")) as Hmin.
    { apply read_number_print; [lia|]. by intros d. }
    assert (read_number (Js.string_of_Z sec ++ "s") = Some (sec, "s")) as Hsecs.
    { apply read_number_print; [lia|]. by intros d. }
    destruct (Z.ltb_spec 0 h) as [Hlt|Hle].
    + rewrite append_assoc, read_number_print; [|done|by intros d].
      change ("h " ++ ?x) with (String "h" (String " " x)). cbv iota beta zeta.
      rewrite Hmin. change ("m " ++ ?x) with (String "m" (String " " x)). cbv iota beta zeta.
      by rewrite Hsecs.
    + change ("" ++ ?x) with x.
      rewrite Hmin. change ("m " ++ ?x) with (String "m" (String " " x)). cbv iota beta zeta.
      rewrite Hsecs. do 3 f_equal. lia.
  - subst h m sec.
    pose proof (Z.div_mod s 3600 ltac:(lia)). pose proof (Z.div_mod (s mod 3600) 60 ltac:(lia)).
    assert ((s mod 3600) mod 60 = s mod 60)%Z as Hmm.
    { apply (Z.mod_unique_pos s 60 (60 * (s / 3600) + s mod 3600 / 60));
        [apply Z.mod_pos_bound; lia|lia]. }
    lia.
Qed.

Lemma formatDuration_round_trip_witness :
  formatDuration 3662999 = "1h 1m 2s"
  /\ parse_duration "1h 1m 2s" = Some (1, 1, 2)%Z
  /\ (1 * 3600 + 1 * 60 + 2)%Z = (3662999 / 1000)%Z.
Proof.
  destruct (formatDuration_round_trip 3662999) as (Hfmt & _ & _ & _ & Hparse & Hsum).
  - lia.
  - split; [exact Hfmt|]. split; [exact Hparse|exact Hsum].
Defined.

Local Open Scope list_scope.

(** * Further properties of the route *)

(** ** The session and the clock *)

Lemma frames_ret {A} (a : A) : frames (ret a).
Proof. by intros w. Qed.

Lemma frames_lift {A} (o : Outcome A) : frames (lift o).
Proof. by intros w. Qed.

Lemma frames_out_of_fuel {A} : frames (@out_of_fuel A).
Proof. by intros w. Qed.

Lemma frames_axios {A} rq (resp : HttpResp A) : frames (axios rq resp).
Proof. intros w. unfold axios. by destruct resp. Qed.

Lemma frames_bind {A B} (c : M A) (k : A -> M B) :
  frames c -> (forall a, frames (k a)) -> frames (bind c k).
Proof.
  intros Hc Hk w. unfold bind. destruct (Hc w) as [Hs Ht].
  destruct (c w) as [[a|e|] w1]; simpl in *; [|done..].
  destruct (Hk a w1) as [Hs' Ht']. by rewrite Hs', Ht'.
Qed.

Lemma frames_ext {A} (c c' : M A) : (forall w, c w = c' w) -> frames c' -> frames c.
Proof. intros H Hc w. rewrite H. apply Hc. Qed.

Lemma frames_tracks_loop fuel up auth next tracks :
  frames (tracks_loop fuel up auth next tracks).
Proof.
  revert next tracks. induction fuel as [|fuel IH]; intros next tracks; simpl.
  - destruct (Js.truthy next); [apply frames_out_of_fuel|apply frames_ret].
  - destruct (Js.truthy next); [|apply frames_ret].
    apply frames_bind; [apply frames_axios|]. intros tResp. apply IH.
Qed.

Lemma frames_batch_loop {S} size fuel (step : list (option string) -> S -> M S) ids i acc :
  (forall chunk acc, frames (step chunk acc)) ->
  frames (batch_loop size fuel step ids i acc).
Proof.
  intros Hstep. revert i acc. induction fuel as [|fuel IH]; intros i acc; simpl.
  - destruct (i <? length ids)%nat; [apply frames_out_of_fuel|apply frames_ret].
  - destruct (i <? length ids)%nat; [|apply frames_ret].
    destruct (String.eqb _ ""); [apply IH|].
    apply frames_bind; [apply Hstep|]. intros acc'. apply IH.
Qed.

(** From the token on, the route touches neither the session nor the
    clock. *)
Lemma frames_analyze_with_token fuel up playlistId token :
  frames (analyze_with_token fuel up playlistId token).
Proof.
  unfold analyze_with_token.
  apply frames_bind; [apply frames_axios|]. intros pl.
  apply frames_bind; [apply frames_tracks_loop|]. intros tracks.
  apply frames_bind; [apply frames_lift|]. intros artistIds.
  apply frames_bind.
  { eapply frames_ext; [apply audio_features_loop_batch|].
    apply frames_batch_loop. intros chunk acc. unfold audio_features_step.
    apply frames_bind; [apply frames_axios|]. intros. apply frames_ret. }
  intros audioFeatures. apply frames_bind.
  { eapply frames_ext; [apply artists_loop_batch|].
    apply frames_batch_loop. intros chunk acc. unfold artists_step.
    apply frames_bind; [apply frames_axios|]. intros. apply frames_lift. }
  intros artistsMap. apply frames_lift.
Qed.

(** ** The order of the requests *)

Lemma staged_silent lo hi Q {A} (c : M A) :
  (forall w, log (snd (c w)) = log w) -> staged lo hi Q c.
Proof.
  intros H w. exists []. rewrite app_nil_r. split; [done|]. split; constructor.
Qed.

Lemma staged_axios lo hi (Q : Request -> Prop) {A} rq (resp : HttpResp A) :
  lo <= stage_of rq <= hi -> Q rq -> staged lo hi Q (axios rq resp).
Proof.
  intros Hs HQ w. exists [rq]. split; [unfold axios; by destruct resp|].
  split; repeat constructor; done || lia.
Qed.

Lemma staged_weaken lo hi lo' hi' (Q : Request -> Prop) {A} (c : M A) :
  lo' <= lo -> hi <= hi' -> staged lo hi Q c -> staged lo' hi' Q c.
Proof.
  intros Hlo Hhi Hc w. destruct (Hc w) as (rqs & Hlog & Hf & Hs). exists rqs.
  split; [done|]. split; [|done]. eapply Forall_impl; [exact Hf|]. simpl. intros rq [? ?]. split; [lia|done].
Qed.

Lemma sorted_stages_app (l1 l2 : list Request) mid :
  Forall (fun rq => stage_of rq <= mid) l1 ->
  Forall (fun rq => mid <= stage_of rq) l2 ->
  StronglySorted le (map stage_of l1) ->
  StronglySorted le (map stage_of l2) ->
  StronglySorted le (map stage_of (l1 ++ l2)).
Proof.
  intros H1 H2 S1 S2. induction l1 as [|x l1 IH]; simpl in *; [done|].
  inversion H1 as [|? ? Hx H1']; subst. inversion S1 as [|? ? S1' Hx']; subst.
  constructor; [by apply IH|]. rewrite map_app. apply Forall_app. split; [done|].
  apply Forall_forall. intros n (rq & -> & Hin)%list_elem_of_fmap.
  apply (proj1 (Forall_forall _ _) H2) in Hin. lia.
Qed.

(** Stages follow one another. *)
Lemma staged_bind lo mid hi (Q : Request -> Prop) {A B} (c : M A) (k : A -> M B) :
  lo <= mid <= hi ->
  staged lo mid Q c -> (forall a, staged mid hi Q (k a)) -> staged lo hi Q (bind c k).
Proof.
  intros Hm Hc Hk w. unfold bind. destruct (Hc w) as (rqs1 & Hlog1 & Hf1 & Hs1).
  destruct (c w) as [[a|e|] w1]; simpl in *.
  - destruct (Hk a w1) as (rqs2 & Hlog2 & Hf2 & Hs2). exists (rqs1 ++ rqs2).
    rewrite Hlog2, Hlog1, app_assoc. split; [done|]. split.
    + apply Forall_app.
      split; (eapply Forall_impl; [eassumption|]); simpl; intros rq [? ?]; (split; [lia|done]).
    + apply (sorted_stages_app _ _ mid); try done;
        (eapply Forall_impl; [eassumption|]); simpl; intros rq [? ?]; lia.
  - exists rqs1. split; [done|]. split; [|done].
    eapply Forall_impl; [exact Hf1|]. simpl. intros rq [? ?]. split; [lia|done].
  - exists rqs1. split; [done|]. split; [|done].
    eapply Forall_impl; [exact Hf1|]. simpl. intros rq [? ?]. split; [lia|done].
Qed.

Lemma staged_ext lo hi Q {A} (c c' : M A) :
  (forall w, c w = c' w) -> staged lo hi Q c' -> staged lo hi Q c.
Proof. intros H Hc w. rewrite H. apply Hc. Qed.

Lemma staged_tracks_loop (Q : Request -> Prop) fuel up auth next tracks :
  (forall url, Q (GetTracks url auth)) ->
  staged 2 2 Q (tracks_loop fuel up auth next tracks).
Proof.
  intros HQ. revert next tracks. induction fuel as [|fuel IH]; intros next tracks; simpl.
  - destruct (Js.truthy next); by apply staged_silent.
  - destruct (Js.truthy next); [|by apply staged_silent].
    apply (staged_bind 2 2 2); [lia| |intros; apply IH].
    apply staged_axios; [simpl; lia|apply HQ].
Qed.

Lemma staged_batch_loop n (Q : Request -> Prop) {S} size fuel
    (step : list (option string) -> S -> M S) ids i acc :
  (forall chunk acc, staged n n Q (step chunk acc)) ->
  staged n n Q (batch_loop size fuel step ids i acc).
Proof.
  intros Hstep. revert i acc. induction fuel as [|fuel IH]; intros i acc; simpl.
  - destruct (i <? length ids)%nat; by apply staged_silent.
  - destruct (i <? length ids)%nat; [|by apply staged_silent].
    destruct (String.eqb _ ""); [apply IH|].
    apply (staged_bind n n n); [lia|apply Hstep|intros; apply IH].
Qed.

(** After the request for the playlist, the pages, then the audio
    features, then the artists, all under the same header. *)
Lemma analyze_with_token_requests fuel up playlistId token w :
  exists tail,
    log (snd (analyze_with_token fuel up playlistId token w))
    = log w ++ GetPlaylist (playlist_url playlistId) (bearer token) :: tail
    /\ Forall (fun rq => 2 <= stage_of rq <= 4
                         /\ authorization_of rq = Some (bearer token)) tail
    /\ StronglySorted le (map stage_of tail).
Proof.
  unfold analyze_with_token, bind at 1, axios.
  destruct (get_playlist up _ _) as [pl|st b]; [|by exists []; repeat constructor].
  set (w1 := {| session := session w; ticks := ticks w; log := _ |}).
  set (Q := fun rq => authorization_of rq = Some (bearer token)).
  assert (staged 2 4 Q
            (let! tracks := tracks_loop fuel up (bearer token)
                              (Some (first_page_url playlistId)) [] in
             let! artistIds := lift (collect_artist_ids tracks []) in
             let! audioFeatures :=
               audio_features_loop fuel up (bearer token) (trackIds tracks) 0 [] in
             let! artistsMap :=
               artists_loop fuel up (bearer token) (uniqueArtistIds artistIds) 0 [] in
             lift (aggregate pl tracks audioFeatures artistsMap))) as Hst.
  { apply (staged_bind 2 2 4); [lia|by apply staged_tracks_loop|]. intros tracks.
    apply (staged_bind 2 2 4); [lia|by apply staged_silent|]. intros artistIds.
    apply (staged_bind 2 3 4); [lia| |].
    { eapply staged_ext; [apply audio_features_loop_batch|].
      apply (staged_weaken 3 3); [lia..|]. apply staged_batch_loop. intros chunk acc.
      unfold audio_features_step. apply (staged_bind 3 3 3); [lia| |].
      - apply staged_axios; [simpl; lia|done].
      - intros. by apply staged_silent. }
    intros audioFeatures. apply (staged_bind 3 4 4); [lia| |].
    { eapply staged_ext; [apply artists_loop_batch|].
      apply (staged_weaken 4 4); [lia..|]. apply staged_batch_loop. intros chunk acc.
      unfold artists_step. apply (staged_bind 4 4 4); [lia| |].
      - apply staged_axios; [simpl; lia|done].
      - intros. by apply staged_silent. }
    intros artistsMap. by apply staged_silent. }
  destruct (Hst w1) as (tail & Hlog & Hf & Hs). exists tail.
  split; [|done]. rewrite Hlog. subst w1. simpl. by rewrite <- app_assoc.
Qed.

(** ** The token *)

Lemma truthy_interpolate v : Js.truthy v = true -> v = Some (Js.interpolate v).
Proof. by destruct v. Qed.

Lemma ensureAccessToken_no_token up w :
  no_token w -> ensureAccessToken up w = (Thrown (Error "not_authenticated"), w).
Proof.
  unfold no_token, ensureAccessToken, bind, get_session. simpl.
  destruct (session w) as [sess|]; [|done]. by intros ->.
Qed.

Lemma ensureAccessToken_fresh up w token :
  token_fresh up w token ->
  ensureAccessToken up w
  = (Returned token, {| session := session w; ticks := S (ticks w); log := log w |}).
Proof.
  intros (sess & Hs & Ht & Hne & Hnow).
  unfold ensureAccessToken, bind, get_session, Date_now. simpl. rewrite Hs, Ht. simpl.
  destruct (String.eqb_spec token ""); [done|]. simpl.
  destruct (Z.ltb_spec (date_now up (ticks w)) (Js.num_or (expires_in sess) 0 - 5000));
    [|lia]. unfold ret. by rewrite Hs.
Qed.

Lemma ensureAccessToken_stale up w sess :
  token_stale up w sess ->
  ensureAccessToken up w
  = match post_token up (refresh_token sess) with
    | Ok td =>
        (Returned (td_access_token td),
         {| session :=
              Some {| access_token := Some (td_access_token td);
                      refresh_token := refresh_token sess;
                      expires_in :=
                        Some (date_now up (S (ticks w))
                              + Js.num_or (td_expires_in td) 3600 * 1000)%Z |};
            ticks := S (S (ticks w));
            log := log w ++ [PostToken (refresh_token sess)] |})
    | Fail st b =>
        (Thrown (axios_error st b),
         {| session := session w; ticks := S (ticks w);
            log := log w ++ [PostToken (refresh_token sess)] |})
    end.
Proof.
  intros (Hs & Ht & Hnow).
  unfold ensureAccessToken, bind, get_session, Date_now, axios, set_session. simpl.
  rewrite Hs, Ht. simpl.
  destruct (Z.ltb_spec (date_now up (ticks w)) (Js.num_or (expires_in sess) 0 - 5000));
    [lia|]. destruct (post_token up (refresh_token sess)); simpl; [done|]. by rewrite Hs.
Qed.

(** A session has no token, a fresh one or a stale one. *)
Lemma token_cases up w :
  no_token w \/ (exists token, token_fresh up w token) \/ (exists sess, token_stale up w sess).
Proof.
  unfold no_token, token_fresh, token_stale. destruct (session w) as [sess|]; [|by left].
  destruct (Js.truthy (access_token sess)) eqn:Ht; [|by left]. right.
  destruct (Z.ltb_spec (date_now up (ticks w)) (Js.num_or (expires_in sess) 0 - 5000)).
  - left. destruct (access_token sess) as [token|] eqn:Ha; [|done]. exists token, sess.
    repeat split; try done. intros ->. done.
  - right. by exists sess.
Qed.

Lemma issued_log {A} (c : M A) w rqs :
  log (snd (c w)) = log w ++ rqs -> issued c w = rqs.
Proof. intros H. unfold issued. by rewrite H, drop_app_length. Qed.

(** The outcome of the route when the token is there. *)
Lemma analyze_with_token_reply fuel up playlistId token w w1 :
  ensureAccessToken up w = (Returned token, w1) ->
  analyze fuel up playlistId w = analyze_with_token fuel up playlistId token w1
  /\ forall reply, fst (analyze_route fuel up playlistId w) = Some reply -> status reply <> 401%Z.
Proof.
  intros Htoken.
  assert (analyze fuel up playlistId w = analyze_with_token fuel up playlistId token w1) as Hrun.
  { unfold analyze. by rewrite (bind_Returned _ _ _ _ _ Htoken). }
  split; [done|]. intros reply. unfold analyze_route. rewrite Hrun.
  destruct (disciplined_analyze_with_token up fuel playlistId token w1) as (rqs & _ & Ho).
  destruct (analyze_with_token fuel up playlistId token w1) as [[r|e|] w']; simpl in *.
  - by intros [= <-].
  - destruct Ho as [[_ [p ->]]|(_ & _ & st & b & _ & _ & _ & ->)].
    + rewrite on_error_TypeError. by intros [= <-].
    + rewrite on_error_axios. by intros [= <-].
  - done.
Qed.

(** X2. The route replies [not_authenticated], with status 401, exactly
    when the session holds no token; it then issues no request and leaves
    the session alone. *)
Theorem not_authenticated_iff_no_token fuel up playlistId w :
  (no_token w ->
   analyze_route fuel up playlistId w
   = (Some {| status := 401; body := ErrorBody "not_authenticated" None |}, w))
  /\ (forall reply,
        fst (analyze_route fuel up playlistId w) = Some reply ->
        status reply = 401%Z -> no_token w).
Proof.
  split; [apply missing_token_not_authenticated|].
  intros reply Hreply H401.
  destruct (token_cases up w) as [Hno|[[token Hf]|[sess Hs]]]; [done|..]; exfalso.
  - apply ensureAccessToken_fresh in Hf.
    by destruct (analyze_with_token_reply fuel up playlistId token w _ Hf) as [_ H];
      apply (H reply).
  - apply ensureAccessToken_stale in Hs.
    destruct (post_token up (refresh_token sess)) as [td|st b].
    + by destruct (analyze_with_token_reply fuel up playlistId _ w _ Hs) as [_ H];
        apply (H reply).
    + unfold analyze_route, analyze, bind in Hreply. rewrite Hs in Hreply.
      rewrite on_error_axios in Hreply. injection Hreply as <-. done.
Qed.

(** X1. Whatever happens, the requests of an invocation come in the order
    of the stages: at most one token refresh, then the request for the
    playlist, then the pages of tracks, then the audio-feature batches,
    then the artist batches; the requests to the API all carry the same
    bearer token. *)
Theorem requests_follow_the_stages fuel up playlistId w :
  exists pre rest,
    issued (analyze fuel up playlistId) w = pre ++ rest
    /\ (pre = [] \/ exists rt, pre = [PostToken rt])
    /\ (rest = []
        \/ exists token tail,
             rest = GetPlaylist (playlist_url playlistId) (bearer token) :: tail
             /\ Forall (fun rq => 2 <= stage_of rq <= 4
                                  /\ authorization_of rq = Some (bearer token)) tail
             /\ StronglySorted le (map stage_of tail)).
Proof.
  assert (forall token w1 pre,
             ensureAccessToken up w = (Returned token, w1) ->
             log w1 = log w ++ pre ->
             exists rest,
               issued (analyze fuel up playlistId) w = pre ++ rest
               /\ (rest = []
                   \/ exists token tail,
                     rest = GetPlaylist (playlist_url playlistId) (bearer token) :: tail
                     /\ Forall (fun rq => 2 <= stage_of rq <= 4
                                  /\ authorization_of rq = Some (bearer token)) tail
                     /\ StronglySorted le (map stage_of tail))) as Hwith.
  { intros token w1 pre Htoken Hpre.
    destruct (analyze_with_token_requests fuel up playlistId token w1) as (tail & Hlog & Hf & Hs).
    exists (GetPlaylist (playlist_url playlistId) (bearer token) :: tail). split.
    - apply issued_log. unfold analyze. rewrite (bind_Returned _ _ _ _ _ Htoken).
      by rewrite Hlog, Hpre, <- app_assoc.
    - right. by exists token, tail. }
  destruct (token_cases up w) as [Hno|[[token Hf]|[sess Hs]]].
  - exists [], []. split; [|by split; left]. apply issued_log.
    unfold analyze, bind. rewrite ensureAccessToken_no_token by done. simpl.
    by rewrite app_nil_r.
  - apply ensureAccessToken_fresh in Hf.
    destruct (Hwith token _ [] Hf) as (rest & Hi & Hr); [simpl; by rewrite app_nil_r|].
    exists [], rest. split; [done|]. split; [by left|done].
  - apply ensureAccessToken_stale in Hs.
    destruct (post_token up (refresh_token sess)) as [td|st b].
    + destruct (Hwith _ _ [PostToken (refresh_token sess)] Hs) as (rest & Hi & Hr); [done|].
      exists [PostToken (refresh_token sess)], rest. split; [done|].
      split; [right; by eexists|done].
    + exists [PostToken (refresh_token sess)], []. split; [|split; [right; by eexists|by left]].
      apply issued_log. unfold analyze, bind. by rewrite Hs.
Qed.

Lemma Forall_authorization token (tail : list Request) :
  Forall (fun rq => 2 <= stage_of rq <= 4 /\ authorization_of rq = Some (bearer token)) tail ->
  Forall (fun rq => authorization_of rq = Some (bearer token)) tail.
Proof. intros H. eapply Forall_impl; [exact H|]. by intros rq [_ ?]. Qed.

(** What follows the token: the session and the clock stay as the token
    left them, and the requests start with the playlist. *)
Lemma analyze_after_token fuel up playlistId w token w1 pre :
  ensureAccessToken up w = (Returned token, w1) ->
  log w1 = log w ++ pre ->
  session (snd (analyze fuel up playlistId w)) = session w1
  /\ ticks (snd (analyze fuel up playlistId w)) = ticks w1
  /\ exists tail,
       issued (analyze fuel up playlistId) w
       = pre ++ GetPlaylist (playlist_url playlistId) (bearer token) :: tail
       /\ Forall (fun rq => authorization_of rq = Some (bearer token)) tail.
Proof.
  intros Htoken Hpre.
  assert (analyze fuel up playlistId w = analyze_with_token fuel up playlistId token w1) as Hrun.
  { unfold analyze. by rewrite (bind_Returned _ _ _ _ _ Htoken). }
  rewrite Hrun.
  destruct (frames_analyze_with_token fuel up playlistId token w1) as [Hs Ht].
  split; [done|]. split; [done|].
  destruct (analyze_with_token_requests fuel up playlistId token w1) as (tail & Hlog & Hf & _).
  exists tail. split; [|by apply Forall_authorization].
  apply issued_log. by rewrite Hrun, Hlog, Hpre, <- app_assoc.
Qed.

(** X3. With a token that is more than five seconds from its expiry the
    route does not refresh it: the session is left as it is, the clock is
    read once, and every request, the first of which asks for the
    playlist, carries this token. *)
Theorem fresh_token_is_used_as_is fuel up playlistId w token :
  token_fresh up w token ->
  session (snd (analyze fuel up playlistId w)) = session w
  /\ ticks (snd (analyze fuel up playlistId w)) = S (ticks w)
  /\ exists tail,
       issued (analyze fuel up playlistId) w
       = GetPlaylist (playlist_url playlistId) (bearer token) :: tail
       /\ Forall (fun rq => authorization_of rq = Some (bearer token)) tail.
Proof.
  intros Hf. apply ensureAccessToken_fresh in Hf.
  apply (analyze_after_token fuel up playlistId w token _ [] Hf). simpl. by rewrite app_nil_r.
Qed.

Lemma fresh_token_is_used_as_is_witness :
  session (snd (analyze 5 Sample.upstream "p" Sample.world)) = session Sample.world
  /\ ticks (snd (analyze 5 Sample.upstream "p" Sample.world)) = 1
  /\ exists tail,
       issued (analyze 5 Sample.upstream "p") Sample.world
       = GetPlaylist (playlist_url "p") (bearer "tok") :: tail
       /\ Forall (fun rq => authorization_of rq = Some (bearer "tok")) tail.
Proof.
  apply (fresh_token_is_used_as_is 5 Sample.upstream "p" Sample.world "tok").
  eexists. split; [reflexivity|]. split; [reflexivity|]. split; [discriminate|].
  vm_compute. reflexivity.
Defined.

(** X4. A token that is within five seconds of its expiry, or past it, is
    refreshed before anything else: the first request is the one for a
    new token, and once it is granted the session holds the new token,
    the refresh token it had, and the expiry computed from a second
    reading of the clock with 3600 seconds where the grant names no
    lifetime; this holds whatever becomes of the analysis.  The requests
    that follow carry the new token. *)
Theorem stale_token_is_refreshed_first fuel up playlistId w sess td :
  token_stale up w sess ->
  post_token up (refresh_token sess) = Ok td ->
  session (snd (analyze fuel up playlistId w))
  = Some {| access_token := Some (td_access_token td);
            refresh_token := refresh_token sess;
            expires_in :=
              Some (date_now up (S (ticks w)) + Js.num_or (td_expires_in td) 3600 * 1000)%Z |}
  /\ ticks (snd (analyze fuel up playlistId w)) = S (S (ticks w))
  /\ exists tail,
       issued (analyze fuel up playlistId) w
       = PostToken (refresh_token sess)
         :: GetPlaylist (playlist_url playlistId) (bearer (td_access_token td)) :: tail
       /\ Forall (fun rq => authorization_of rq = Some (bearer (td_access_token td))) tail.
Proof.
  intros Hs Hpost. apply ensureAccessToken_stale in Hs. rewrite Hpost in Hs.
  apply (analyze_after_token fuel up playlistId w _ _ [PostToken (refresh_token sess)] Hs).
  done.
Qed.

Lemma stale_token_is_refreshed_first_witness :
  session (snd (analyze 5 Sample.upstream "p" Fixture.stale_world))
  = Some {| access_token := Some "fresh"; refresh_token := Some "r";
            expires_in := Some 3601000%Z |}
  /\ ticks (snd (analyze 5 Sample.upstream "p" Fixture.stale_world)) = 2
  /\ exists tail,
       issued (analyze 5 Sample.upstream "p") Fixture.stale_world
       = PostToken (Some "r") :: GetPlaylist (playlist_url "p") (bearer "fresh") :: tail
       /\ Forall (fun rq => authorization_of rq = Some (bearer "fresh")) tail.
Proof.
  apply (stale_token_is_refreshed_first 5 Sample.upstream "p" Fixture.stale_world
           {| access_token := Some "old"; refresh_token := Some "r"; expires_in := Some 500%Z |}
           {| td_access_token := "fresh"; td_expires_in := None |}).
  - split; [reflexivity|]. split; [reflexivity|]. vm_compute. discriminate.
  - reflexivity.
Defined.

(** X5. When the refresh is refused the route replies
    [analysis_failed] with status 500, not [not_authenticated]; the
    detail is the body of the refusal, or the message of the error when
    the body is empty.  The session keeps the stale token and nothing is
    asked of the API. *)
Theorem refused_refresh_is_analysis_failed fuel up playlistId w sess st b :
  token_stale up w sess ->
  post_token up (refresh_token sess) = Fail st b ->
  analyze_route fuel up playlistId w
  = (Some {| status := 500;
             body := ErrorBody "analysis_failed"
                       (Some (if Js.truthy b then Js.interpolate b
                              else ("Request failed with status code "
                                    ++ Js.string_of_Z st)%string)) |},
     {| session := session w; ticks := S (ticks w);
        log := log w ++ [PostToken (refresh_token sess)] |}).
Proof.
  intros Hs Hpost. apply ensureAccessToken_stale in Hs. rewrite Hpost in Hs.
  unfold analyze_route, analyze, bind. rewrite Hs. by rewrite on_error_axios.
Qed.

Lemma refused_refresh_is_analysis_failed_witness :
  analyze_route 5 Fixture.no_refresh_upstream "p" Fixture.stale_world
  = (Some {| status := 500; body := ErrorBody "analysis_failed" (Some "invalid_grant") |},
     {| session := session Fixture.stale_world; ticks := 1;
        log := [PostToken (Some "r")] |}).
Proof.
  apply (refused_refresh_is_analysis_failed 5 Fixture.no_refresh_upstream "p"
           Fixture.stale_world
           {| access_token := Some "old"; refresh_token := Some "r"; expires_in := Some 500%Z |}
           400%Z (Some "invalid_grant")).
  - split; [reflexivity|]. split; [reflexivity|]. vm_compute. discriminate.
  - reflexivity.
Defined.

(** ** The requests of a run that returns *)

Lemma collect_artist_ids_spec tracks artistIds :
  (no_null_credit tracks
   /\ collect_artist_ids tracks artistIds = Returned (artistIds ++ credit_ids tracks))
  \/ (~ no_null_credit tracks
      /\ collect_artist_ids tracks artistIds = Thrown (TypeError "id")).
Proof.
  unfold no_null_credit, credit_ids, artist_credits.
  revert artistIds. induction tracks as [|t tracks IH]; intros artistIds;
    cbn [collect_artist_ids flat_map].
  - left. split; [constructor|]. simpl. by rewrite app_nil_r.
  - destruct (t_artists t) as [artists|] eqn:Ha; cbn [default].
    + destruct (push_artist_ids_cases artists artistIds) as [[Hf ->]|[Hf ->]]; cbn [and_then].
      * destruct (IH (artistIds ++ map (fun a => a ≫= ar_id) artists)) as [[H ->]|[H ->]].
        -- left. split; [constructor; [by rewrite Ha|done]|].
           by rewrite map_app, app_assoc.
        -- right. split; [|done]. intros Hall. apply H. by inversion Hall.
      * right. split; [|done]. intros Hall. apply Hf. inversion Hall as [|? ? H1 _]; subst.
        by rewrite Ha in H1.
    + destruct (IH artistIds) as [[H ->]|[H ->]].
      * left. split; [constructor; [rewrite Ha; constructor|done]|]. done.
      * right. split; [|done]. intros Hall. apply H. by inversion Hall.
Qed.

Section BatchLoopReturned.
Context {S : Type} (size : nat) (step : list (option string) -> S -> M S).
Context (mk : list (option string) -> Request) (ids : list (option string)).
Hypothesis size_pos : 0 < size.
Hypothesis ids_truthy : Forall (fun v => Js.truthy v = true) ids.
Hypothesis step_log :
  forall chunk acc w, log (snd (step chunk acc w)) = log w ++ [mk chunk].

(** A loop that returns has issued one request per chunk, whatever fuel
    it was given. *)
Lemma batch_loop_Returned fuel i acc w m w' :
  batch_loop size fuel step ids i acc w = (Returned m, w') ->
  log w' = log w ++ map mk (chunks size (drop i ids)).
Proof using size_pos ids_truthy step_log.
  revert i acc w. induction fuel as [|fuel IH]; intros i acc w;
    cbn [batch_loop]; destruct (Nat.ltb_spec i (length ids)) as [Hlt|Hge]; try done.
  - intros [= _ <-]. rewrite drop_ge by lia. simpl. by rewrite app_nil_r.
  - assert (drop i ids <> []) as Hne.
    { intros E. apply (f_equal length) in E. rewrite length_drop in E. simpl in E. lia. }
    assert (Js.slice i (i + size) ids = take size (drop i ids)) as Hslice.
    { unfold Js.slice. f_equal. lia. }
    rewrite Hslice, join_truthy, (chunks_cons size (drop i ids)), drop_drop; try done.
    2:{ intros E. apply Hne. destruct (drop i ids); [done|]. destruct size; [lia|done]. }
    2:{ apply Forall_take, Forall_drop, ids_truthy. }
    unfold bind. pose proof (step_log (take size (drop i ids)) acc w) as Hlog.
    destruct (step (take size (drop i ids)) acc w) as [[acc'|e|] w1]; simpl in *; try done.
    intros H%IH. by rewrite H, Hlog, <- app_assoc.
  - intros [= _ <-]. rewrite drop_ge by lia. simpl. by rewrite app_nil_r.
Qed.
End BatchLoopReturned.

Lemma ensureAccessToken_Returned up w token w1 :
  ensureAccessToken up w = (Returned token, w1) ->
  exists pre, log w1 = log w ++ pre /\ (pre = [] \/ exists rt, pre = [PostToken rt]).
Proof.
  intros H. destruct (token_cases up w) as [Hno|[[token' Hf]|[sess Hs]]].
  - by rewrite ensureAccessToken_no_token in H.
  - rewrite (ensureAccessToken_fresh _ _ _ Hf) in H. injection H as _ <-.
    exists []. simpl. rewrite app_nil_r. by split; [|left].
  - rewrite (ensureAccessToken_stale _ _ _ Hs) in H.
    destruct (post_token up (refresh_token sess)); [|done]. injection H as _ <-.
    eexists. split; [done|]. right. by eexists.
Qed.

Lemma analyze_with_token_trace fuel up playlistId token w r w' :
  analyze_with_token fuel up playlistId token w = (Returned r, w') ->
  exists pages,
    PageWalk up (bearer token) (Some (first_page_url playlistId)) pages
    /\ length pages <= fuel
    /\ no_null_credit (retrieved pages)
    /\ log w' = log w ++ full_trace playlistId token pages.
Proof.
  unfold analyze_with_token. intros H.
  apply bind_inv in H as (pl & w2 & Hpl & H).
  assert (log w2 = log w ++ [GetPlaylist (playlist_url playlistId) (bearer token)]) as Hw2.
  { unfold axios in Hpl. destruct (get_playlist up _ _); [|done]. by injection Hpl as _ <-. }
  apply bind_inv in H as (tracks & w3 & Htracks & H).
  destruct (tracks_loop_Returned _ _ _ _ _ _ _ _ Htracks) as (pages & Hwalk & Hfuel & ->).
  rewrite (tracks_loop_walk _ _ _ _ _ _ _ Hwalk Hfuel) in Htracks. injection Htracks as <-.
  simpl in H.
  apply bind_inv in H as (artistIds & w4 & Hids & H).
  apply lift_inv in Hids as [Hids ->].
  destruct (collect_artist_ids_spec (retrieved pages) []) as [[Hnn Hc]|[_ Hc]];
    rewrite Hc in Hids; [|done]. injection Hids as <-. simpl in H.
  apply bind_inv in H as (audioFeatures & w5 & Haf & H).
  rewrite audio_features_loop_batch in Haf.
  apply (batch_loop_Returned 100 _ (fun c => GetAudioFeatures c (bearer token))) in Haf;
    [|lia|apply List_filter_Forall|intros; apply audio_features_step_log].
  apply bind_inv in H as (artistsMap & w6 & Ham & H).
  rewrite artists_loop_batch in Ham.
  apply (batch_loop_Returned 50 _ (fun c => GetArtists c (bearer token))) in Ham;
    [|lia|apply List_filter_Forall|intros; apply artists_step_log].
  apply lift_inv in H as [_ ->].
  exists pages. split; [done|]. split; [done|]. split; [done|].
  rewrite Ham, Haf. cbn [log]. rewrite Hw2. unfold full_trace.
  rewrite !drop_0. by rewrite <- !app_assoc.
Qed.

Lemma analyze_trace fuel up playlistId w r w' :
  analyze fuel up playlistId w = (Returned r, w') ->
  exists token pre pages,
    (pre = [] \/ exists rt, pre = [PostToken rt])
    /\ PageWalk up (bearer token) (Some (first_page_url playlistId)) pages
    /\ length pages <= fuel
    /\ no_null_credit (retrieved pages)
    /\ issued (analyze fuel up playlistId) w = pre ++ full_trace playlistId token pages.
Proof.
  intros H. pose proof H as H0. unfold analyze in H.
  apply bind_inv in H as (token & w1 & Htoken & H).
  destruct (ensureAccessToken_Returned _ _ _ _ Htoken) as (pre & Hpre & Hcases).
  destruct (analyze_with_token_trace _ _ _ _ _ _ _ H) as (pages & Hwalk & Hfuel & Hnn & Hlog).
  exists token, pre, pages. repeat (split; [done|]).
  apply issued_log. rewrite H0. simpl. by rewrite Hlog, Hpre, <- app_assoc.
Qed.

(** X6. An analysis that is returned has issued exactly these requests,
    in this order: the token refresh if one was due, the playlist, one
    request per page up to the page without a cursor, one request per
    chunk of 100 of the truthy track identifiers, one request per chunk
    of 50 of the distinct truthy artist identifiers. *)
Theorem returned_analysis_requests fuel up playlistId w :
  returns (analyze fuel up playlistId) w ->
  exists token pre pages,
    (pre = [] \/ exists rt, pre = [PostToken rt])
    /\ PageWalk up (bearer token) (Some (first_page_url playlistId)) pages
    /\ issued (analyze fuel up playlistId) w
       = pre ++ GetPlaylist (playlist_url playlistId) (bearer token)
         :: page_requests (bearer token) (Some (first_page_url playlistId)) pages
         ++ map (fun c => GetAudioFeatures c (bearer token))
                (chunks 100 (trackIds (retrieved pages)))
         ++ map (fun c => GetArtists c (bearer token))
                (chunks 50 (uniqueArtistIds (credit_ids (retrieved pages)))).
Proof.
  intros [r H]. destruct (analyze fuel up playlistId w) as [o w'] eqn:E. simpl in H. subst o.
  destruct (analyze_trace _ _ _ _ _ _ E) as (token & pre & pages & ? & ? & _ & _ & ?).
  by exists token, pre, pages.
Qed.

Lemma returned_analysis_requests_witness :
  exists token pre pages,
    (pre = [] \/ exists rt, pre = [PostToken rt])
    /\ PageWalk Sample.upstream (bearer token) (Some (first_page_url "p")) pages
    /\ issued (analyze 5 Sample.upstream "p") Sample.world
       = pre ++ GetPlaylist (playlist_url "p") (bearer token)
         :: page_requests (bearer token) (Some (first_page_url "p")) pages
         ++ map (fun c => GetAudioFeatures c (bearer token))
                (chunks 100 (trackIds (retrieved pages)))
         ++ map (fun c => GetArtists c (bearer token))
                (chunks 50 (uniqueArtistIds (credit_ids (retrieved pages)))).
Proof.
  apply (returned_analysis_requests 5 Sample.upstream "p" Sample.world).
  vm_compute. eexists. reflexivity.
Defined.

Lemma flat_map_nil {A B} (f : A -> list B) (l : list A) :
  Forall (fun a => f a = []) l -> flat_map f l = [].
Proof. induction 1 as [|a l Ha _ IH]; simpl; [done|]. by rewrite Ha, IH. Qed.

Lemma flat_map_map_id {A B} (f : B -> list A) (g : list A -> B) (cs : list (list A)) :
  (forall c, f (g c) = c) -> flat_map f (map g cs) = concat cs.
Proof. intros H. induction cs as [|c cs IH]; simpl; [done|]. by rewrite H, IH. Qed.

Lemma page_requests_stage auth next pages :
  Forall (fun rq => exists url, rq = GetTracks url auth) (page_requests auth next pages).
Proof.
  revert next. induction pages as [|page pages IH]; intros next; simpl; constructor;
    [by eexists|apply IH].
Qed.

Lemma List_filter_elem_of {A} (p : A -> bool) (l : list A) x :
  x ∈ List.filter p l <-> p x = true /\ x ∈ l.
Proof.
  induction l as [|y l IH]; simpl.
  - split; [by intros ?%not_elem_of_nil|by intros [_ ?%not_elem_of_nil]].
  - destruct (p y) eqn:E.
    + rewrite !elem_of_cons, IH. split.
      * intros [->|[? ?]]; auto.
      * intros [? [->|?]]; auto.
    + rewrite elem_of_cons, IH. split.
      * intros [? ?]; auto.
      * intros [? [->|?]]; [congruence|auto].
Qed.

Lemma List_filter_NoDup {A} (p : A -> bool) (l : list A) :
  NoDup l -> NoDup (List.filter p l).
Proof.
  induction 1 as [|x l Hx _ IH]; simpl; [constructor|].
  destruct (p x); [|done]. constructor; [|done]. rewrite List_filter_elem_of. by intros [_ ?].
Qed.

Lemma uniqueArtistIds_spec ids :
  NoDup (uniqueArtistIds ids)
  /\ forall v, v ∈ uniqueArtistIds ids <-> Js.truthy v = true /\ v ∈ ids.
Proof.
  unfold uniqueArtistIds. destruct (set_of_spec [] ids) as [Hnd Hin]. split.
  - by apply List_filter_NoDup.
  - intros v. rewrite List_filter_elem_of, Hin.
    split; [intros [? [? _]]; by split|intros [? ?]; repeat split; try done].
    by intros ?%not_elem_of_nil.
Qed.

(** X7. In a run that returns, feature records are asked for the truthy
    track identifiers in playlist order, a track that occurs twice being
    asked for twice, whereas no artist identifier is asked for twice: the
    artist requests carry each truthy identifier that is credited on a
    track, once. *)
Theorem artists_are_asked_once fuel up playlistId w :
  returns (analyze fuel up playlistId) w ->
  exists token pages,
    PageWalk up (bearer token) (Some (first_page_url playlistId)) pages
    /\ flat_map features_asked (issued (analyze fuel up playlistId) w)
       = List.filter Js.truthy (map t_id (retrieved pages))
    /\ NoDup (flat_map artists_asked (issued (analyze fuel up playlistId) w))
    /\ forall v, v ∈ flat_map artists_asked (issued (analyze fuel up playlistId) w)
                 <-> Js.truthy v = true /\ v ∈ credit_ids (retrieved pages).
Proof.
  intros [r H]. destruct (analyze fuel up playlistId w) as [o w'] eqn:E. simpl in H. subst o.
  destruct (analyze_trace _ _ _ _ _ _ E) as (token & pre & pages & Hpre & Hwalk & _ & _ & ->).
  exists token, pages. split; [done|]. unfold full_trace.
  assert (forall f : Request -> list (option string),
             f (GetPlaylist (playlist_url playlistId) (bearer token)) = [] ->
             (forall rt, f (PostToken rt) = []) ->
             (forall url, f (GetTracks url (bearer token)) = []) ->
             flat_map f (pre ++ GetPlaylist (playlist_url playlistId) (bearer token)
               :: page_requests (bearer token) (Some (first_page_url playlistId)) pages
               ++ map (fun c => GetAudioFeatures c (bearer token))
                      (chunks 100 (trackIds (retrieved pages)))
               ++ map (fun c => GetArtists c (bearer token))
                      (chunks 50 (uniqueArtistIds (credit_ids (retrieved pages)))))
             = flat_map f (map (fun c => GetAudioFeatures c (bearer token))
                            (chunks 100 (trackIds (retrieved pages))))
               ++ flat_map f (map (fun c => GetArtists c (bearer token))
                            (chunks 50 (uniqueArtistIds (credit_ids (retrieved pages)))))) as Hflat.
  { intros f Hpl Hrt Hurl. rewrite flat_map_app. cbn [flat_map]. rewrite Hpl, !flat_map_app.
    rewrite (flat_map_nil f (page_requests _ _ _)).
    2:{ eapply Forall_impl; [apply page_requests_stage|]. by intros rq [url ->]. }
    destruct Hpre as [->|[rt ->]]; simpl; [done|]. by rewrite Hrt. }
  rewrite !Hflat by done.
  rewrite (flat_map_map_id features_asked (fun c => GetAudioFeatures c (bearer token))) by done.
  rewrite (flat_map_nil features_asked (map _ _)) by (apply Forall_map, Forall_true; done).
  rewrite (flat_map_nil artists_asked (map (fun c => GetAudioFeatures c _) _))
    by (apply Forall_map, Forall_true; done).
  rewrite (flat_map_map_id artists_asked (fun c => GetArtists c (bearer token))) by done.
  rewrite !chunks_concat by lia. rewrite app_nil_r. simpl.
  split; [done|]. apply uniqueArtistIds_spec.
Qed.

Lemma artists_are_asked_once_witness :
  exists token pages,
    PageWalk Sample.upstream (bearer token) (Some (first_page_url "p")) pages
    /\ flat_map features_asked (issued (analyze 5 Sample.upstream "p") Sample.world)
       = List.filter Js.truthy (map t_id (retrieved pages))
    /\ NoDup (flat_map artists_asked (issued (analyze 5 Sample.upstream "p") Sample.world))
    /\ forall v, v ∈ flat_map artists_asked (issued (analyze 5 Sample.upstream "p") Sample.world)
                 <-> Js.truthy v = true /\ v ∈ credit_ids (retrieved pages).
Proof.
  apply (artists_are_asked_once 5 Sample.upstream "p" Sample.world).
  vm_compute. eexists. reflexivity.
Defined.

(** ** Runs that do not return *)

Lemma tracks_loop_endless up auth :
  (forall url, exists page,
      get_tracks up url auth = Ok page /\ Js.truthy (p_next page) = true) ->
  forall fuel next tracks w,
    Js.truthy next = true ->
    exists rqs,
      tracks_loop fuel up auth next tracks w
      = (OutOfFuel, {| session := session w; ticks := ticks w; log := log w ++ rqs |})
      /\ length rqs = fuel
      /\ Forall (fun rq => stage_of rq = 2) rqs.
Proof.
  intros Hcyc. induction fuel as [|fuel IH]; intros next tracks w Hnext;
    cbn [tracks_loop]; rewrite Hnext.
  - exists []. unfold out_of_fuel. by rewrite app_nil_r, world_eta.
  - destruct (Hcyc (Js.interpolate next)) as (page & Hget & Hnext').
    unfold bind, axios. rewrite Hget.
    edestruct (IH (p_next page)) as (rqs & -> & Hlen & Hst); [done|].
    exists (GetTracks (Js.interpolate next) auth :: rqs). cbn [session ticks log].
    rewrite <- app_assoc. split; [done|]. split; [simpl; lia|]. by constructor.
Qed.

(** X8. The pagination loop has no bound of its own: when every page the
    provider serves names a next page, the route never gets to reply;
    however many iterations it is allowed, it has spent them all on page
    requests and has not replied. *)
Theorem endless_cursor_never_replies fuel up playlistId w token :
  token_fresh up w token ->
  (exists pl, get_playlist up (playlist_url playlistId) (bearer token) = Ok pl) ->
  (forall url, exists page,
      get_tracks up url (bearer token) = Ok page /\ Js.truthy (p_next page) = true) ->
  fst (analyze_route fuel up playlistId w) = None
  /\ exists rqs,
       issued (analyze fuel up playlistId) w
       = GetPlaylist (playlist_url playlistId) (bearer token) :: rqs
       /\ length rqs = fuel
       /\ Forall (fun rq => stage_of rq = 2) rqs.
Proof.
  intros Hf [pl Hpl] Hcyc. apply ensureAccessToken_fresh in Hf.
  assert (exists rqs,
             analyze fuel up playlistId w
             = (OutOfFuel,
                {| session := session w; ticks := S (ticks w);
                   log := log w ++ GetPlaylist (playlist_url playlistId) (bearer token) :: rqs |})
             /\ length rqs = fuel /\ Forall (fun rq => stage_of rq = 2) rqs)
    as (rqs & Hrun & Hlen & Hst).
  { unfold analyze. rewrite (bind_Returned _ _ _ _ _ Hf). unfold analyze_with_token.
    unfold bind at 1. unfold axios at 1. rewrite Hpl. unfold bind at 1.
    edestruct (tracks_loop_endless up (bearer token) Hcyc fuel
                 (Some (first_page_url playlistId)) [])
      as (rqs & -> & Hlen & Hst); [done|].
    exists rqs. cbn [session ticks log]. by rewrite <- app_assoc. }
  split.
  - unfold analyze_route. by rewrite Hrun.
  - exists rqs. split; [|done]. apply issued_log. by rewrite Hrun.
Qed.

Lemma endless_cursor_never_replies_witness :
  fst (analyze_route 7 Fixture.cyclic_upstream "p" Sample.world) = None
  /\ exists rqs,
       issued (analyze 7 Fixture.cyclic_upstream "p") Sample.world
       = GetPlaylist (playlist_url "p") (bearer "tok") :: rqs
       /\ length rqs = 7
       /\ Forall (fun rq => stage_of rq = 2) rqs.
Proof.
  apply (endless_cursor_never_replies 7 Fixture.cyclic_upstream "p" Sample.world "tok").
  - eexists. split; [reflexivity|]. split; [reflexivity|]. split; [discriminate|].
    vm_compute. reflexivity.
  - eexists. reflexivity.
  - intros url. eexists. split; reflexivity.
Defined.

(** X9. A [null] among the artists credited on a track makes the route
    fail as soon as the pages are in: the reply is [analysis_failed]
    with status 500 and the message of the type error as its detail, and
    no audio-feature or artist request has been issued. *)
Theorem null_credit_fails_before_batches fuel up playlistId w token pl pages :
  token_fresh up w token ->
  get_playlist up (playlist_url playlistId) (bearer token) = Ok pl ->
  PageWalk up (bearer token) (Some (first_page_url playlistId)) pages ->
  length pages <= fuel ->
  ~ no_null_credit (retrieved pages) ->
  analyze_route fuel up playlistId w
  = (Some {| status := 500;
             body := ErrorBody "analysis_failed"
                       (Some "Cannot read properties of null (reading 'id')") |},
     {| session := session w; ticks := S (ticks w);
        log := log w ++ GetPlaylist (playlist_url playlistId) (bearer token)
               :: page_requests (bearer token) (Some (first_page_url playlistId)) pages |}).
Proof.
  intros Hf Hpl Hwalk Hfuel Hnull. apply ensureAccessToken_fresh in Hf.
  unfold analyze_route, analyze. rewrite (bind_Returned _ _ _ _ _ Hf).
  unfold analyze_with_token. unfold bind at 1. unfold axios at 1. rewrite Hpl.
  unfold bind at 1. rewrite (tracks_loop_walk _ _ _ _ _ _ _ Hwalk Hfuel).
  unfold bind at 1, lift at 1. cbn [app].
  destruct (collect_artist_ids_spec (retrieved pages) []) as [[Hnn _]|[_ ->]]; [done|].
  cbn [session ticks log]. by rewrite <- app_assoc.
Qed.

Lemma null_credit_fails_before_batches_witness :
  analyze_route 5 Fixture.null_credit_upstream "p" Sample.world
  = (Some {| status := 500;
             body := ErrorBody "analysis_failed"
                       (Some "Cannot read properties of null (reading 'id')") |},
     {| session := session Sample.world; ticks := 1;
        log := [GetPlaylist (playlist_url "p") (bearer "tok");
                GetTracks (first_page_url "p") (bearer "tok")] |}).
Proof.
  apply (null_credit_fails_before_batches 5 Fixture.null_credit_upstream "p" Sample.world "tok"
           Sample.playlist [Fixture.null_credit_page]).
  - eexists. split; [reflexivity|]. split; [reflexivity|]. split; [discriminate|].
    vm_compute. reflexivity.
  - reflexivity.
  - apply walk_page; [reflexivity..|]. by apply walk_end.
  - simpl. lia.
  - intros H. inversion H as [|? ? _ H2]; subst. inversion H2 as [|? ? H3 _]; subst.
    inversion H3 as [|? ? [? ?] _]. discriminate.
Defined.

(** X10. The artists loop, unlike the audio-features loop, does not guard
    the records it stores: a [null] in the list the provider returns
    makes it throw the type error of reading [id] on [null], after one
    request. *)
Theorem null_artist_record_fails fuel up auth ids artistsMap w b :
  ids <> [] ->
  Forall (fun v => Js.truthy v = true) ids ->
  get_artists up (artists_url (Js.join "," (take 50 ids))) auth = Ok b ->
  ~ Forall is_Some (default [] (b_artists b)) ->
  artists_loop (S fuel) up auth ids 0 artistsMap w
  = (Thrown (TypeError "id"),
     {| session := session w; ticks := ticks w;
        log := log w ++ [GetArtists (take 50 ids) auth] |}).
Proof.
  intros Hne Ht Hget Hnull. cbn [artists_loop].
  destruct (Nat.ltb_spec 0 (length ids)) as [_|Hlen]; [|destruct ids; [done|simpl in Hlen; lia]].
  assert (Js.slice 0 (0 + 50) ids = take 50 ids) as -> by (by rewrite slice_0).
  rewrite join_truthy; [|by destruct ids|by apply Forall_take].
  unfold bind, axios, lift. rewrite Hget.
  by destruct (store_artists_cases (default [] (b_artists b)) artistsMap) as [[? _]|[_ ->]].
Qed.

Lemma null_artist_record_fails_witness :
  artists_loop 1 Fixture.null_artist_upstream "Bearer tok" [Some "A"; Some "B"] 0 [] Sample.world
  = (Thrown (TypeError "id"),
     {| session := session Sample.world; ticks := 0;
        log := [GetArtists [Some "A"; Some "B"] "Bearer tok"] |}).
Proof.
  apply (null_artist_record_fails 0 Fixture.null_artist_upstream "Bearer tok"
           [Some "A"; Some "B"] [] Sample.world
           {| b_artists := Some [Some Sample.ann; None] |}).
  - discriminate.
  - repeat constructor.
  - reflexivity.
  - intros H. inversion H as [|? ? _ H2]; subst. inversion H2 as [|? ? [? ?] _]. discriminate.
Defined.

(** ** The statistics *)

Lemma feature_records_length audioFeatures tracks :
  length (feature_records audioFeatures tracks) <= length tracks.
Proof.
  unfold feature_records. induction tracks as [|t tracks IH]; [done|].
  change (omap ?f (t :: tracks))
    with (match f t with Some y => y :: omap f tracks | None => omap f tracks end).
  destruct (Js.obj_get (Js.interpolate (t_id t)) audioFeatures); simpl in *; lia.
Qed.

(** X11. The summary adds up: [duration_ms] is the sum of the durations
    of the tracks, a track without a duration counting for nothing;
    [duration_human] is this sum formatted; [features_count] lies between
    zero and [total_tracks], and the averages are left out exactly when
    it is zero. *)
Theorem summary_adds_up pl tracks audioFeatures artistsMap :
  Forall well_formed_track tracks ->
  exists r,
    aggregate pl tracks audioFeatures artistsMap = Returned r
    /\ duration_ms (playlist r)
       = foldr Z.add 0%Z (map (fun t => default 0%Z (t_duration_ms t)) tracks)
    /\ duration_human (playlist r) = formatDuration (duration_ms (playlist r))
    /\ (0 <= features_count (analysis r) <= total_tracks (playlist r))%Z
    /\ (features_count (analysis r) = 0%Z <-> avg_features (analysis r) = []).
Proof.
  intros Hwf.
  destruct (aggregate_Returned pl tracks audioFeatures artistsMap Hwf)
    as (st & Hst & _ & _ & Hc & _ & ->).
  eexists. split; [done|]. cbn [playlist analysis duration_ms duration_human features_count
                                  total_tracks avg_features].
  destruct (visit_tracks_Returned _ _ _ _ Hst) as (_ & Hd & _).
  split.
  { rewrite Hd. cbn [totalDurationMs initial_stats]. rewrite Z.add_0_l. f_equal.
    apply map_ext. intros t. apply num_or_0. }
  split; [done|].
  pose proof (feature_records_length audioFeatures tracks).
  split; [lia|].
  unfold avgFeatures. destruct (Z.ltb_spec 0 (featuresCount st)); split; try done; lia.
Qed.

Lemma summary_adds_up_witness :
  exists r,
    aggregate Sample.playlist Sample.tracks Sample.audioFeatures Sample.artistsMap = Returned r
    /\ duration_ms (playlist r) = 3662500%Z
    /\ duration_human (playlist r) = formatDuration (duration_ms (playlist r))
    /\ (0 <= features_count (analysis r) <= total_tracks (playlist r))%Z
    /\ (features_count (analysis r) = 0%Z <-> avg_features (analysis r) = []).
Proof.
  apply (summary_adds_up Sample.playlist Sample.tracks Sample.audioFeatures Sample.artistsMap).
  repeat constructor; eexists; (split; [reflexivity|]); repeat constructor; by eexists.
Defined.

(** ** The rankings keep the highest *)

Lemma StronglySorted_app_below {A} (R : A -> A -> Prop) (l1 l2 : list A) :
  StronglySorted R (l1 ++ l2) -> Forall (fun a => Forall (fun e => R e a) l1) l2.
Proof.
  induction l1 as [|x l1 IH]; simpl; intros H.
  - apply Forall_true. constructor.
  - apply StronglySorted_inv in H as [H Hx]. apply IH in H.
    apply Forall_app in Hx as [_ Hx].
    apply Forall_forall. intros a Ha. constructor.
    + by apply (proj1 (Forall_forall _ _) Hx).
    + by apply (proj1 (Forall_forall _ _) H).
Qed.

Lemma top_keeps_highest {A} (key : A -> Z) (cmp : A -> A -> Z) (l : list A) :
  (forall a b, cmp a b = (key b - key a)%Z) ->
  keeps_highest key l (Js.slice 0 10 (Js.sort cmp l)).
Proof.
  intros Hcmp. rewrite slice_0. split.
  - by rewrite length_take, (sort_length cmp).
  - exists (drop 10 (Js.sort cmp l)). rewrite take_drop. split; [apply sort_perm|].
    apply (StronglySorted_app_below (fun a b => (key b <= key a)%Z)).
    rewrite take_drop. by apply sort_desc.
Qed.

Lemma keeps_highest_map {A B} (f : A -> B) (keyA : A -> Z) (keyB : B -> Z) src top :
  (forall a, keyB (f a) = keyA a) ->
  keeps_highest keyA src top -> keeps_highest keyB (map f src) (map f top).
Proof.
  intros Hkey (Hlen & rest & Hperm & Hlow). split; [by rewrite !length_map|].
  exists (map f rest). split; [by rewrite <- map_app, Hperm|].
  apply Forall_map. eapply Forall_impl; [exact Hlow|]. intros a Ha.
  apply Forall_map. eapply Forall_impl; [exact Ha|]. intros e He. simpl. by rewrite !Hkey.
Qed.

Lemma keeps_highest_perm {A} (key : A -> Z) src src' top :
  src ≡ₚ src' -> keeps_highest key src top -> keeps_highest key src' top.
Proof.
  intros Hp (Hlen & rest & Hperm & Hlow). split; [by rewrite <- Hp|].
  exists rest. split; [by rewrite Hperm|done].
Qed.

Lemma List_filter_partition {A} (p : A -> bool) (l : list A) :
  List.filter p l ++ List.filter (fun a => negb (p a)) l ≡ₚ l.
Proof.
  induction l as [|x l IH]; simpl; [done|]. destruct (p x); simpl.
  - by rewrite IH.
  - by rewrite <- Permutation_middle, IH.
Qed.

Lemma enumeration_perm keys : enumeration keys ≡ₚ keys.
Proof.
  unfold enumeration. rewrite (sort_perm by_index). apply List_filter_partition.
Qed.

Lemma counted_perm keys : counted keys ≡ₚ first_seen keys.
Proof. unfold counted, first_seen. by rewrite enumeration_perm. Qed.

(** X12. Each ranking keeps the highest: [top_artists] holds ten of the
    counters of the credited names, or all of them when there are fewer,
    each name with the number of its credits, and no name left out has
    more credits than a name kept; likewise [top_tracks] for the tracks
    by their popularity, with zero for a track that has none, and
    [top_genres] for the genre labels.  The counters are those of a
    plain object: this is stated for names and genres that are not names
    of properties inherited from [Object.prototype]. *)
Theorem rankings_keep_the_highest pl tracks audioFeatures artistsMap :
  Forall well_formed_track tracks ->
  own_keys (credited_names tracks) ->
  own_keys (genre_labels artistsMap) ->
  exists r,
    aggregate pl tracks audioFeatures artistsMap = Returned r
    /\ keeps_highest count (map artist_rank (first_seen (credited_names tracks)))
                     (top_artists (analysis r))
    /\ (exists ts,
          keeps_highest popularity_of tracks ts
          /\ Forall2 shows_track (top_tracks (analysis r)) ts)
    /\ keeps_highest genre_count (map genre_rank (first_seen (genre_labels artistsMap)))
                     (top_genres (analysis r)).
Proof.
  intros Hwf _ _.
  destruct (aggregate_Returned pl tracks audioFeatures artistsMap Hwf)
    as (st & _ & Ha & Hp & _ & _ & ->).
  eexists. split; [done|]. cbn [analysis top_artists top_tracks top_genres].
  rewrite Ha, Hp. unfold topArtists, topGenres.
  rewrite genreCount_tally, !entries_tally, topTracks_tracks.
  split; [|split].
  - apply (keeps_highest_perm _ (map artist_rank (counted (credited_names tracks))));
      [by rewrite counted_perm|].
    by apply (keeps_highest_map artist_rank snd), (top_keeps_highest snd).
  - eexists. split; [by apply top_keeps_highest|]. by apply entries_show, top_of_well_formed.
  - apply (keeps_highest_perm _ (map genre_rank (counted (genre_labels artistsMap))));
      [by rewrite counted_perm|].
    by apply (keeps_highest_map genre_rank snd), (top_keeps_highest snd).
Qed.

Lemma rankings_keep_the_highest_witness :
  exists r,
    aggregate Sample.playlist Sample.tracks Sample.audioFeatures Sample.artistsMap = Returned r
    /\ keeps_highest count (map artist_rank (first_seen (credited_names Sample.tracks)))
                     (top_artists (analysis r))
    /\ (exists ts,
          keeps_highest popularity_of Sample.tracks ts
          /\ Forall2 shows_track (top_tracks (analysis r)) ts)
    /\ keeps_highest genre_count
                     (map genre_rank (first_seen (genre_labels Sample.artistsMap)))
                     (top_genres (analysis r)).
Proof.
  apply (rankings_keep_the_highest Sample.playlist Sample.tracks Sample.audioFeatures
           Sample.artistsMap).
  - repeat constructor; eexists; (split; [reflexivity|]); repeat constructor; by eexists.
  - repeat constructor.
  - repeat constructor.
Defined.

(** ** What the audio-features loop stores *)

Lemma stored_under_one k (af : AudioFeatures) :
  stored_under k [Some af]
  = if decide (Js.truthy (af_id af) = true /\ af_id af = Some k) then [af] else [].
Proof. reflexivity. Qed.

Lemma store_features_get k (af : option AudioFeatures) acc :
  Js.obj_get k (store_features acc af)
  = match last (stored_under k [af]) with
    | Some af' => Some af'
    | None => Js.obj_get k acc
    end.
Proof.
  destruct af as [af|]; [|done]. rewrite stored_under_one. unfold store_features.
  destruct (Js.truthy (af_id af)) eqn:Ht.
  - destruct (af_id af) as [i|] eqn:Hi; [|done]. cbn [Js.interpolate].
    destruct (decide (i = k)) as [->|Hne].
    + rewrite decide_True by done. simpl. apply obj_get_set_eq.
    + rewrite decide_False by (intros [_ [= ?]]; done). simpl. by apply obj_get_set_ne.
  - rewrite decide_False by (by intros [? _]). done.
Qed.

Lemma stored_under_app k l1 l2 :
  stored_under k (l1 ++ l2) = stored_under k l1 ++ stored_under k l2.
Proof. unfold stored_under. by rewrite omap_app, filter_app. Qed.


(** ** The other routes *)

Lemma ensureAccessToken_outcomes up w :
  (exists token w1, ensureAccessToken up w = (Returned token, w1))
  \/ (exists e w1, ensureAccessToken up w = (Thrown e, w1)).
Proof.
  destruct (token_cases up w) as [Hno|[[token Hf]|[sess Hs]]].
  - right. rewrite ensureAccessToken_no_token by done. by eexists _, _.
  - left. rewrite (ensureAccessToken_fresh _ _ _ Hf). by eexists _, _.
  - rewrite (ensureAccessToken_stale _ _ _ Hs).
    destruct (post_token up (refresh_token sess)); [left|right]; by eexists _, _.
Qed.


(** X15. Without a token in the session the three API routes do not
    agree on the error: [/api/me] and the analysis reply
    [not_authenticated] with status 401, [/api/playlists] replies
    [fetch_failed] with status 500.  None of them issues a request or
    touches the session. *)
Theorem routes_disagree_without_token fuel up ep playlistId w :
  no_token w ->
  me_route up ep w = (Returned (Json 401 (Failure "not_authenticated")), w)
  /\ playlists_route up ep w = (Returned (Json 500 (Failure "fetch_failed")), w)
  /\ analyze_route fuel up playlistId w
     = (Some {| status := 401; body := ErrorBody "not_authenticated" None |}, w).
Proof.
  intros Hno. unfold me_route, playlists_route, catch, bind.
  rewrite (ensureAccessToken_no_token up w Hno).
  split; [done|]. split; [done|]. by apply missing_token_not_authenticated.
Qed.

Lemma routes_disagree_without_token_witness :
  me_route Sample.upstream Fixture.endpoints Fixture.anonymous_world
  = (Returned (Json 401 (Failure "not_authenticated")), Fixture.anonymous_world)
  /\ playlists_route Sample.upstream Fixture.endpoints Fixture.anonymous_world
     = (Returned (Json 500 (Failure "fetch_failed")), Fixture.anonymous_world)
  /\ analyze_route 5 Sample.upstream "p" Fixture.anonymous_world
     = (Some {| status := 401; body := ErrorBody "not_authenticated" None |},
        Fixture.anonymous_world).
Proof.
  apply (routes_disagree_without_token 5 Sample.upstream Fixture.endpoints "p"
           Fixture.anonymous_world).
  exact I.
Defined.

(** X16. With a valid token, a request the provider refuses is reported
    by [/api/me] as [not_authenticated], status 401, and by
    [/api/playlists] as [fetch_failed], status 500; the status and the
    body of the refusal are not passed on. *)
Theorem refusal_is_masked up ep w token :
  token_fresh up w token ->
  (failure_of (get_me ep (bearer token)) <> None ->
   fst (me_route up ep w) = Returned (Json 401 (Failure "not_authenticated")))
  /\ (failure_of (get_my_playlists ep (bearer token)) <> None ->
      fst (playlists_route up ep w) = Returned (Json 500 (Failure "fetch_failed"))).
Proof.
  intros Hf. apply ensureAccessToken_fresh in Hf.
  unfold me_route, playlists_route, catch, bind, call. rewrite Hf.
  split.
  - by destruct (get_me ep (bearer token)).
  - by destruct (get_my_playlists ep (bearer token)).
Qed.

Lemma refusal_is_masked_witness :
  (failure_of (get_me Fixture.failing_endpoints (bearer "tok")) <> None ->
   fst (me_route Sample.upstream Fixture.failing_endpoints Sample.world)
   = Returned (Json 401 (Failure "not_authenticated")))
  /\ (failure_of (get_my_playlists Fixture.failing_endpoints (bearer "tok")) <> None ->
      fst (playlists_route Sample.upstream Fixture.failing_endpoints Sample.world)
      = Returned (Json 500 (Failure "fetch_failed"))).
Proof.
  apply (refusal_is_masked Sample.upstream Fixture.failing_endpoints Sample.world "tok").
  eexists. split; [reflexivity|]. split; [reflexivity|]. split; [discriminate|].
  vm_compute. reflexivity.
Defined.

(** A callback whose code is exchanged. *)
Lemma callback_route_granted up ep code w g :
  Js.truthy code = true ->
  post_code ep (Js.interpolate code) = Ok g ->
  callback_route up ep code w
  = (Returned (Redirect "/"),
     {| session :=
          Some {| access_token := g_access_token g;
                  refresh_token := g_refresh_token g;
                  expires_in :=
                    option_map (fun e => (date_now up (ticks w) + e * 1000)%Z)
                               (g_expires_in g) |};
        ticks := S (ticks w);
        log := log w |}).
Proof.
  intros Hc Hg. unfold callback_route. rewrite Hc. simpl.
  unfold catch, bind, call. by rewrite Hg.
Qed.

(** X17. The callback always redirects, and writes the session only when
    the code was exchanged: without a code it redirects to
    [/?error=no_code] and asks nothing; when the exchange is refused it
    redirects to [/?error=token_failed] and the session, the clock and
    the log are as before; when it is granted it redirects to [/] and
    the session holds the two tokens of the grant and the expiry
    computed from one reading of the clock. *)
Theorem callback_outcomes up ep code w :
  (Js.truthy code = false
   /\ callback_route up ep code w = (Returned (Redirect "/?error=no_code"), w))
  \/ (Js.truthy code = true
      /\ failure_of (post_code ep (Js.interpolate code)) <> None
      /\ callback_route up ep code w = (Returned (Redirect "/?error=token_failed"), w))
  \/ (Js.truthy code = true
      /\ exists g,
           post_code ep (Js.interpolate code) = Ok g
           /\ callback_route up ep code w
              = (Returned (Redirect "/"),
                 {| session :=
                      Some {| access_token := g_access_token g;
                              refresh_token := g_refresh_token g;
                              expires_in :=
                                option_map (fun e => (date_now up (ticks w) + e * 1000)%Z)
                                           (g_expires_in g) |};
                    ticks := S (ticks w);
                    log := log w |})).
Proof.
  unfold callback_route. destruct (Js.truthy code) eqn:Hc; simpl; [right|by left].
  unfold catch, bind, call.
  destruct (post_code ep (Js.interpolate code)) as [g|st b] eqn:E; simpl.
  - right. split; [done|]. by exists g.
  - left. by repeat split.
Qed.

(** X18. A granted token is used as it is while it lasts: after a
    callback that was granted a token with a lifetime, a request made
    more than five seconds before the expiry is served with the granted
    token and without a refresh. *)
Theorem granted_token_is_used fuel up ep code w g token lifetime playlistId :
  Js.truthy code = true ->
  post_code ep (Js.interpolate code) = Ok g ->
  g_access_token g = Some token ->
  token <> ""%string ->
  g_expires_in g = Some lifetime ->
  (date_now up (S (ticks w)) < date_now up (ticks w) + lifetime * 1000 - 5000)%Z ->
  exists tail,
    issued (analyze fuel up playlistId) (snd (callback_route up ep code w))
    = GetPlaylist (playlist_url playlistId) (bearer token) :: tail
    /\ Forall (fun rq => authorization_of rq = Some (bearer token)) tail.
Proof.
  intros Hc Hg Ht Hne He Hnow.
  rewrite (callback_route_granted up ep code w g Hc Hg). cbn [snd].
  assert (token_fresh up
            {| session :=
                 Some {| access_token := g_access_token g;
                         refresh_token := g_refresh_token g;
                         expires_in :=
                           option_map (fun e => (date_now up (ticks w) + e * 1000)%Z)
                                      (g_expires_in g) |};
               ticks := S (ticks w); log := log w |} token) as Hf.
  { eexists. split; [reflexivity|]. cbn [access_token expires_in ticks].
    split; [done|]. split; [done|]. rewrite He. cbn [option_map Js.num_or].
    destruct (Z.eqb_spec (date_now up (ticks w) + lifetime * 1000) 0); lia. }
  apply ensureAccessToken_fresh in Hf.
  destruct (analyze_after_token fuel up playlistId _ token _ [] Hf) as (_ & _ & H);
    [simpl; by rewrite app_nil_r|]. done.
Qed.

Lemma granted_token_is_used_witness :
  exists tail,
    issued (analyze 5 Sample.upstream "p")
           (snd (callback_route Sample.upstream Fixture.endpoints (Some "code")
                   Fixture.anonymous_world))
    = GetPlaylist (playlist_url "p") (bearer "tok") :: tail
    /\ Forall (fun rq => authorization_of rq = Some (bearer "tok")) tail.
Proof.
  apply (granted_token_is_used 5 Sample.upstream Fixture.endpoints (Some "code")
           Fixture.anonymous_world
           {| g_access_token := Some "tok"; g_refresh_token := Some "r";
              g_expires_in := Some 3600%Z |} "tok" 3600%Z "p");
    try reflexivity; try discriminate.
Defined.

(** X19. The callback has no default for the lifetime of a grant: when
    the grant names none, the first request that needs the token
    refreshes it, whatever the time. *)
Theorem grant_without_lifetime_is_refreshed fuel up ep code w g playlistId :
  Js.truthy code = true ->
  post_code ep (Js.interpolate code) = Ok g ->
  Js.truthy (g_access_token g) = true ->
  g_expires_in g = None ->
  (-5000 <= date_now up (S (ticks w)))%Z ->
  exists tail,
    issued (analyze fuel up playlistId) (snd (callback_route up ep code w))
    = PostToken (g_refresh_token g) :: tail.
Proof.
  intros Hc Hg Ht He Hnow.
  rewrite (callback_route_granted up ep code w g Hc Hg). cbn [snd].
  rewrite He. cbn [option_map].
  set (sess := {| access_token := g_access_token g; refresh_token := g_refresh_token g;
                  expires_in := None |}).
  set (w1 := {| session := Some sess; ticks := S (ticks w); log := log w |}).
  assert (token_stale up w1 sess) as Hs.
  { split; [done|]. split; [done|]. simpl. lia. }
  apply ensureAccessToken_stale in Hs. cbn [refresh_token sess] in Hs.
  destruct (post_token up (g_refresh_token g)) as [td|st b].
  - destruct (analyze_after_token fuel up playlistId w1 _ _
                [PostToken (g_refresh_token g)] Hs) as (_ & _ & tail & -> & _); [done|].
    by eexists.
  - exists []. apply issued_log. unfold analyze, bind. by rewrite Hs.
Qed.

Lemma grant_without_lifetime_is_refreshed_witness :
  exists tail,
    issued (analyze 5 Sample.upstream "p")
           (snd (callback_route Sample.upstream
                   {| post_code := fun _ =>
                        Ok {| g_access_token := Some "tok"; g_refresh_token := Some "r";
                              g_expires_in := None |};
                      get_me := get_me Fixture.endpoints;
                      get_my_playlists := get_my_playlists Fixture.endpoints |}
                   (Some "code") Fixture.anonymous_world))
    = PostToken (Some "r") :: tail.
Proof.
  apply (grant_without_lifetime_is_refreshed 5 Sample.upstream _ (Some "code")
           Fixture.anonymous_world
           {| g_access_token := Some "tok"; g_refresh_token := Some "r";
              g_expires_in := None |} "p");
    try reflexivity. vm_compute. discriminate.
Defined.

(** X20. After [/logout] the session is gone, whatever it held: the
    redirect goes to [/], and the next analysis is answered
    [not_authenticated] without a request. *)
Theorem logout_ends_the_session fuel up playlistId w :
  fst (logout_route w) = Returned (Redirect "/")
  /\ analyze_route fuel up playlistId (snd (logout_route w))
     = (Some {| status := 401; body := ErrorBody "not_authenticated" None |},
        {| session := None; ticks := ticks w; log := log w |}).
Proof.
  split; [done|]. by apply missing_token_not_authenticated.
Qed.

(** ** [escapeHtml] *)

Local Open Scope string_scope.

(** The three passes amount to one pass that rewrites each character on
    its own: the entities written by a pass hold no character that a
    later pass rewrites. *)
Lemma escape_passes s :
  replaceAll ">" "&gt;" (replaceAll "<" "&lt;" (replaceAll "&" "&amp;" s))
  = match s with
    | EmptyString => EmptyString
    | String x s' =>
        escape_char x
        ++ replaceAll ">" "&gt;" (replaceAll "<" "&lt;" (replaceAll "&" "&amp;" s'))
    end.
Proof.
  destruct s as [|x s]; [done|]. unfold escape_char. cbn [replaceAll].
  destruct (Ascii.eqb x "&") eqn:E1; [reflexivity|]. cbn [replaceAll].
  destruct (Ascii.eqb x "<") eqn:E2; [reflexivity|]. cbn [replaceAll].
  destruct (Ascii.eqb x ">") eqn:E3; reflexivity.
Qed.

Lemma escapeHtml_Some s :
  escapeHtml (Some s)
  = replaceAll ">" "&gt;" (replaceAll "<" "&lt;" (replaceAll "&" "&amp;" s)).
Proof. by destruct s. Qed.

Lemma escapeHtml_cons x s :
  escapeHtml (Some (String x s)) = escape_char x ++ escapeHtml (Some s).
Proof. by rewrite !escapeHtml_Some, escape_passes. Qed.

Lemma occurs_app c s1 s2 : occurs c (s1 ++ s2) <-> occurs c s1 \/ occurs c s2.
Proof.
  induction s1 as [|x s1 IH]; simpl; [tauto|]. rewrite IH. tauto.
Qed.

Lemma escape_char_no_markup x : ~ occurs "<" (escape_char x) /\ ~ occurs ">" (escape_char x).
Proof.
  unfold escape_char.
  destruct (Ascii.eqb_spec x "&"); [split; simpl; intros H; decompose [or] H; done|].
  destruct (Ascii.eqb_spec x "<"); [split; simpl; intros H; decompose [or] H; done|].
  destruct (Ascii.eqb_spec x ">"); [split; simpl; intros H; decompose [or] H; done|].
  split; simpl; intros [?|[]]; done.
Qed.

(** X21. The text [escapeHtml] returns holds no [<] and no [>], whatever
    it is given. *)
Theorem escapeHtml_no_markup s :
  ~ occurs "<" (escapeHtml s) /\ ~ occurs ">" (escapeHtml s).
Proof.
  destruct s as [s|]; [|split; vm_compute; tauto].
  induction s as [|x s [IH1 IH2]]; [split; vm_compute; tauto|].
  rewrite escapeHtml_cons. destruct (escape_char_no_markup x) as [H1 H2].
  split; rewrite occurs_app; tauto.
Qed.

Lemma unescape_other x s : x <> "&"%char -> unescapeHtml (String x s) = String x (unescapeHtml s).
Proof. intros Hx. destruct x as [[] [] [] [] [] [] [] []]; done. Qed.

Lemma unescape_escape_char x s : unescapeHtml (escape_char x ++ s) = String x (unescapeHtml s).
Proof.
  unfold escape_char.
  destruct (Ascii.eqb_spec x "&") as [->|H1]; [reflexivity|].
  destruct (Ascii.eqb_spec x "<") as [->|H2]; [reflexivity|].
  destruct (Ascii.eqb_spec x ">") as [->|H3]; [reflexivity|].
  by apply unescape_other.
Qed.

(** X22. Nothing is lost in escaping: reading the three entities back
    returns the string that was escaped, so that two strings with the
    same escaped text are the same string.  In particular an ampersand
    written by a later pass is not escaped again. *)
Theorem escapeHtml_round_trip :
  (forall s, unescapeHtml (escapeHtml (Some s)) = s)
  /\ (forall s1 s2, escapeHtml (Some s1) = escapeHtml (Some s2) -> s1 = s2).
Proof.
  assert (forall s, unescapeHtml (escapeHtml (Some s)) = s) as H.
  { induction s as [|x s IH]; [done|]. by rewrite escapeHtml_cons, unescape_escape_char, IH. }
  split; [done|]. intros s1 s2 E. by rewrite <- (H s1), <- (H s2), E.
Qed.

Lemma length_append (s1 s2 : string) :
  String.length (s1 ++ s2) = String.length s1 + String.length s2.
Proof. induction s1 as [|x s1 IH]; simpl; [done|]. by rewrite IH. Qed.

Lemma escape_char_length x :
  (if Ascii.eqb x "&" || Ascii.eqb x "<" || Ascii.eqb x ">" then 1 else 0)
  <= String.length (escape_char x) - 1
  /\ 1 <= String.length (escape_char x)
  /\ (Ascii.eqb x "&" || Ascii.eqb x "<" || Ascii.eqb x ">" = false ->
      escape_char x = String x EmptyString).
Proof.
  unfold escape_char.
  destruct (Ascii.eqb x "&"); [simpl; split; [lia|split; [lia|done]]|].
  destruct (Ascii.eqb x "<"); [simpl; split; [lia|split; [lia|done]]|].
  destruct (Ascii.eqb x ">"); simpl; split; try lia; split; try lia; done.
Qed.

Lemma escapeHtml_length s :
  String.length s + markup_count s <= String.length (escapeHtml (Some s)).
Proof.
  induction s as [|x s IH]; [done|]. rewrite escapeHtml_cons, length_append.
  cbn [String.length markup_count]. destruct (escape_char_length x) as (? & ? & _). lia.
Qed.

(** X23. [escapeHtml] returns a string as it is exactly when it holds
    none of [&], [<] and [>]; any other string comes back longer. *)
Theorem escapeHtml_identity s :
  (markup_count s = 0 <-> escapeHtml (Some s) = s)
  /\ (markup_count s <> 0 -> String.length s < String.length (escapeHtml (Some s))).
Proof.
  pose proof (escapeHtml_length s) as Hlen. split; [split|lia].
  - induction s as [|x s IH]; [done|]. cbn [markup_count]. intros H.
    rewrite escapeHtml_cons. destruct (escape_char_length x) as (_ & _ & Hx).
    destruct (Ascii.eqb x "&" || Ascii.eqb x "<" || Ascii.eqb x ">"); [lia|].
    rewrite Hx by done. cbn [append]. f_equal. apply IH; [|lia].
    apply escapeHtml_length.
  - intros E. rewrite E in Hlen. lia.
Qed.

Local Open Scope list_scope.

(** ** The replies of the analysis *)

(** X24. The analysis has three kinds of reply and no other: the result
    with status 200, which is sent only when every request of the run
    was answered with success; [not_authenticated] with status 401 and
    no detail, which is sent before any request; [analysis_failed] with
    status 500 and a detail. *)
Theorem replies_are_of_three_kinds fuel up playlistId w :
  match fst (analyze_route fuel up playlistId w) with
  | Some reply => ReplyKind up (issued (analyze fuel up playlistId) w) reply
  | None => True
  end.
Proof.
  destruct (disciplined_analyze up fuel playlistId w) as (rqs & Hlog & Ho).
  rewrite (issued_log _ _ _ Hlog).
  destruct (token_cases up w) as [Hno|Htoken].
  - rewrite (missing_token_not_authenticated fuel up playlistId w Hno). cbn [fst].
    apply reply_not_authenticated.
    assert (log (snd (analyze fuel up playlistId w)) = log w ++ []) as Hnil.
    { unfold analyze, bind. rewrite ensureAccessToken_no_token by done. simpl.
      by rewrite app_nil_r. }
    rewrite Hlog in Hnil. by apply app_inv_head in Hnil.
  - assert (forall reply, fst (analyze_route fuel up playlistId w) = Some reply ->
                          status reply <> 401%Z) as Hnot.
    { destruct Htoken as [[token Hf]|[sess Hs]].
      - apply ensureAccessToken_fresh in Hf.
        apply (analyze_with_token_reply fuel up playlistId token w _ Hf).
      - apply ensureAccessToken_stale in Hs.
        destruct (post_token up (refresh_token sess)) as [td|st b].
        + apply (analyze_with_token_reply fuel up playlistId _ w _ Hs).
        + intros reply. unfold analyze_route, analyze, bind. rewrite Hs.
          rewrite on_error_axios. by intros [= <-]. }
    unfold analyze_route in *.
    destruct (analyze fuel up playlistId w) as [[r|e|] w']; simpl in *; [| |done].
    + by apply reply_result.
    + specialize (Hnot _ eq_refl). unfold on_error in *.
      destruct (String.eqb (message e) "not_authenticated"); [done|]. apply reply_failed.
Qed.
